(** * Api_pdf: budget and composition extraction from SINAPI documents

    A shallow embedding of the parsing and reconciliation code of the
    repository (app/core/money.py, app/core/sanitizer.py,
    app/core/pdf_text.py, app/bases/sinapi/parser.py and
    app/bases/sinapi/composicoes_parser.py), followed by the properties
    proved about it.

    Python values are modelled as follows.
    - [str] is a list of Unicode code points ([N]); [lit] writes an ASCII
      literal.
    - [float] is IEEE binary64 (Rocq's primitive floats).
    - a [dict] is an insertion-ordered association list with unique keys.
    - a call that can raise has an [outcome]: it [Returns] a value or
      [Raises] an exception.
    - mutable objects that are shared (budget nodes) live in a heap indexed
      by object identity. *)

From Stdlib Require Import List ZArith NArith Bool Lia Floats.
From Stdlib Require Import Sorting.Permutation Sorting.Sorted.
From Stdlib Require String Ascii.
Import ListNotations.
Import String.StringSyntax.
Bind Scope string_scope with String.string.

#[global] Set Warnings "-inexact-float,-register-all,-notation-for-abbreviation".

(* ================================================================== *)
(** * Part I. Definitions                                              *)
(* ================================================================== *)

(** ** Python strings *)

Module Py.

Definition char := N.
Definition str := list char.

Fixpoint lit (s : String.string) : str :=
  match s with
  | String.EmptyString => []
  | String.String a s' => Ascii.N_of_ascii a :: lit s'
  end.

Definition char_eqb (a b : char) : bool := N.eqb a b.

Fixpoint str_eqb (a b : str) : bool :=
  match a, b with
  | [], [] => true
  | x :: a', y :: b' => char_eqb x y && str_eqb a' b'
  | _, _ => false
  end.

(** Truth value of a string: [bool(s)]. *)
Definition truthy (s : str) : bool :=
  match s with [] => false | _ => true end.

(** Whitespace as [str.strip], [str.split] and the regex class [\s] see it
    (Py_UNICODE_ISSPACE). *)
Definition is_space (c : char) : bool :=
  ((9 <=? c) && (c <=? 13) || (28 <=? c) && (c <=? 32)
   || (c =? 133) || (c =? 160) || (c =? 5760)
   || (8192 <=? c) && (c <=? 8202)
   || (c =? 8232) || (c =? 8233) || (c =? 8239) || (c =? 8287)
   || (c =? 12288))%N.

Fixpoint lstrip (s : str) : str :=
  match s with
  | [] => []
  | c :: s' => if is_space c then lstrip s' else s
  end.

Definition rstrip (s : str) : str := rev (lstrip (rev s)).

Definition strip (s : str) : str := rstrip (lstrip s).

(** [s.startswith(p)]. *)
Fixpoint startswith (s p : str) {struct p} : bool :=
  match p with
  | [] => true
  | c :: p' =>
      match s with
      | [] => false
      | d :: s' => char_eqb c d && startswith s' p'
      end
  end.

(** [s.find(m)]: the least index at which [m] occurs, or -1. *)
Fixpoint find_from (s m : str) (i : Z) : Z :=
  if startswith s m then i
  else match s with
       | [] => (-1)%Z
       | _ :: s' => find_from s' m (i + 1)
       end.

Definition find (s m : str) : Z := find_from s m 0.

(** [m in s]. *)
Definition contains (m s : str) : bool := negb (find s m =? -1)%Z.

(** [s[:n]] for [n >= 0]. *)
Definition slice_to (s : str) (n : Z) : str := firstn (Z.to_nat n) s.

(** [s.replace(old, new)] for a non-empty [old]: occurrences are replaced
    from the left and do not overlap.  [skip] counts the characters of an
    occurrence that are still to be dropped. *)
Fixpoint replace_go (old new : str) (skip : nat) (s : str) : str :=
  match s with
  | [] => []
  | c :: s' =>
      match skip with
      | S k => replace_go old new k s'
      | O =>
          if startswith s old
          then new ++ replace_go old new (length old - 1) s'
          else c :: replace_go old new 0 s'
      end
  end.

Definition replace (s old new : str) : str := replace_go old new 0 s.

(** [s.count(c)] for a one-character [c]. *)
Definition count_char (s : str) (c : char) : Z :=
  Z.of_nat (length (filter (char_eqb c) s)).

(** [s.split(sep, 1)] for a one-character [sep] that occurs in [s]. *)
Fixpoint split1 (s : str) (sep : char) : str * str :=
  match s with
  | [] => ([], [])
  | c :: s' =>
      if char_eqb c sep then ([], s')
      else let '(a, b) := split1 s' sep in (c :: a, b)
  end.

(** [sep.join(parts)]. *)
Fixpoint join (sep : str) (parts : list str) : str :=
  match parts with
  | [] => []
  | [p] => p
  | p :: rest => p ++ sep ++ join sep rest
  end.

(** [s.split()]: the maximal runs of characters that are not whitespace.
    [cur] holds the run that is open, last character first. *)
Fixpoint split_go (cur : str) (s : str) : list str :=
  match s with
  | [] => match cur with [] => [] | _ => [rev cur] end
  | c :: s' =>
      if is_space c
      then match cur with
           | [] => split_go [] s'
           | _ => rev cur :: split_go [] s'
           end
      else split_go (c :: cur) s'
  end.

Definition split (s : str) : list str := split_go [] s.

(** [s.splitlines()]: a line ends at \n, \r, \r\n, \v, \f, \x1c, \x1d,
    \x1e, \x85, U+2028 or U+2029; a line end at the end of the text
    opens no further line. *)
Definition is_linebreak (c : char) : bool :=
  ((10 <=? c) && (c <=? 13) || (28 <=? c) && (c <=? 30)
   || (c =? 133) || (c =? 8232) || (c =? 8233))%N.

Fixpoint splitlines_go (cur : str) (s : str) : list str :=
  match s with
  | [] => match cur with [] => [] | _ => [rev cur] end
  | c :: s' =>
      if is_linebreak c
      then rev cur ::
           match s' with
           | d :: s'' =>
               if (c =? 13)%N && (d =? 10)%N then splitlines_go [] s''
               else splitlines_go [] s'
           | [] => splitlines_go [] s'
           end
      else splitlines_go (c :: cur) s'
  end.

Definition splitlines (s : str) : list str := splitlines_go [] s.

(** [re.sub(r"\s+", " ", s)]: each maximal run of whitespace becomes one
    space.  [inrun] holds inside a run whose replacement is already out. *)
Fixpoint sub_ws1 (inrun : bool) (s : str) : str :=
  match s with
  | [] => []
  | c :: s' =>
      if is_space c
      then if inrun then sub_ws1 true s' else 32%N :: sub_ws1 true s'
      else c :: sub_ws1 false s'
  end.

(** [re.sub(r"\s{2,}", " ", s)]: each maximal run of two or more whitespace
    characters becomes one space; a lone whitespace character stays. *)
Fixpoint sub_ws2 (inrun : bool) (s : str) : str :=
  match s with
  | [] => []
  | c :: s' =>
      if is_space c
      then if inrun then sub_ws2 true s'
           else match s' with
                | d :: _ =>
                    if is_space d then 32%N :: sub_ws2 true s'
                    else c :: sub_ws2 false s'
                | [] => [c]
                end
      else c :: sub_ws2 false s'
  end.

(** Python's [max(a, b)] on floats: the first argument unless the second
    is strictly greater. *)
Definition fmax (a b : float) : float :=
  if PrimFloat.ltb a b then b else a.

(** What a call does: it returns, or an exception leaves it. *)
Inductive exn := ValueError | IndexError | RecursionError | ValidationError.

Inductive outcome (A : Type) : Type :=
| Returns (a : A)
| Raises (e : exn).
Arguments Returns {A} a.
Arguments Raises {A} e.

(** [range(a, b)]. *)
Definition py_range (a b : Z) : list Z :=
  map (fun k => (a + Z.of_nat k)%Z) (seq 0 (Z.to_nat (b - a))).

(** Insertion-ordered dictionaries. *)
Section Dict.
Context {V : Type}.

Definition dict := list (str * V)%type.

Fixpoint dict_get (d : dict) (k : str) : option V :=
  match d with
  | [] => None
  | (k', v) :: d' => if str_eqb k' k then Some v else dict_get d' k
  end.

(** [d[k] = v]: an existing key keeps its place, a new key goes last. *)
Fixpoint dict_set (d : dict) (k : str) (v : V) : dict :=
  match d with
  | [] => [(k, v)]
  | (k', v') :: d' =>
      if str_eqb k' k then (k', v) :: d' else (k', v') :: dict_set d' k v
  end.

Definition dict_mem (d : dict) (k : str) : bool :=
  match dict_get d k with Some _ => true | None => false end.

Definition dict_keys (d : dict) : list str := map fst d.

End Dict.

End Py.

Import Py.

(** ** The matches of the compiled patterns

    What the [re] module finds for the patterns that the budget pass
    compiles: the groups of a match, or nothing.  The code is modelled
    over any such matching; [Re] further down gives the matching itself. *)
Class Patterns := {
  (** [_RE_ITEM_START.match]: item, codigo, fonte, rest. *)
  RE_ITEM_START_match : str -> option (str * str * str * str);
  (** [_RE_ITEM_COMPOSICAO_START.match]: item, fonte, rest. *)
  RE_ITEM_COMPOSICAO_START_match : str -> option (str * str * str);
  (** [_RE_ITEM_TAIL.search]: und, quant, s_bdi, c_bdi, parcial. *)
  RE_ITEM_TAIL_search : str -> option (str * str * str * str * str);
  (** [_RE_ITEM_TAIL.sub("", _)]. *)
  RE_ITEM_TAIL_sub_empty : str -> str;
  (** [_RE_GROUP_WITH_TOTAL.match]: item, desc, total. *)
  RE_GROUP_WITH_TOTAL_match : str -> option (str * str * str);
  (** [_RE_GROUP_NO_TOTAL.match]: item, desc. *)
  RE_GROUP_NO_TOTAL_match : str -> option (str * str);
  (** [_RE_ONLY_NUMBER.match]: num. *)
  RE_ONLY_NUMBER_match : str -> option str;
  (** [re.findall(_NUM, _)]. *)
  RE_NUM_findall : str -> list str;
  (** [re.match(r"^\d+(?:\.\d+)*\s+", _)]. *)
  RE_NEW_ROW_match : str -> bool;
  (** [re.match(r"^\d+(?:\.\d+)*\s+\S+", _)]. *)
  RE_NEW_ROW_TEXT_match : str -> bool
}.

(** ** app/core/sanitizer.py *)

Module Sanitizer.

(** [_normalize_space]. *)
Definition _normalize_space (s : str) : str :=
  sub_ws2 false (strip (replace s [160%N] [32%N])).

(** [m and m.strip()]. *)
Definition marker_ok (m : str) : bool := truthy m && truthy (strip m).

(** [list(dict.fromkeys(l))]: first occurrences, in order. *)
Fixpoint dedupe (seen l : list str) : list str :=
  match l with
  | [] => []
  | m :: l' =>
      if existsb (str_eqb m) seen then dedupe seen l'
      else m :: dedupe (m :: seen) l'
  end.

(** [l.sort(key=len, reverse=True)]: stable, longest first. *)
Fixpoint insert_by_len (m : str) (l : list str) : list str :=
  match l with
  | [] => [m]
  | x :: l' =>
      if (length x <=? length m)%nat then m :: l
      else x :: insert_by_len m l'
  end.

Definition sort_by_len_desc (l : list str) : list str :=
  fold_right insert_by_len [] l.

(** [_merge_markers(static, dynamic)]; a missing [dynamic] is []. *)
Definition _merge_markers (static dynamic : list str) : list str :=
  let dyn := filter marker_ok dynamic in
  sort_by_len_desc (dedupe [] (filter marker_ok static ++ dyn)).

(** [break_glued_markers]: the pattern is a lookahead for any of the
    markers, so a newline goes in front of every position at which a
    marker starts. *)
Fixpoint break_before_markers (markers : list str) (text : str) : str :=
  match text with
  | [] => []
  | c :: text' =>
      (if existsb (startswith text) markers then [10%N] else [])
      ++ c :: break_before_markers markers text'
  end.

Definition break_glued_markers (text : str) (break_before dynamic_markers : list str) : str :=
  if negb (truthy text) then text
  else
    match _merge_markers break_before dynamic_markers with
    | [] => text
    | markers => break_before_markers markers text
    end.

(** The loop of [clean_inline] that finds where to cut. *)
Definition cut_step (s : str) (cut_idx : option Z) (m : str) : option Z :=
  let idx := find s m in
  if (idx =? -1)%Z then cut_idx
  else match cut_idx with
       | None => Some idx
       | Some c => Some (Z.min c idx)
       end.

(** [clean_inline]. *)
Definition clean_inline (text : str) (strip_inline_from dynamic_markers : list str) : str :=
  let s := _normalize_space text in
  let markers := _merge_markers strip_inline_from dynamic_markers in
  if negb (truthy s) || match markers with [] => true | _ => false end then s
  else
    match fold_left (cut_step s) markers None with
    | Some cut_idx => _normalize_space (rstrip (slice_to s cut_idx))
    | None => _normalize_space s
    end.

(** [any(m in s for m in drop if m)]. *)
Definition any_drop (drop : list str) (s : str) : bool :=
  existsb (fun m => truthy m && contains m s) drop.

(** [sanitize_lines]: the body of the loop, then the loop. *)
Definition sanitize_step (drop_lines_if_contains strip_inline_from dynamic_markers : list str)
    (out : list str) (ln : str) : list str :=
  let s := _normalize_space ln in
  if negb (truthy s) then out
  else
    let s := clean_inline s strip_inline_from dynamic_markers in
    if negb (truthy s) then out
    else if match drop_lines_if_contains with [] => false | _ => true end
            && any_drop drop_lines_if_contains s
    then out
    else out ++ [s].

Definition sanitize_lines (lines : list str)
    (drop_lines_if_contains strip_inline_from dynamic_markers : list str) : list str :=
  fold_left (sanitize_step drop_lines_if_contains strip_inline_from dynamic_markers) lines [].

(** [contains_any]. *)
Definition contains_any (text : str) (markers dynamic_markers : list str) : bool :=
  existsb (fun m => contains m text) (_merge_markers markers dynamic_markers).

(** [is_safe_continuation]; its first argument is not used. *)
Definition is_safe_continuation `{Patterns} (prev_text next_line : str)
    (toxic_for_continuation dynamic_markers : list str) : bool :=
  let s := _normalize_space next_line in
  if negb (truthy s) then false
  else if RE_NEW_ROW_TEXT_match s then false
  else if contains_any s toxic_for_continuation dynamic_markers then false
  else true.

(** What the specification's words describe for the line sanitizer: lines
    that match a drop marker are removed first, and only the surviving
    lines are truncated. *)
Definition drop_then_truncate (lines : list str)
    (drop_lines_if_contains strip_inline_from dynamic_markers : list str) : list str :=
  map (fun ln => clean_inline ln strip_inline_from dynamic_markers)
      (filter (fun ln => negb (any_drop drop_lines_if_contains ln)) lines).

End Sanitizer.

(** ** The interpreter's Unicode tables and float conversion *)

(** The Unicode database behind [\d], [float], [str.upper], [str.lower]
    and the [unicodedata] module.  It is not part of the repository; the
    code is modelled over any database that agrees with Unicode on ASCII
    and in which no decimal digit is whitespace. *)
Class Unicode := {
  to_decimal : char -> option Z;
  upper : str -> str;
  lower : str -> str;
  nfkd : str -> str;
  combining : char -> Z;
  decimal_ascii : forall c, (c < 128)%N ->
    to_decimal c = if ((48 <=? c) && (c <=? 57))%N then Some (Z.of_N c - 48)%Z else None;
  decimal_not_space : forall c d, to_decimal c = Some d -> is_space c = false
}.

Module PyFloat.

(** The binary64 value nearest to [m * 10^e] (ties to even), signed. *)
Definition dec2float (neg : bool) (m e : Z) : float :=
  match m with
  | Zpos p =>
      let num := if (0 <=? e)%Z then Z.to_pos (Zpos p * 10 ^ e) else p in
      let den := if (0 <=? e)%Z then 1%positive else Z.to_pos (10 ^ (- e)) in
      SF2Prim (SFdiv prec emax (S754_finite neg num 0) (S754_finite false den 0))
  | _ => if neg then (-0)%float else 0%float
  end.

Definition ascii_digit (c : char) : option Z :=
  if ((48 <=? c) && (c <=? 57))%N then Some (Z.of_N c - 48)%Z else None.

(** Reads a run of ASCII digits: the number read so far, how many digits
    were read, and the rest. *)
Fixpoint read_digits (s : str) (acc : Z) (n : nat) : Z * nat * str :=
  match s with
  | [] => (acc, n, s)
  | c :: s' =>
      match ascii_digit c with
      | Some d => read_digits s' (10 * acc + d)%Z (S n)
      | None => (acc, n, s)
      end
  end.

Definition read_sign (s : str) : bool * str :=
  match s with
  | 45%N :: r => (true, r)
  | 43%N :: r => (false, r)
  | _ => (false, s)
  end.

(** The decimal grammar of the interpreter's [strtod]: the value and the
    unread rest, or [None] when no number starts the text. *)
Definition strtod (s : str) : option (float * str) :=
  let '(neg, s1) := read_sign s in
  let '(ip, ni, s2) := read_digits s1 0 0 in
  let '(m, nf, s3) :=
    match s2 with
    | 46%N :: r => read_digits r ip 0
    | _ => (ip, 0%nat, s2)
    end in
  if (ni + nf =? 0)%nat then None
  else
    let '(e, s4) :=
      match s3 with
      | c :: r =>
          if ((c =? 101) || (c =? 69))%N then
            let '(eneg, r1) := read_sign r in
            let '(ev, ne, r2) := read_digits r1 0 0 in
            if (ne =? 0)%nat then (0%Z, s3)
            else ((if eneg then - ev else ev)%Z, r2)
          else (0%Z, s3)
      | [] => (0%Z, s3)
      end in
    Some (dec2float neg m (e - Z.of_nat nf), s4).

Definition lower_ascii (c : char) : char :=
  if ((65 <=? c) && (c <=? 90))%N then (c + 32)%N else c.

(** [inf], [infinity] and [nan], in any case, with an optional sign; the
    whole text must be used. *)
Definition inf_or_nan (s : str) : option float :=
  let '(neg, r) := read_sign s in
  let w := map lower_ascii r in
  if str_eqb w (lit "inf") || str_eqb w (lit "infinity")
  then Some (if neg then neg_infinity else infinity)
  else if str_eqb w (lit "nan") then Some nan
  else None.

Definition is_ascii_space (c : char) : bool :=
  ((9 <=? c) && (c <=? 13) || (c =? 32))%N.

Fixpoint lstrip_ascii (s : str) : str :=
  match s with
  | [] => []
  | c :: s' => if is_ascii_space c then lstrip_ascii s' else s
  end.

Definition strip_ascii (s : str) : str :=
  rev (lstrip_ascii (rev (lstrip_ascii s))).

(** Underscores may only stand between two digits; they are removed. *)
Fixpoint drop_underscores (prev : char) (s : str) : option str :=
  match s with
  | [] => if (prev =? 95)%N then None else Some []
  | c :: s' =>
      if (c =? 95)%N then
        match ascii_digit prev with
        | Some _ => drop_underscores c s'
        | None => None
        end
      else if (prev =? 95)%N && match ascii_digit c with Some _ => false | None => true end
      then None
      else option_map (cons c) (drop_underscores c s')
  end.

Section WithUnicode.
Context `{Unicode}.

(** Non-ASCII whitespace becomes a space and a non-ASCII decimal digit its
    ASCII digit; any other non-ASCII character cannot be part of a number. *)
Fixpoint to_ascii (s : str) : option str :=
  match s with
  | [] => Some []
  | c :: s' =>
      if (c <? 128)%N then option_map (cons c) (to_ascii s')
      else if is_space c then option_map (cons 32%N) (to_ascii s')
      else match to_decimal c with
           | Some d => option_map (cons (48 + Z.to_N d)%N) (to_ascii s')
           | None => None
           end
  end.

(** [float(s)]; [None] stands for [ValueError]. *)
Definition py_float (s : str) : option float :=
  match to_ascii s with
  | None => None
  | Some a =>
      match (if existsb (N.eqb 95) a then drop_underscores 0%N a else Some a) with
      | None => None
      | Some b =>
          let c := strip_ascii b in
          match strtod c with
          | Some (x, []) => Some x
          | Some (_, _ :: _) => None
          | None => inf_or_nan c
          end
      end
  end.

End WithUnicode.

End PyFloat.

(** ** app/core/money.py *)

Module Money.
Section WithUnicode.
Context `{Unicode}.

Definition is_digit (c : char) : bool :=
  match to_decimal c with Some _ => true | None => false end.

(** [$]: the end of the text, or just before a final newline. *)
Definition at_end (s : str) : bool :=
  match s with
  | [] => true
  | [c] => (c =? 10)%N
  | _ => false
  end.

(** [\d+$]. *)
Fixpoint digits_end (s : str) : bool :=
  match s with
  | [] => false
  | d :: r => is_digit d && (at_end r || digits_end r)
  end.

(** [(?:,\d+)?$]. *)
Definition frac_end (s : str) : bool :=
  at_end s || match s with
              | c :: r => (c =? 44)%N && digits_end r
              | [] => false
              end.

(** [(?:\.\d{3})*(?:,\d+)?$]. *)
Fixpoint groups_end (s : str) : bool :=
  frac_end s
  || match s with
     | c :: d1 :: d2 :: d3 :: r =>
         (c =? 46)%N && is_digit d1 && is_digit d2 && is_digit d3 && groups_end r
     | _ => false
     end.

(** [\d{1,3}] followed by [k]. *)
Definition digits_1_3 (k : str -> bool) (s : str) : bool :=
  match s with
  | d1 :: r1 =>
      is_digit d1
      && (k r1
          || match r1 with
             | d2 :: r2 =>
                 is_digit d2
                 && (k r2
                     || match r2 with
                        | d3 :: r3 => is_digit d3 && k r3
                        | [] => false
                        end)
             | [] => false
             end)
  | [] => false
  end.

(** [\d+(?:,\d+)?$]. *)
Fixpoint digits_frac_end (s : str) : bool :=
  match s with
  | [] => false
  | d :: r => is_digit d && (frac_end r || digits_frac_end r)
  end.

(** [-?] followed by [k]. *)
Definition opt_minus (k : str -> bool) (s : str) : bool :=
  match s with
  | c :: r => ((c =? 45)%N && k r) || k s
  | [] => k s
  end.

(** [_PTBR_RE.match(s)]:
    [-?\d{1,3}(?:\.\d{3})*(?:,\d+)?$|-?\d+(?:,\d+)?$]. *)
Definition _PTBR_RE_match (s : str) : bool :=
  opt_minus (digits_1_3 groups_end) s || opt_minus digits_frac_end s.

(** [parse_ptbr_number]. *)
Definition parse_ptbr_number (value : str) : option float :=
  let s := replace (replace (strip value) (lit "R$") []) [32%N] [] in
  if negb (truthy s) then None
  else if negb (_PTBR_RE_match s) then None
  else PyFloat.py_float (replace (replace s [46%N] []) [44%N] [46%N]).

End WithUnicode.
End Money.

(** ** The matching of the patterns of the budget pass

    A backtracking matcher with the priorities of the [re] module (a
    greedy repetition tries one more turn first, a lazy one tries to stop
    first, an alternation tries its left side first), and the patterns of
    app/bases/sinapi/parser.py and app/core/sanitizer.py written in
    it. *)

Module Re.

Inductive re :=
| Eps
| Cls (p : char -> bool)
| Seq (a b : re)
| Alt (a b : re)
| Rep (greedy : bool) (min : nat) (max : option nat) (a : re)
| Grp (name : nat) (a : re)
| Dollar.

Definition caps := list (nat * str).

Definition below (count : nat) (max : option nat) : bool :=
  match max with
  | None => true
  | Some m => (count <? m)%nat
  end.

(** [run r s c k]: match [r] at the head of [s], then go on with [k] on
    the rest; the first way that makes [k] succeed is taken. *)
Fixpoint run {A : Type} (r : re) (s : str) (c : caps)
    (k : str -> caps -> option A) {struct r} : option A :=
  match r with
  | Eps => k s c
  | Cls p =>
      match s with
      | x :: s' => if p x then k s' c else None
      | [] => None
      end
  | Seq a b => run a s c (fun s' c' => run b s' c' k)
  | Alt a b =>
      match run a s c k with
      | Some x => Some x
      | None => run b s c k
      end
  | Rep greedy min max a =>
      (fix turn (fuel count : nat) (s : str) (c : caps) {struct fuel} : option A :=
         match fuel with
         | O => None
         | S fuel' =>
             if greedy then
               match
                 (if below count max
                  then run a s c (fun s' c' =>
                         if (length s' <? length s)%nat
                         then turn fuel' (S count) s' c' else None)
                  else None)
               with
               | Some x => Some x
               | None => if (min <=? count)%nat then k s c else None
               end
             else
               match (if (min <=? count)%nat then k s c else None) with
               | Some x => Some x
               | None =>
                   if below count max
                   then run a s c (fun s' c' =>
                          if (length s' <? length s)%nat
                          then turn fuel' (S count) s' c' else None)
                   else None
               end
         end) (S (length s)) 0%nat s c
  | Grp name a =>
      run a s c (fun s' c' => k s' ((name, firstn (length s - length s') s) :: c'))
  | Dollar =>
      match s with
      | [] => k s c
      | [x] => if (x =? 10)%N then k s c else None
      | _ => None
      end
  end.

(** [pattern.match(s)]: the rest after the match and the groups. *)
Definition match_ (r : re) (s : str) : option (str * caps) :=
  run r s [] (fun s' c => Some (s', c)).

Fixpoint group (c : caps) (name : nat) : str :=
  match c with
  | [] => []
  | (n, v) :: c' => if (n =? name)%nat then v else group c' name
  end.

(** [pattern.search(s)]: the text before the first match, the rest after
    it and the groups. *)
Fixpoint search_from (r : re) (before s : str) : option (str * str * caps) :=
  match match_ r s with
  | Some (rest, c) => Some (rev before, rest, c)
  | None =>
      match s with
      | [] => None
      | x :: s' => search_from r (x :: before) s'
      end
  end.

Definition search (r : re) (s : str) : option (str * str * caps) :=
  search_from r [] s.

(** [pattern.sub("", s)] and [pattern.findall(s)], for a pattern that
    does not match the empty text. *)
Fixpoint sub_empty (fuel : nat) (r : re) (s : str) : str :=
  match fuel with
  | O => s
  | S fuel' =>
      match match_ r s with
      | Some (rest, _) =>
          if (length rest <? length s)%nat then sub_empty fuel' r rest
          else match s with
               | [] => []
               | x :: s' => x :: sub_empty fuel' r s'
               end
      | None =>
          match s with
          | [] => []
          | x :: s' => x :: sub_empty fuel' r s'
          end
      end
  end.

Fixpoint findall (fuel : nat) (r : re) (s : str) : list str :=
  match fuel with
  | O => []
  | S fuel' =>
      match match_ r s with
      | Some (rest, _) =>
          if (length rest <? length s)%nat
          then firstn (length s - length rest) s :: findall fuel' r rest
          else match s with
               | [] => []
               | _ :: s' => findall fuel' r s'
               end
      | None =>
          match s with
          | [] => []
          | _ :: s' => findall fuel' r s'
          end
      end
  end.

Definition plus (a : re) : re := Rep true 1 None a.
Definition lazy_plus (a : re) : re := Rep false 1 None a.
Definition star (a : re) : re := Rep true 0 None a.
Definition opt (a : re) : re := Rep true 0 (Some 1%nat) a.
Definition chr (x : char) : re := Cls (N.eqb x).

Fixpoint seq (l : list re) : re :=
  match l with
  | [] => Eps
  | [a] => a
  | a :: l' => Seq a (seq l')
  end.

Section WithUnicode.
Context `{Unicode}.

Definition digit : re := Cls Money.is_digit.
Definition ws : re := Cls is_space.
Definition any : re := Cls (fun c => negb (c =? 10)%N).
Definition nonspace : re := Cls (fun c => negb (is_space c)).

(** IGNORECASE on a str pattern: a letter of the pattern matches the
    characters whose lower-case code point ([_sre.unicode_tolower], the
    first code point of the lower-case form) is its own or one of the
    equivalents the [re] module lists for it; for the letters of these
    patterns, the dotless i for [i] and the long s for [s]. *)
Definition tolower (c : char) : char := hd c (lower [c]).

Definition ignorecase_fixes (lo : char) : list char :=
  if (lo =? 105)%N then [305%N]
  else if (lo =? 115)%N then [383%N]
  else [].

Definition chr_ci (x : char) : re :=
  Cls (fun c =>
         (tolower c =? tolower x)%N
         || existsb (N.eqb (tolower c)) (ignorecase_fixes (tolower x))).
Definition text_ci (t : str) : re := seq (map chr_ci t).

(** [_NUM]. *)
Definition NUM : re :=
  Alt (seq [Rep true 1 (Some 3%nat) digit;
            star (Seq (chr 46%N) (Rep true 3 (Some 3%nat) digit));
            opt (Seq (chr 44%N) (plus digit))])
      (seq [plus digit; opt (Seq (chr 44%N) (plus digit))]).

(** [\d+(?:\.\d+)*]. *)
Definition ITEM_NUMBER : re := Seq (plus digit) (star (Seq (chr 46%N) (plus digit))).

(** [SINAPI|Próprio], ignoring case. *)
Definition FONTE : re :=
  Alt (text_ci (lit "SINAPI")) (text_ci (lit "Pr" ++ [243%N] ++ lit "prio")).

(** [[0-9A-Z_]] under IGNORECASE: the set holds the lower-case code
    points of its members and their equivalents, and a character is in it
    when its lower-case code point is. *)
Definition codigo_char (c : char) : bool :=
  let lo := tolower c in
  ((48 <=? lo) && (lo <=? 57) || (97 <=? lo) && (lo <=? 122) || (lo =? 95)
   || (lo =? 305) || (lo =? 383))%N.

(** [[A-Za-z0-9/%²³]]. *)
Definition und_char (c : char) : bool :=
  ((65 <=? c) && (c <=? 90) || (97 <=? c) && (c <=? 122) || (48 <=? c) && (c <=? 57)
   || (c =? 47) || (c =? 37) || (c =? 178) || (c =? 179))%N.

Definition _RE_ITEM_START : re :=
  seq [Grp 1 ITEM_NUMBER; plus ws; Grp 2 (plus (Cls codigo_char)); plus ws;
       Grp 3 FONTE; plus ws; Grp 4 (plus any); Dollar].

Definition _RE_ITEM_COMPOSICAO_START : re :=
  seq [Grp 1 ITEM_NUMBER; plus ws; text_ci (lit "COMPOSI");
       Alt (text_ci [199%N; 195%N; 79%N]) (text_ci (lit "CAO"));
       plus ws; Grp 3 FONTE; plus ws; Grp 4 (plus any); Dollar].

Definition _RE_ITEM_TAIL : re :=
  seq [ws; Grp 1 (plus (Cls und_char)); plus ws; Grp 2 NUM; plus ws; Grp 3 NUM;
       plus ws; Grp 4 NUM; plus ws; Grp 5 NUM; star ws; Dollar].

Definition _RE_GROUP_WITH_TOTAL : re :=
  seq [Grp 1 ITEM_NUMBER; plus ws; Grp 2 (lazy_plus any); plus ws; Grp 3 NUM;
       star ws; Dollar].

Definition _RE_GROUP_NO_TOTAL : re :=
  seq [Grp 1 ITEM_NUMBER; plus ws; Grp 2 (lazy_plus any); star ws; Dollar].

Definition _RE_ONLY_NUMBER : re := seq [Grp 1 NUM; Dollar].

Definition NEW_ROW : re := Seq ITEM_NUMBER (plus ws).

Definition NEW_ROW_TEXT : re := seq [ITEM_NUMBER; plus ws; plus nonspace].

Definition matched {A : Type} (o : option A) : bool :=
  match o with Some _ => true | None => false end.

#[export] Instance patterns : Patterns := {|
  RE_ITEM_START_match := fun s =>
    match match_ _RE_ITEM_START s with
    | Some (_, c) => Some (group c 1, group c 2, group c 3, group c 4)
    | None => None
    end;
  RE_ITEM_COMPOSICAO_START_match := fun s =>
    match match_ _RE_ITEM_COMPOSICAO_START s with
    | Some (_, c) => Some (group c 1, group c 3, group c 4)
    | None => None
    end;
  RE_ITEM_TAIL_search := fun s =>
    match search _RE_ITEM_TAIL s with
    | Some (_, _, c) => Some (group c 1, group c 2, group c 3, group c 4, group c 5)
    | None => None
    end;
  RE_ITEM_TAIL_sub_empty := fun s => sub_empty (S (length s)) _RE_ITEM_TAIL s;
  RE_GROUP_WITH_TOTAL_match := fun s =>
    match match_ _RE_GROUP_WITH_TOTAL s with
    | Some (_, c) => Some (group c 1, group c 2, group c 3)
    | None => None
    end;
  RE_GROUP_NO_TOTAL_match := fun s =>
    match match_ _RE_GROUP_NO_TOTAL s with
    | Some (_, c) => Some (group c 1, group c 2)
    | None => None
    end;
  RE_ONLY_NUMBER_match := fun s =>
    match match_ _RE_ONLY_NUMBER s with
    | Some (_, c) => Some (group c 1)
    | None => None
    end;
  RE_NUM_findall := fun s => findall (S (length s)) NUM s;
  RE_NEW_ROW_match := fun s => matched (match_ NEW_ROW s);
  RE_NEW_ROW_TEXT_match := fun s => matched (match_ NEW_ROW_TEXT s)
|}.

End WithUnicode.
End Re.

(** ** app/core/pdf_text.py *)

Module PdfText.

(** [extract_pages_text]; the opened document is the list of the texts of
    its pages (an empty text stands for a page without text). *)
Definition extract_pages_text (pages : list str) (start_1based end_1based : Z)
    : outcome (list str) :=
  if ((start_1based <? 1) || (end_1based <? 1))%Z then Raises ValueError
  else
    let n := Z.of_nat (length pages) in
    if (n <? end_1based)%Z then Raises ValueError
    else Returns (map (fun idx => nth (Z.to_nat idx) pages [])
                      (py_range (start_1based - 1) end_1based)).

(** [normalize_lines]. *)
Definition normalize_lines (text : str) : list str :=
  filter truthy (map (fun raw => join [32%N] (split (strip raw))) (splitlines text)).

End PdfText.

(** ** app/bases/sinapi/parser.py *)

Module Parser.
Import Sanitizer.

(** The scalar fields of a budget node (a dict in the source); a key that
    is absent reads as the empty string, as the source's [get] calls do. *)
Record dados := mk_dados {
  tipo : str;
  item : str;
  descricao : str;
  custo_total : str;
  codigo : str;
  fonte : str;
  especificacao : str;
  und : str;
  quant : str;
  custo_unitario_sem_bdi : str;
  custo_unitario_com_bdi : str;
  custo_parcial : str
}.

Definition set_especificacao (d : dados) (e : str) : dados :=
  mk_dados (tipo d) (item d) (descricao d) (custo_total d) (codigo d) (fonte d)
           e (und d) (quant d) (custo_unitario_sem_bdi d)
           (custo_unitario_com_bdi d) (custo_parcial d).

Definition grupo (tipo item descricao custo_total : str) : dados :=
  mk_dados tipo item descricao custo_total [] [] [] [] [] [] [] [].

(** *** Building the tree: [push_node] *)

(** Nodes are shared mutable dicts: they live in a heap, and a node's
    [filhos] holds the identities of its children. *)
Record objeto := mk_objeto {
  dados_de : dados;
  filhos : list nat
}.

Definition heap := list objeto.

(** The state the main loop of [_parse_orcamento_sintetico] keeps for the
    tree.  The head of [stack] is [stack[-1]]. *)
Record build := mk_build {
  objs : heap;
  stack : list (Z * nat);
  last_item_node : option nat
}.

Definition root : objeto :=
  mk_objeto (grupo (lit "raiz") [] [] []) [].

Definition build_init : build := mk_build [root] [(0%Z, 0%nat)] None.

Fixpoint update_nth {A : Type} (n : nat) (f : A -> A) (l : list A) : list A :=
  match l, n with
  | [], _ => []
  | x :: l', O => f x :: l'
  | x :: l', S n' => x :: update_nth n' f l'
  end.

Definition filhos_of (h : heap) (p : nat) : list nat :=
  match nth_error h p with
  | Some o => filhos o
  | None => []
  end.

(** [while stack and stack[-1][0] >= level: stack.pop()]. *)
Fixpoint pop_to (level : Z) (stk : list (Z * nat)) : list (Z * nat) :=
  match stk with
  | [] => []
  | (l, n) :: rest => if (level <=? l)%Z then pop_to level rest else stk
  end.

Definition level_of (node : dados) : Z := (count_char (item node) 46%N + 1)%Z.

(** [push_node]; the new dict enters the heap here.  [None] stands for the
    IndexError of [stack[-1]] on an empty stack. *)
Definition push_node (node : dados) (st : build) : option build :=
  let level := level_of node in
  match pop_to level (stack st) with
  | [] => None
  | (pl, parent) :: rest =>
      let id := length (objs st) in
      Some (mk_build
              (update_nth parent
                 (fun o => mk_objeto (dados_de o) (filhos o ++ [id])) (objs st)
               ++ [mk_objeto node []])
              ((level, id) :: (pl, parent) :: rest)
              (if str_eqb (tipo node) (lit "item") then Some id
               else last_item_node st))
  end.

(** The continuation branch: text is appended to the [especificacao] of
    [last_item_node]. *)
Definition append_continuation (ln : str) (strip_inline_from dynamic_markers : list str)
    (st : build) : build :=
  match last_item_node st with
  | None => st
  | Some id =>
      mk_build
        (update_nth id
           (fun o =>
              mk_objeto
                (set_especificacao (dados_de o)
                   (strip (especificacao (dados_de o) ++ [32%N]
                           ++ clean_inline ln strip_inline_from dynamic_markers)))
                (filhos o))
           (objs st))
        (stack st) (last_item_node st)
  end.

(** The depth of a node in the tree: the number of [filhos] links from the
    root down to it. *)
Definition is_child (h : heap) (c p : nat) : bool :=
  existsb (Nat.eqb c) (filhos_of h p).

Definition parent_of (h : heap) (c : nat) : option nat :=
  List.find (is_child h c) (seq 0 (length h)).

Fixpoint depth_fuel (fuel : nat) (h : heap) (c : nat) : option nat :=
  match c with
  | O => Some O
  | S _ =>
      match fuel with
      | O => None
      | S f =>
          match parent_of h c with
          | Some p => option_map S (depth_fuel f h p)
          | None => None
          end
      end
  end.

Definition depth_of (h : heap) (c : nat) : option nat :=
  depth_fuel (length h) h c.

(** *** Records of the validation report *)

Inductive motivo :=
| Contaminada
| NaoParseavel
| MotivoOk
| ParcialDifere (p expected tol : float).

Inductive aviso :=
| AvisoComposicaoQuebrada (item : str)
| AvisoCustoTotalNaoNumerico (item ct_raw : str)
| AvisoGrupoSuspeito (ln : str)
| AvisoGrupoSemTotal (item : str)
| AvisoLinhaIgnorada (ln : str).

Inductive erro :=
| ErroItem (item : str) (reason : motivo)
| ErroGrupo (item : str) (child_sum ct tol : float)
| ErroGrupoSemTotal (item : str)
| ErroNenhumaLinha.

Inductive divergencia :=
| DivItem (item quant custo_unitario_com_bdi custo_parcial : str) (reason : motivo)
| DivGrupo (item custo_total : str) (soma_filhos diferenca tolerancia : float).

Record relatorio := mk_relatorio {
  avisos : list aviso;
  erros : list erro;
  divergencias : list divergencia
}.

Definition add_aviso (r : relatorio) (a : aviso) : relatorio :=
  mk_relatorio (avisos r ++ [a]) (erros r) (divergencias r).
Definition add_erro (r : relatorio) (e : erro) : relatorio :=
  mk_relatorio (avisos r) (erros r ++ [e]) (divergencias r).
Definition add_divergencia (r : relatorio) (d : divergencia) : relatorio :=
  mk_relatorio (avisos r) (erros r) (divergencias r ++ [d]).

Section WithUnicode.
Context `{Unicode}.

(** *** [_validate_item_math] *)

Definition _validate_item_math (item_node : dados) (tol_abs tol_rel : float)
    (fail_if_contaminated_text : bool) (toxic_markers dynamic_markers : list str)
    : bool * motivo :=
  let espec := especificacao item_node in
  if fail_if_contaminated_text
     && match toxic_markers with [] => false | _ => true end
     && contains_any espec toxic_markers dynamic_markers
  then (false, Contaminada)
  else
    match Money.parse_ptbr_number (quant item_node),
          Money.parse_ptbr_number (custo_unitario_com_bdi item_node),
          Money.parse_ptbr_number (custo_parcial item_node) with
    | Some q, Some u, Some p =>
        let expected := (q * u)%float in
        let tol := fmax tol_abs (abs expected * tol_rel)%float in
        if (abs (expected - p) <=? tol)%float then (true, MotivoOk)
        else (false, ParcialDifere p expected tol)
    | _, _, _ => (true, NaoParseavel)
    end.

(** *** The configuration of the budget pass *)
Record config := mk_config {
  ignore_markers : list str;
  header_markers : list str;
  break_before : list str;
  strip_inline_from : list str;
  drop_lines_if_contains : list str;
  toxic_for_continuation : list str;
  dynamic_markers : list str;
  tol_item_abs : float;
  tol_item_rel : float;
  tol_group_abs : float;
  tol_group_rel : float;
  fail_if_contaminated_text : bool;
  allow_missing_group_total : bool;
  missing_total_value : str;
  report_all_group_checks : bool
}.

(** *** The row parsers and [try_finalize_item] *)
Section Rows.
Context `{Patterns}.
Variable cfg : config.

Definition _looks_like_new_row (ln : str) : bool := RE_NEW_ROW_match ln.

Definition _GROUP_BLACKLIST : list str :=
  [lit "SINAPI"; lit "PR" ++ [211%N] ++ lit "PRIO";
   lit "COMPOSI" ++ [199%N; 195%N] ++ lit "O";
   lit "UND"; lit "QUANT"; lit "CUSTO"; lit "BDI"; lit "%"].

(** [_is_probable_group_heading]. *)
Definition _is_probable_group_heading (desc : str) : bool :=
  let up := strip (upper desc) in
  if (length up <? 3)%nat then false
  else if existsb (fun w => contains w up) _GROUP_BLACKLIST then false
  else if (2 <=? length (RE_NUM_findall desc))%nat then false
  else true.

Definition _try_parse_item_row (text : str) : option dados :=
  match RE_ITEM_START_match text with
  | None => None
  | Some (item, codigo, fonte, rest) =>
      match RE_ITEM_TAIL_search text with
      | None => None
      | Some (und, quant, s_bdi, c_bdi, parcial) =>
          let especificacao := strip (RE_ITEM_TAIL_sub_empty (strip rest)) in
          let especificacao :=
            clean_inline especificacao (strip_inline_from cfg) (dynamic_markers cfg) in
          Some (mk_dados (lit "item") (strip item) [] [] (strip codigo) (strip fonte)
                  especificacao (strip und) (strip quant) (strip s_bdi) (strip c_bdi)
                  (strip parcial))
      end
  end.

Definition _try_parse_composicao_item_row (line : str) : option dados :=
  match RE_ITEM_COMPOSICAO_START_match line with
  | None => None
  | Some (item, fonte, rest) =>
      match RE_ITEM_TAIL_search line with
      | None => None
      | Some (und, quant, s_bdi, c_bdi, parcial) =>
          let especificacao := strip (RE_ITEM_TAIL_sub_empty (strip rest)) in
          let especificacao :=
            clean_inline especificacao (strip_inline_from cfg) (dynamic_markers cfg) in
          Some (mk_dados (lit "item") (strip item) [] [] (lit "COMPOSICAO") (strip fonte)
                  especificacao (strip und) (strip quant) (strip s_bdi) (strip c_bdi)
                  (strip parcial))
      end
  end.

(** The candidate of one turn of the loop of [try_finalize_item]: the row
    parsed from the joined buffer or, failing that, from its first line
    as a COMPOSICAO row (with a warning).  The callers pass a non-empty
    [buffer_lines]. *)
Definition candidate (buffer_lines cur : list str) (r : relatorio)
    : option dados * relatorio :=
  match _try_parse_item_row (join [32%N] cur) with
  | Some p => (Some p, r)
  | None =>
      match _try_parse_composicao_item_row (hd [] buffer_lines) with
      | Some p => (Some p, add_aviso r (AvisoComposicaoQuebrada (item p)))
      | None => (None, r)
      end
  end.

Definition validate_item (p : dados) : bool * motivo :=
  _validate_item_math p (tol_item_abs cfg) (tol_item_rel cfg)
    (fail_if_contaminated_text cfg) (strip_inline_from cfg) (dynamic_markers cfg).

(** The [for extra_used in range(0, max_extra + 1)] loop of
    [try_finalize_item]; [left] is [max_extra - extra_used]. *)
Fixpoint try_finalize_loop (left : nat) (extra_used : nat)
    (buffer_lines cur lookahead_lines : list str) (r : relatorio)
    : option dados * nat * relatorio :=
  let '(parsed, r) := candidate buffer_lines cur r in
  let borrow := nth extra_used lookahead_lines [] in
  match parsed with
  | Some p =>
      let '(ok, reason) := validate_item p in
      if ok then (Some p, extra_used, r)
      else
        let r := add_divergencia r
                   (DivItem (item p) (quant p) (custo_unitario_com_bdi p)
                      (custo_parcial p) reason) in
        match left with
        | S left' =>
            if negb (_looks_like_new_row borrow)
            then try_finalize_loop left' (S extra_used) buffer_lines
                   (cur ++ [borrow]) lookahead_lines r
            else (Some p, extra_used, add_erro r (ErroItem (item p) reason))
        | O => (Some p, extra_used, add_erro r (ErroItem (item p) reason))
        end
  | None =>
      match left with
      | S left' =>
          if negb (_looks_like_new_row borrow)
          then try_finalize_loop left' (S extra_used) buffer_lines
                 (cur ++ [borrow]) lookahead_lines r
          else (None, extra_used, r)
      | O => (None, extra_used, r)
      end
  end.

Definition try_finalize_item (buffer_lines lookahead_lines : list str) (r : relatorio)
    : option dados * nat * relatorio :=
  let max_extra := Nat.min 2 (length lookahead_lines) in
  try_finalize_loop max_extra 0 buffer_lines buffer_lines lookahead_lines r.

End Rows.

(** *** [_validate_tree_math] *)

(** The finished tree, as the validator walks it. *)
Inductive arvore := Arvore (d : dados) (filhos : list arvore).

Definition dados_da (n : arvore) : dados := match n with Arvore d _ => d end.
Definition filhos_da (n : arvore) : list arvore := match n with Arvore _ f => f end.

(** [parse_ptbr_number(v) or 0.0]. *)
Definition parcial_or_zero (v : str) : float :=
  match Money.parse_ptbr_number v with
  | Some x => if (x =? 0)%float then 0%float else x
  | None => 0%float
  end.

(** What a node adds to the sum of its parent: an item its partial cost,
    a group the sum over its own children, added from the left to 0.0. *)
Fixpoint subtotal (n : arvore) : float :=
  match n with
  | Arvore d fs =>
      if str_eqb (tipo d) (lit "item") then parcial_or_zero (custo_parcial d)
      else
        (fix sum (l : list arvore) (acc : float) :=
           match l with
           | [] => acc
           | x :: l' => sum l' (acc + subtotal x)%float
           end) fs 0%float
  end.

Definition soma_filhos (nodes : list arvore) : float :=
  fold_left (fun acc n => (acc + subtotal n)%float) nodes 0%float.

Section Groups.
Variables tol_abs tol_rel : float.
Variable missing_total_value : str.
Variable report_all : bool.

(** The check of one group against the sum of its children, after the
    recursive call has returned [child_sum]. *)
Definition check_group (d : dados) (child_sum : float) (r : relatorio) : relatorio :=
  let ct_raw := strip (custo_total d) in
  if negb (truthy ct_raw) || str_eqb ct_raw missing_total_value then r
  else
    match Money.parse_ptbr_number ct_raw with
    | None => add_aviso r (AvisoCustoTotalNaoNumerico (item d) ct_raw)
    | Some ct =>
        let tol := fmax tol_abs (abs ct * tol_rel)%float in
        let diff := (child_sum - ct)%float in
        let r :=
          if report_all || (tol <? abs diff)%float
          then add_divergencia r (DivGrupo (item d) ct_raw child_sum diff tol)
          else r in
        if (tol <? abs diff)%float
        then add_erro r (ErroGrupo (item d) child_sum ct tol)
        else r
    end.

(** One turn of the [for node in nodes] loop: the node's contribution to
    [total_sum] and the report after it. *)
Fixpoint validate_node (n : arvore) (r : relatorio) : float * relatorio :=
  match n with
  | Arvore d fs =>
      if str_eqb (tipo d) (lit "item") then (parcial_or_zero (custo_parcial d), r)
      else
        let '(child_sum, r1) :=
          (fix loop (l : list arvore) (total_sum : float) (r : relatorio) :=
             match l with
             | [] => (total_sum, r)
             | x :: l' =>
                 let '(v, r') := validate_node x r in
                 loop l' (total_sum + v)%float r'
             end) fs 0%float r in
        (child_sum, check_group d child_sum r1)
  end.

Fixpoint validate_loop (nodes : list arvore) (total_sum : float) (r : relatorio)
    : float * relatorio :=
  match nodes with
  | [] => (total_sum, r)
  | x :: l' =>
      let '(v, r') := validate_node x r in
      validate_loop l' (total_sum + v)%float r'
  end.

(** [_validate_tree_math(nodes, ...)]: the sum it returns and the report
    it leaves. *)
Definition _validate_tree_math (nodes : list arvore) (r : relatorio) : float * relatorio :=
  validate_loop nodes 0%float r.

End Groups.

End WithUnicode.

(** The tree below object [id], for the validator. *)
Fixpoint reify (fuel : nat) (h : heap) (id : nat) : arvore :=
  match fuel with
  | O => Arvore (dados_de (nth id h root)) []
  | S f => Arvore (dados_de (nth id h root)) (map (reify f h) (filhos_of h id))
  end.

(** *** The limits of the run time

    Two calls at the end of [_parse_orcamento_sintetico] fail on a tree
    that is nested too deep: the recursion of [_validate_tree_math]
    leaves the interpreter's stack (RecursionError), and the response
    model [OrcamentoSintetico] of pydantic refuses the tree
    (ValidationError).  How deep is too deep depends on the interpreter,
    on what its stack holds already and on the library, not on the
    repository: the code is modelled over any such limits. *)
Class Runtime := {
  (** whether the stack lets [_validate_tree_math] run to its end on
      these nodes, with this [missing_total_value] *)
  stack_allows : str -> list arvore -> bool;
  (** whether [OrcamentoSintetico(itens_raiz=..., itens_plano=...)]
      accepts these roots *)
  model_accepts : list arvore -> bool
}.

(** *** The main loop of [_parse_orcamento_sintetico] *)
Section MainLoop.
Context `{Unicode} `{Patterns} `{Runtime}.
Variable cfg : config.

(** The lines between the first group heading and the totals. *)
Fixpoint select_lines (started : bool) (raw_lines : list str) : list str :=
  match raw_lines with
  | [] => []
  | ln :: rest =>
      if started then
        if contains (lit "TOTAL SEM BDI") ln || contains (lit "TOTAL COM BDI") ln then []
        else ln :: select_lines true rest
      else
        match RE_GROUP_WITH_TOTAL_match ln with
        | Some (_, desc, _) =>
            if _is_probable_group_heading desc then ln :: select_lines true rest
            else select_lines false rest
        | None => select_lines false rest
        end
  end.

(** The variables of the loop: [i], [buf_item], the tree with its stack
    and [last_item_node], [itens_plano], and the report. *)
Record loop := mk_loop {
  l_i : nat;
  l_buf : list str;
  l_tree : build;
  l_plano : list str;
  l_rel : relatorio
}.

Definition loop_init : loop :=
  mk_loop 0 [] build_init [] (mk_relatorio [] [] []).

Definition advance (st : loop) : loop :=
  mk_loop (S (l_i st)) (l_buf st) (l_tree st) (l_plano st) (l_rel st).

Definition then_advance (o : outcome loop) : outcome loop :=
  match o with
  | Returns st => Returns (advance st)
  | Raises e => Raises e
  end.

(** [try_finalize_item], then [buf_item = []] and, when an item came out,
    [push_node], [itens_plano.append] and [i += used]. *)
Definition finalize_buf (buf lookahead : list str) (st : loop) : outcome loop :=
  let '(parsed, used, r) := try_finalize_item cfg buf lookahead (l_rel st) in
  match parsed with
  | Some p =>
      match push_node p (l_tree st) with
      | Some t => Returns (mk_loop (l_i st + used) [] t (l_plano st ++ [item p]) r)
      | None => Raises IndexError
      end
  | None => Returns (mk_loop (l_i st) [] (l_tree st) (l_plano st) r)
  end.

Definition tipo_of (item : str) : str :=
  if contains [46%N] item then lit "submeta" else lit "meta".

Definition push_group (item desc total : str) (st : loop) : outcome loop :=
  match push_node (grupo (tipo_of item) item desc (strip total)) (l_tree st) with
  | Some t => Returns (mk_loop (l_i st) (l_buf st) t (l_plano st) (l_rel st))
  | None => Raises IndexError
  end.

Definition with_rel (st : loop) (r : relatorio) : loop :=
  mk_loop (l_i st) (l_buf st) (l_tree st) (l_plano st) r.

Definition can_continue (ln : str) (st : loop) : bool :=
  match last_item_node (l_tree st) with
  | Some _ =>
      is_safe_continuation [] ln (toxic_for_continuation cfg) (dynamic_markers cfg)
  | None => false
  end.

Definition continue_item (ln : str) (st : loop) : loop :=
  mk_loop (l_i st) (l_buf st)
    (append_continuation ln (strip_inline_from cfg) (dynamic_markers cfg) (l_tree st))
    (l_plano st) (l_rel st).

(** The last two branches: a continuation of the last item, or noise. *)
Definition continuation_or_noise (ln : str) (st : loop) : outcome loop :=
  if can_continue ln st then Returns (advance (continue_item ln st))
  else Returns (advance (with_rel st (add_aviso (l_rel st) (AvisoLinhaIgnorada (firstn 180 ln))))).

(** A heading without a total: the next line may hold it. *)
Definition group_no_total (lines : list str) (item desc : str) (st : loop) : outcome loop :=
  let i := l_i st in
  let '(total, st) :=
    if (S i <? length lines)%nat then
      match RE_ONLY_NUMBER_match (nth (S i) lines []) with
      | Some num => (strip num, advance st)
      | None => ([], st)
      end
    else ([], st) in
  let '(total, st) :=
    if negb (truthy total) then
      (missing_total_value cfg,
       with_rel st
         (if allow_missing_group_total cfg
          then add_aviso (l_rel st) (AvisoGrupoSemTotal item)
          else add_erro (l_rel st) (ErroGrupoSemTotal item)))
    else (total, st) in
  then_advance (push_group item desc total st).

(** One turn of [while i < len(lines)]. *)
Definition step (lines : list str) (st : loop) : outcome loop :=
  let i := l_i st in
  let ln := nth i lines [] in
  match l_buf st with
  | _ :: _ =>
      if _looks_like_new_row ln
      then finalize_buf (l_buf st) (firstn 3 (skipn i lines)) st
      else
        let buf := l_buf st ++ [ln] in
        match RE_ITEM_TAIL_search (join [32%N] buf) with
        | Some _ => then_advance (finalize_buf buf (firstn 2 (skipn (S i) lines)) st)
        | None => Returns (advance (mk_loop i buf (l_tree st) (l_plano st) (l_rel st)))
        end
  | [] =>
      if match RE_ITEM_START_match ln with Some _ => true | None => false end
         || match RE_ITEM_COMPOSICAO_START_match ln with Some _ => true | None => false end
      then
        match RE_ITEM_TAIL_search ln with
        | Some _ => then_advance (finalize_buf [ln] (firstn 2 (skipn (S i) lines)) st)
        | None => Returns (advance (mk_loop i [ln] (l_tree st) (l_plano st) (l_rel st)))
        end
      else
        match RE_GROUP_WITH_TOTAL_match ln with
        | Some (item, desc, total) =>
            let item := strip item in
            let desc := strip desc in
            let total := strip total in
            if negb (_is_probable_group_heading desc) then
              if can_continue ln st then Returns (advance (continue_item ln st))
              else
                then_advance
                  (push_group item desc total
                     (with_rel st
                        (add_aviso (l_rel st) (AvisoGrupoSuspeito (firstn 180 ln)))))
            else then_advance (push_group item desc total st)
        | None =>
            match RE_GROUP_NO_TOTAL_match ln with
            | Some (item, desc) =>
                if _is_probable_group_heading desc
                then group_no_total lines (strip item) (strip desc) st
                else continuation_or_noise ln st
            | None => continuation_or_noise ln st
            end
        end
  end.

(** The loop, for at most [turns] turns. *)
Fixpoint main_loop (turns : nat) (lines : list str) (st : loop) : outcome loop :=
  match turns with
  | O => Returns st
  | S n =>
      if (l_i st <? length lines)%nat then
        match step lines st with
        | Returns st' => main_loop n lines st'
        | Raises e => Raises e
        end
      else Returns st
  end.

(** After the loop, a buffer that is still open is finalized. *)
Definition flush (st : loop) : outcome loop :=
  match l_buf st with
  | [] => Returns st
  | _ =>
      match finalize_buf (l_buf st) [] st with
      | Returns st' => Returns (mk_loop (l_i st) [] (l_tree st') (l_plano st') (l_rel st'))
      | Raises e => Raises e
      end
  end.

(** The lines of one page that the first loop keeps. *)
Definition skipped (ln : str) : bool :=
  existsb (fun m => contains m ln) (ignore_markers cfg)
  || existsb (str_eqb ln) (header_markers cfg)
  || startswith ln (lit "CUSTO UNIT" ++ [193%N] ++ lit "RIO")
  || startswith ln (lit "ITEM C" ++ [211%N] ++ lit "DIGO")
  || startswith ln (lit "S/").

Definition page_lines (page_text : str) : list str :=
  let fixed := break_glued_markers page_text (break_before cfg) (dynamic_markers cfg) in
  filter (fun ln => negb (skipped ln)) (PdfText.normalize_lines fixed).

(** The end of the pass: [_validate_tree_math] on the roots, then the
    response model.  The recursion may leave the stack, and the model may
    refuse the tree. *)
Definition validate_and_build (roots : list arvore) (itens_plano : list str)
    (r : relatorio) : outcome (list arvore * list str * relatorio) :=
  if negb (stack_allows (missing_total_value cfg) roots) then Raises RecursionError
  else
    let '(_, r) :=
      _validate_tree_math (tol_group_abs cfg) (tol_group_rel cfg)
        (missing_total_value cfg) (report_all_group_checks cfg) roots r in
    if negb (model_accepts roots) then Raises ValidationError
    else Returns (roots, itens_plano, r).

(** [_parse_orcamento_sintetico]: the roots of the tree, [itens_plano] and
    the report.  [dynamic_markers] is what [_build_dynamic_markers] made
    of the context.  Every turn of the main loop either moves [i] forward
    or empties a non-empty buffer, so [2 * len(lines) + 1] turns are
    enough. *)
Definition _parse_orcamento_sintetico (pages_text : list str)
    : outcome (list arvore * list str * relatorio) :=
  let raw_lines := flat_map page_lines pages_text in
  let raw_lines :=
    sanitize_lines raw_lines (drop_lines_if_contains cfg) (strip_inline_from cfg)
      (dynamic_markers cfg) in
  let lines := select_lines false raw_lines in
  match lines with
  | [] => Returns ([], [], mk_relatorio [] [ErroNenhumaLinha] [])
  | _ =>
      match main_loop (2 * length lines + 1) lines loop_init with
      | Raises e => Raises e
      | Returns st =>
          match flush st with
          | Raises e => Raises e
          | Returns st =>
              let h := objs (l_tree st) in
              let roots := map (reify (length h) h) (filhos_of h 0) in
              validate_and_build roots (l_plano st) (l_rel st)
          end
      end
  end.

End MainLoop.

End Parser.

(** ** difflib.SequenceMatcher, for short texts without junk *)

Module Difflib.

Fixpoint common_prefix_len (a b : str) : nat :=
  match a, b with
  | x :: a', y :: b' => if char_eqb x y then S (common_prefix_len a' b') else O
  | _, _ => O
  end.

(** The longest block [a[i:i+k] == b[j:j+k]]; among the longest, the one
    that starts earliest in [a], then earliest in [b]. *)
Fixpoint scan_b (asuf b : str) (i j : nat) (best : nat * nat * nat) : nat * nat * nat :=
  match b with
  | [] => best
  | _ :: b' =>
      let k := common_prefix_len asuf b in
      scan_b asuf b' i (S j) (if (snd best <? k)%nat then (i, j, k) else best)
  end.

Fixpoint scan_a (a b : str) (i : nat) (best : nat * nat * nat) : nat * nat * nat :=
  match a with
  | [] => best
  | _ :: a' => scan_a a' b (S i) (scan_b a b i 0 best)
  end.

Definition find_longest_match (a b : str) : nat * nat * nat :=
  scan_a a b 0%nat (0%nat, 0%nat, 0%nat).

(** The total size of the matching blocks. *)
Fixpoint matches (fuel : nat) (a b : str) : nat :=
  match fuel with
  | O => O
  | S f =>
      let '(i, j, k) := find_longest_match a b in
      if (k =? 0)%nat then O
      else (k + matches f (firstn i a) (firstn j b)
            + matches f (skipn (i + k) a) (skipn (j + k) b))%nat
  end.

Definition float_of_nat (n : nat) : float :=
  PrimFloat.of_uint63 (Uint63.of_Z (Z.of_nat n)).

(** [SequenceMatcher(None, a, b).ratio()]. *)
Definition ratio (a b : str) : float :=
  let len := (length a + length b)%nat in
  if (len =? 0)%nat then 1%float
  else (2 * float_of_nat (matches (S (length a)) a b) / float_of_nat len)%float.

End Difflib.

(** ** app/bases/sinapi/composicoes_parser.py *)

Module Composicoes.

(** A table cell: [None] or its text. *)
Definition cell := option str.

Record LinhaComposicao := mk_linha {
  codigo : str;
  banco : str;
  descricao : str;
  tipo : str;
  und : str;
  quant : option float;
  valor_unit : option float;
  total : option float;
  banco_coluna : str
}.

Record BlocoComposicao := mk_bloco {
  item : str;
  principal : LinhaComposicao;
  composicoes_auxiliares : list LinhaComposicao;
  insumos : list LinhaComposicao
}.

Record Composicoes := mk_composicoes {
  principais : @dict BlocoComposicao;
  auxiliares_globais : @dict LinhaComposicao;
  aliases_auxiliares : @dict str
}.

Inductive row_type := Insumo | Composicao | ComposicaoAuxiliar.

Inductive aviso :=
| AvisoRangeSuspeito (start_1based end_1based : Z)
| AvisoCodigoRecuperado (codigo recovered banco : str)
| AvisoProcessadas (first last : Z) (n_principais n_auxiliares n_aliases : nat).

(** [limpar]. *)
Definition limpar (x : cell) : str :=
  match x with
  | None => []
  | Some s => strip (replace s [13%N] [10%N])
  end.

(** [colapsar_espacos]. *)
Definition colapsar_espacos (s : str) : str :=
  strip (sub_ws1 false (replace s [10%N] [32%N])).

(** [_RE_ITEM.match(s)]: [^\d+(?:\.\d+)*$]. *)
Section ItemNumber.
Context `{Unicode}.

Fixpoint item_number_from (indigits : bool) (s : str) : bool :=
  match s with
  | [] => indigits
  | c :: r =>
      if Money.is_digit c then item_number_from true r
      else if indigits then
        if (c =? 46)%N then
          match r with
          | d :: _ => Money.is_digit d && item_number_from false r
          | [] => false
          end
        else str_eqb s [10%N]
      else false
  end.

Definition _RE_ITEM_match (s : str) : bool := item_number_from false s.

End ItemNumber.

Section WithUnicode.
Context `{Unicode}.

(** [_strip_accents_upper]. *)
Definition _strip_accents_upper (s : str) : str :=
  let s := colapsar_espacos s in
  if negb (truthy s) then []
  else upper (filter (fun c => (combining c =? 0)%Z) (nfkd s)).

Definition _norm_code (s : str) : str := replace (_strip_accents_upper s) [32%N] [].

Definition _norm_bank (s : str) : str := replace (_strip_accents_upper s) [32%N] [].

(** [_prefix_match(a, b, max_missing=..., min_len=...)]. *)
Definition _prefix_match (a b : str) (max_missing min_len : Z) : bool :=
  let a := _norm_code a in
  let b := _norm_code b in
  let la := Z.of_nat (length a) in
  let lb := Z.of_nat (length b) in
  if negb (truthy a) || negb (truthy b) then false
  else if (Z.min la lb <? min_len)%Z then false
  else if (max_missing <? Z.abs (la - lb))%Z then false
  else startswith a b || startswith b a.

(** [parse_pt_number]. *)
Definition parse_pt_number (s : str) : option float :=
  let s := colapsar_espacos s in
  if negb (truthy s) then None
  else PyFloat.py_float (replace (replace s [46%N] []) [44%N] [46%N]).

(** [split_codigo_banco_embutido]. *)
Definition split_codigo_banco_embutido (codigo_raw : str) : str * str :=
  let codigo_raw := colapsar_espacos codigo_raw in
  if negb (contains [47%N] codigo_raw) then (codigo_raw, [])
  else let '(a, b) := split1 codigo_raw 47%N in (strip a, colapsar_espacos b).

(** [to_pdf_index]. *)
Definition to_pdf_index (page_num : Z) (page_indexing : str) : Z :=
  if startswith (lower page_indexing) (lit "1") then (page_num - 1)%Z else page_num.

(** [row_get]. *)
Definition row_get (row : list cell) (idx : nat) : str :=
  match nth_error row idx with
  | None => []
  | Some c => limpar c
  end.

(** [normalize_row]. *)
Definition normalize_row (row : list cell) : list cell :=
  match row with
  | r0 :: r1 :: rest =>
      let c0 := lower (colapsar_espacos (limpar r0)) in
      let c1 := lower (colapsar_espacos (limpar r1)) in
      if startswith c0 (lit "compos")
         && (str_eqb c1 (lit "o") || startswith c1 (lit "o aux"))
      then Some (limpar r0 ++ [32%N] ++ limpar r1) :: rest
      else row
  | _ => row
  end.

Definition starts_cod (c1 : str) : bool :=
  startswith c1 [99%N; 243%N; 100%N] || startswith c1 (lit "cod").

(** [is_item_header_row]. *)
Definition is_item_header_row (row : list cell) : bool :=
  match row with
  | r0 :: r1 :: _ =>
      let c0 := colapsar_espacos (limpar r0) in
      let c1 := lower (colapsar_espacos (limpar r1)) in
      _RE_ITEM_match c0 && starts_cod c1
  | _ => false
  end.

(** [is_column_header_only]. *)
Definition is_column_header_only (row : list cell) : bool :=
  match row with
  | r0 :: r1 :: _ =>
      let c0 := colapsar_espacos (limpar r0) in
      let c1 := lower (colapsar_espacos (limpar r1)) in
      negb (truthy c0) && starts_cod c1
  | _ => false
  end.

(** [re.sub(r"^o(?=compos|insumo)", "", c0)]. *)
Definition drop_glued_o (c0 : str) : str :=
  match c0 with
  | 111%N :: r => if startswith r (lit "compos") || startswith r (lit "insumo") then r else c0
  | _ => c0
  end.

(** The class [a-zà-úç]. *)
Definition is_letter (c : char) : bool :=
  ((97 <=? c) && (c <=? 122) || (224 <=? c) && (c <=? 250) || (c =? 231))%N.

Definition aux_or_comp (c0 letters : str) : row_type :=
  if contains (lit "auxiliar") c0 || contains (lit "auxiliar") letters
  then ComposicaoAuxiliar else Composicao.

(** [detect_row_type]. *)
Definition detect_row_type (c0_raw : str) : option row_type :=
  let c0 := lower (colapsar_espacos c0_raw) in
  if negb (truthy c0) then None
  else
    let c0 := strip (drop_glued_o c0) in
    let letters := filter is_letter c0 in
    let letters := lower (_strip_accents_upper letters) in
    if contains (lit "insumo") (firstn 12 letters) || startswith letters (lit "insu")
    then Some Insumo
    else if contains (lit "compos") (firstn 14 letters) || startswith letters (lit "comp")
    then Some (aux_or_comp c0 letters)
    else
      let head := firstn 10 letters in
      if (0.6 <=? Difflib.ratio (firstn 6 head) (lit "insumo"))%float then Some Insumo
      else if (0.6 <=? Difflib.ratio (firstn 9 head) (lit "composicao"))%float
      then Some (aux_or_comp c0 letters)
      else None.

(** [build_entry_from_row]; the entry is given as the line it becomes. *)
Definition build_entry_from_row (row : list cell) (rtype : row_type) : LinhaComposicao :=
  let codigo_raw := row_get row 1 in
  let banco_col := colapsar_espacos (row_get row 2) in
  let '(codigo, banco_embutido) :=
    match rtype with
    | Insumo =>
        let '(codigo_split, banco_split) := split_codigo_banco_embutido codigo_raw in
        if truthy banco_split then (codigo_split, banco_split)
        else (colapsar_espacos codigo_raw, [])
    | _ => (colapsar_espacos codigo_raw, [])
    end in
  let banco_final := if truthy banco_embutido then banco_embutido else banco_col in
  mk_linha codigo banco_final
    (colapsar_espacos (row_get row 3))
    (colapsar_espacos (row_get row 4))
    (colapsar_espacos (row_get row 5))
    (parse_pt_number (row_get row 6))
    (parse_pt_number (row_get row 7))
    (parse_pt_number (row_get row 8))
    banco_col.

Definition set_codigo (l : LinhaComposicao) (c : str) : LinhaComposicao :=
  mk_linha c (banco l) (descricao l) (tipo l) (und l) (quant l) (valor_unit l)
           (total l) (banco_coluna l).

(** [_make_id], [_make_id_norm], [_split_id]. *)
Definition _make_id (codigo banco : str) : str :=
  colapsar_espacos codigo ++ [124%N] ++ colapsar_espacos banco.

Definition _make_id_norm (codigo banco : str) : str :=
  _norm_code codigo ++ [124%N] ++ _norm_bank banco.

Definition _split_id (raw_id : str) : str * str :=
  let raw_id := colapsar_espacos raw_id in
  if negb (contains [124%N] raw_id) then (raw_id, [])
  else let '(c, b) := split1 raw_id 124%N in (strip c, strip b).

(** *** [_choose_best_prefix_candidate] *)

(** The order of Python on [str] and on the tuples [(int, int, str)]. *)
Fixpoint str_leb (a b : str) : bool :=
  match a, b with
  | [], _ => true
  | _ :: _, [] => false
  | x :: a', y :: b' => (x <? y)%N || ((x =? y)%N && str_leb a' b')
  end.

Definition scored := (Z * Z * str)%type.

Definition scored_leb (a b : scored) : bool :=
  let '(a1, a2, a3) := a in
  let '(b1, b2, b3) := b in
  (a1 <? b1)%Z
  || ((a1 =? b1)%Z && ((a2 <? b2)%Z || ((a2 =? b2)%Z && str_leb a3 b3))).

Fixpoint insert_scored (x : scored) (l : list scored) : list scored :=
  match l with
  | [] => [x]
  | y :: l' => if scored_leb x y then x :: l else y :: insert_scored x l'
  end.

(** [scored.sort()]. *)
Definition sort_scored (l : list scored) : list scored :=
  fold_right insert_scored [] l.

Definition score (expn : str) (cand : str) : scored :=
  let cn := _norm_code cand in
  let le := Z.of_nat (length expn) in
  let lc := Z.of_nat (length cn) in
  (Z.abs (le - lc), - Z.max le lc, cand)%Z.

Definition same_score (a b : scored) : bool :=
  let '(a1, a2, _) := a in
  let '(b1, b2, _) := b in
  (a1 =? b1)%Z && (a2 =? b2)%Z.

Definition _choose_best_prefix_candidate (expected_code : str) (candidates : list str)
    : option str :=
  match candidates with
  | [] => None
  | _ =>
      let expn := _norm_code expected_code in
      match sort_scored (map (score expn) candidates) with
      | [] => None
      | best :: rest =>
          match rest with
          | second :: _ =>
              if same_score second best then None else Some (snd best)
          | [] => Some (snd best)
          end
      end
  end.

(** *** [parse_composicoes_sinapi] *)

(** The page range that is read. *)
Definition page_range (page_indexing : str) (n_pages start_1based end_1based : Z)
    : list aviso * Z * Z :=
  let suspect :=
    startswith (lower page_indexing) (lit "1")
    && ((start_1based <=? 0) || (end_1based <=? 0))%Z in
  let avisos := if suspect then [AvisoRangeSuspeito start_1based end_1based] else [] in
  let start_idx := if suspect then start_1based else to_pdf_index start_1based page_indexing in
  let end_idx := if suspect then end_1based else to_pdf_index end_1based page_indexing in
  let start_idx := Z.max 0 (Z.min start_idx (n_pages - 1)) in
  let end_idx := Z.max 0 (Z.min end_idx (n_pages - 1)) in
  if (end_idx <? start_idx)%Z then (avisos, end_idx, start_idx)
  else (avisos, start_idx, end_idx).

(** An expected reference of the budget: [{"item": ..., "ref_id": ...}]. *)
Record item_ref := mk_ref { ref_item : str; ref_id : str }.

Record expected := mk_expected { e_code : str; e_rid : str; e_item : str }.

Definition setdefault_append {A : Type} (d : @dict (list A)) (k : str) (x : A)
    : @dict (list A) :=
  match dict_get d k with
  | Some l => dict_set d k (l ++ [x])
  | None => dict_set d k [x]
  end.

(** The index built from [item_refs]: [expected_by_bank] and [id_to_item]. *)
Definition index_step (acc : @dict (list expected) * @dict str) (r : item_ref)
    : @dict (list expected) * @dict str :=
  let '(expected_by_bank, id_to_item) := acc in
  let rid := strip (ref_id r) in
  let it := strip (ref_item r) in
  if negb (truthy rid) || negb (contains [124%N] rid) then acc
  else
    let '(c, b) := _split_id rid in
    let bn := _norm_bank b in
    (setdefault_append expected_by_bank bn (mk_expected c rid it),
     if truthy it then dict_set id_to_item (_make_id_norm c b) it else id_to_item).

Definition index_refs (item_refs : list item_ref) : @dict (list expected) * @dict str :=
  fold_left index_step item_refs ([], []).

Definition get_or_nil {A : Type} (d : @dict (list A)) (k : str) : list A :=
  match dict_get d k with
  | Some l => l
  | None => []
  end.

(** [recover_full_code]. *)
Definition recover_full_code (expected_by_bank : @dict (list expected))
    (code_raw bank_raw : str) : option str :=
  let bn := _norm_bank bank_raw in
  match get_or_nil expected_by_bank bn with
  | [] => None
  | exp =>
      let candidates :=
        map e_code (filter (fun e => _prefix_match (e_code e) code_raw 4 5) exp) in
      _choose_best_prefix_candidate code_raw candidates
  end.

(** The state of the loop over the rows. *)
Record estado := mk_estado {
  st_principais : @dict BlocoComposicao;
  st_auxiliares_globais : @dict LinhaComposicao;
  st_current_item : str;
  st_current_bloco : option BlocoComposicao;
  st_recovered_codes : @dict str;
  st_avisos : list aviso
}.

(** [principais[pid] = current_bloco], when a block is open. *)
Definition store_current (st : estado) : @dict BlocoComposicao :=
  match st_current_bloco st with
  | None => st_principais st
  | Some b =>
      dict_set (st_principais st)
        (_make_id (codigo (principal b)) (banco (principal b))) b
  end.

Definition all_blank (raw_row : list cell) : bool :=
  forallb (fun c => match c with
                    | None => true
                    | Some _ => negb (truthy (colapsar_espacos (limpar c)))
                    end) raw_row.

Section Rows.
Variable expected_by_bank : @dict (list expected).
Variable id_to_item : @dict str.

(** A composition row: the open block is stored, a truncated code is
    recovered, and a new block is opened. *)
Definition composicao_row (entry : LinhaComposicao) (st : estado) : estado :=
  let principais := store_current st in
  let recovered_full := recover_full_code expected_by_bank (codigo entry) (banco entry) in
  let recovers :=
    match recovered_full with
    | Some full =>
        truthy full && negb (str_eqb (_norm_code full) (_norm_code (codigo entry)))
    | None => false
    end in
  let key := _make_id (codigo entry) (banco entry) in
  let fresh := recovers && negb (dict_mem (st_recovered_codes st) key) in
  let full := match recovered_full with Some f => f | None => [] end in
  let recovered_codes :=
    if fresh then dict_set (st_recovered_codes st) key full else st_recovered_codes st in
  let avisos :=
    if fresh
    then st_avisos st ++ [AvisoCodigoRecuperado (codigo entry) full (banco entry)]
    else st_avisos st in
  let entry := if recovers then set_codigo entry full else entry in
  let pid_norm := _make_id_norm (codigo entry) (banco entry) in
  let item_final :=
    if truthy (st_current_item st) then st_current_item st
    else match dict_get id_to_item pid_norm with Some it => it | None => [] end in
  mk_estado principais (st_auxiliares_globais st) (st_current_item st)
    (Some (mk_bloco item_final entry [] []))
    recovered_codes avisos.

(** An auxiliary or input row. *)
Definition member_row (rtype : row_type) (entry : LinhaComposicao) (st : estado) : estado :=
  match st_current_bloco st with
  | None => st
  | Some b =>
      match rtype with
      | ComposicaoAuxiliar =>
          mk_estado (st_principais st)
            (dict_set (st_auxiliares_globais st)
               (_make_id (codigo entry) (banco entry)) entry)
            (st_current_item st)
            (Some (mk_bloco (item b) (principal b)
                     (composicoes_auxiliares b ++ [entry]) (insumos b)))
            (st_recovered_codes st) (st_avisos st)
      | Insumo =>
          mk_estado (st_principais st) (st_auxiliares_globais st)
            (st_current_item st)
            (Some (mk_bloco (item b) (principal b)
                     (composicoes_auxiliares b) (insumos b ++ [entry])))
            (st_recovered_codes st) (st_avisos st)
      | Composicao => st
      end
  end.

(** The body of [for raw_row in tb]. *)
Definition process_row (st : estado) (raw_row : list cell) : estado :=
  match raw_row with
  | [] => st
  | _ =>
      if all_blank raw_row then st
      else
        let row := normalize_row raw_row in
        if is_item_header_row row then
          mk_estado (store_current st) (st_auxiliares_globais st)
            (colapsar_espacos (row_get row 0)) None
            (st_recovered_codes st) (st_avisos st)
        else if is_column_header_only row then st
        else
          let c0 := row_get row 0 in
          if contains (lit "ANEXO 3") (upper (colapsar_espacos c0)) then st
          else
            match detect_row_type c0 with
            | None => st
            | Some Composicao => composicao_row (build_entry_from_row row Composicao) st
            | Some rtype => member_row rtype (build_entry_from_row row rtype) st
            end
  end.

Definition process_rows (st : estado) (rows : list (list cell)) : estado :=
  fold_left process_row rows st.

End Rows.

(** The aliases of the auxiliaries. *)
Definition by_bank_step (acc : @dict (list str)) (rid : str) : @dict (list str) :=
  let '(c, b) := _split_id rid in
  setdefault_append acc (_norm_bank b) c.

Definition principais_by_bank (principais : @dict BlocoComposicao) : @dict (list str) :=
  fold_left by_bank_step (dict_keys principais) [].

Definition alias_candidates (by_bank : @dict (list str)) (aux : LinhaComposicao) : list str :=
  filter (fun pc => _prefix_match pc (codigo aux) 1 5)
         (get_or_nil by_bank (_norm_bank (banco aux))).

Definition alias_step (principais : @dict BlocoComposicao) (by_bank : @dict (list str))
    (aliases_aux : @dict str) (kv : str * LinhaComposicao) : @dict str :=
  let '(aux_id, aux) := kv in
  if dict_mem principais aux_id then aliases_aux
  else
    match _choose_best_prefix_candidate (codigo aux) (alias_candidates by_bank aux) with
    | Some best =>
        if truthy best then dict_set aliases_aux aux_id (best ++ [124%N] ++ banco aux)
        else aliases_aux
    | None => aliases_aux
    end.

Definition build_aliases (principais : @dict BlocoComposicao)
    (auxiliares_globais : @dict LinhaComposicao) : @dict str :=
  fold_left (alias_step principais (principais_by_bank principais)) auxiliares_globais [].

(** A page is the list of its tables (as [extract_tables] gives them, with
    the text strategy as the fallback); a table is a list of rows. *)
Definition page := list (list (list cell)).

Definition rows_of_pages (pages : list page) : list (list cell) :=
  concat (concat pages).

(** [parse_composicoes_sinapi], on an opened document: the composition
    set and the warnings.  The comparison with the budget that follows
    (missing and extra items) is not modelled.  [pdf.pages[pi]] raises on a
    document without pages. *)
Definition parse_composicoes_sinapi (pdf_pages : list page)
    (start_1based end_1based : Z) (page_indexing : str) (item_refs : list item_ref)
    : outcome (Composicoes * list aviso) :=
  let n_pages := Z.of_nat (length pdf_pages) in
  let '(avisos0, start_idx, end_idx) :=
    page_range page_indexing n_pages start_1based end_1based in
  if (n_pages =? 0)%Z then Raises IndexError
  else
    let pages :=
      map (fun pi => nth (Z.to_nat pi) pdf_pages []) (py_range start_idx (end_idx + 1)) in
    let '(expected_by_bank, id_to_item) := index_refs item_refs in
    let st0 := mk_estado [] [] [] None [] avisos0 in
    let st := process_rows expected_by_bank id_to_item st0 (rows_of_pages pages) in
    let principais := store_current st in
    let auxiliares_globais := st_auxiliares_globais st in
    let aliases_aux := build_aliases principais auxiliares_globais in
    Returns
      (mk_composicoes principais auxiliares_globais aliases_aux,
       st_avisos st
       ++ [AvisoProcessadas (start_idx + 1) (end_idx + 1) (length principais)
             (length auxiliares_globais) (length aliases_aux)]).

(** *** The page ranges in [parse_sinapi] (app/bases/sinapi/parser.py)

    [parse_sinapi] reads the budget pages with [extract_pages_text] and
    hands the composition range to [parse_composicoes_sinapi]; a range
    that is not [1 <= start <= end] is not processed. *)
Inductive range_aviso :=
| OrcamentoIntervaloInvalido
| ComposicoesNaoProcessadas
| DoExtrator (a : aviso).

Definition range_ok (ini fim : Z) : bool :=
  (negb (ini =? 0) && negb (fim =? 0) && (1 <=? ini) && (ini <=? fim))%Z.

(** The pages read for the budget ([None]: not processed), the page
    indices read for the compositions ([None]: not processed), and the
    warnings about the ranges. *)
Definition parse_sinapi_ranges (page_indexing : str) (pages_text : list str)
    (o_ini o_fim c_ini c_fim : Z)
    : outcome (option (list str) * option (Z * Z) * list range_aviso) :=
  let orc :=
    if range_ok o_ini o_fim
    then match PdfText.extract_pages_text pages_text o_ini o_fim with
         | Returns t => Returns (Some t, [])
         | Raises e => Raises e
         end
    else Returns (None, [OrcamentoIntervaloInvalido]) in
  match orc with
  | Raises e => Raises e
  | Returns (texts, avisos) =>
      if negb (range_ok c_ini c_fim)
      then Returns (texts, None, avisos ++ [ComposicoesNaoProcessadas])
      else
        let n_pages := Z.of_nat (length pages_text) in
        if (n_pages =? 0)%Z then Raises IndexError
        else
          let '(av, start_idx, end_idx) := page_range page_indexing n_pages c_ini c_fim in
          Returns (texts, Some (start_idx, end_idx), avisos ++ map DoExtrator av)
  end.

End WithUnicode.
End Composicoes.

(** ** The references of the budget and the comparison with the
    compositions (app/bases/sinapi/parser.py, composicoes_parser.py)

    [_collect_item_refs] reads the references from the budget tree;
    [conferir] is the comparison that ends [parse_composicoes_sinapi],
    on the [principais] that [Composicoes.parse_composicoes_sinapi]
    gives. *)
Module Conferencia.
Import Composicoes.

(** [str.isdigit] reads the Numeric_Type of the Unicode database: the
    characters that are digits are a parameter. *)
Class Digits := { isdigit_char : char -> bool }.

Section WithUnicode.
Context `{Unicode} `{Digits}.

(** [s.isdigit()]. *)
Definition isdigit (s : str) : bool := truthy s && forallb isdigit_char s.

(** [_is_probably_insumo_codigo(codigo, banco)]: the second definition of
    parser.py, the one that is bound when [_collect_item_refs] runs. *)
Definition _is_probably_insumo_codigo (codigo banco : str) : bool :=
  let c := strip codigo in
  let b := upper (strip banco) in
  str_eqb b (lit "SINAPI") && isdigit c && startswith c (lit "0000").

(** What [walk] of [_collect_item_refs] appends for one node. *)
Definition ref_of (n : Parser.dados) : list item_ref :=
  let tipo := lower (strip (Parser.tipo n)) in
  if str_eqb tipo (lit "item") then
    let item := strip (Parser.item n) in
    let codigo := strip (Parser.codigo n) in
    let banco := strip (Parser.fonte n) in
    if truthy item && truthy codigo && truthy banco then
      if negb (str_eqb (upper (strip codigo)) (lit "COMPOSICAO"))
         && negb (_is_probably_insumo_codigo codigo banco)
      then [mk_ref item (codigo ++ [124%N] ++ banco)]
      else []
    else []
  else [].

(** [walk]: the node, then its children. *)
Fixpoint walk (n : Parser.arvore) : list item_ref :=
  match n with
  | Parser.Arvore d fs => ref_of d ++ flat_map walk fs
  end.

(** [_collect_item_refs]. *)
Definition _collect_item_refs (itens_raiz : list Parser.arvore) : list item_ref :=
  flat_map walk itens_raiz.

(** [_close]. *)
Definition _close (a b : option float) (abs_tol rel_tol : float) : bool :=
  match a, b with
  | Some a, Some b => (abs (a - b) <=? fmax abs_tol (abs a * rel_tol))%float
  | _, _ => true
  end.

(** An entry of [expected_norm].  The references of the budget carry no
    [sem_bdi] and no [com_bdi]: both are [None]. *)
Record esperado := mk_esperado { x_rid : str; x_code : str; x_bank : str }.

Inductive aviso_validacao :=
| MatchPorTruncamento (rid best_code bank : str).

(** One turn of the loop that fills [expected_norm]. *)
Definition expected_step (expected_norm : @dict esperado) (r : item_ref) : @dict esperado :=
  let rid := strip (ref_id r) in
  if negb (truthy rid) || negb (contains [124%N] rid) then expected_norm
  else
    let '(c, b) := _split_id rid in
    if str_eqb (_norm_code c) (lit "COMPOSICAO") then expected_norm
    else if str_eqb (strip (upper b)) (lit "SINAPI") && isdigit c
            && startswith c (lit "0000")
    then expected_norm
    else dict_set expected_norm (_make_id_norm c b) (mk_esperado rid c b).

Definition expected_norm_of (item_refs : list item_ref) : @dict esperado :=
  fold_left expected_step item_refs [].

(** [(c, b, rid, n)] for every key of [comp.principais]. *)
Definition detected_pair (rid : str) : str * str * str * str :=
  let '(c, b) := _split_id rid in (c, b, rid, _make_id_norm c b).

Definition detected_pairs (principais : @dict BlocoComposicao) : list (str * str * str * str) :=
  map detected_pair (dict_keys principais).

(** [detected_by_bank]; [comp.principais[rid]] over the keys in their
    order reads the entries of the dictionary. *)
Definition detected_step (acc : @dict (list (str * BlocoComposicao)))
    (kv : str * BlocoComposicao) : @dict (list (str * BlocoComposicao)) :=
  let '(rid, bloco) := kv in
  let '(c, b) := _split_id rid in
  setdefault_append acc (_norm_bank b) (c, bloco).

Definition detected_by_bank (principais : @dict BlocoComposicao)
    : @dict (list (str * BlocoComposicao)) :=
  fold_left detected_step principais [].

(** [best_code] for an expected entry that was not detected as it is. *)
Definition best_detected (by_bank : @dict (list (str * BlocoComposicao))) (e : esperado)
    : option str :=
  let det_list := get_or_nil by_bank (_norm_bank (x_bank e)) in
  let candidates := filter (fun cb => _prefix_match (x_code e) (fst cb) 4 5) det_list in
  match candidates with
  | [] => None
  | [cb] => Some (fst cb)
  | _ =>
      let filtered :=
        map fst
          (filter (fun cb => _close None (valor_unit (principal (snd cb))) 0.02 0.002)
             candidates) in
      _choose_best_prefix_candidate (x_code e)
        (match filtered with [] => map fst candidates | _ => filtered end)
  end.

(** One turn of the loop that matches the expected entries: the keys
    matched so far and the warnings. *)
Definition match_step (detected_norm_set : list str)
    (by_bank : @dict (list (str * BlocoComposicao)))
    (acc : list str * list aviso_validacao) (kv : str * esperado)
    : list str * list aviso_validacao :=
  let '(matched_expected, avisos) := acc in
  let '(expk, e) := kv in
  if existsb (str_eqb expk) detected_norm_set then (matched_expected ++ [expk], avisos)
  else
    match best_detected by_bank e with
    | Some best_code =>
        if truthy best_code
        then (matched_expected ++ [expk],
              avisos ++ [MatchPorTruncamento (x_rid e) best_code (x_bank e)])
        else acc
    | None => acc
    end.

Definition simple_step (acc : @dict (list str)) (kv : str * esperado) : @dict (list str) :=
  setdefault_append acc (_norm_bank (x_bank (snd kv))) (x_code (snd kv)).

(** A detected composition that no expected entry accounts for. *)
Definition is_extra (expected_norm : @dict esperado) (by_bank_simple : @dict (list str))
    (p : str * str * str * str) : bool :=
  let '(det_code, det_bank, det_rid, det_norm) := p in
  if dict_mem expected_norm det_norm then false
  else negb (existsb (fun exp_c => _prefix_match det_code exp_c 4 5)
               (get_or_nil by_bank_simple (_norm_bank det_bank))).

(** The comparison at the end of [parse_composicoes_sinapi]: the
    warnings, [itens_faltando] and [itens_extras]. *)
Definition conferir (principais : @dict BlocoComposicao) (item_refs : list item_ref)
    : list aviso_validacao * list str * list str :=
  match item_refs with
  | [] => ([], [], [])
  | _ =>
      let expected_norm := expected_norm_of item_refs in
      let pairs := detected_pairs principais in
      let detected_norm_set := map snd pairs in
      let by_bank := detected_by_bank principais in
      let '(matched_expected, avisos) :=
        fold_left (match_step detected_norm_set by_bank) expected_norm ([], []) in
      let itens_faltando :=
        map (fun kv => x_rid (snd kv))
          (filter (fun kv => negb (existsb (str_eqb (fst kv)) matched_expected))
             expected_norm) in
      let by_bank_simple := fold_left simple_step expected_norm [] in
      let itens_extras :=
        map (fun p => snd (fst p)) (filter (is_extra expected_norm by_bank_simple) pairs) in
      (avisos, itens_faltando, itens_extras)
  end.

End WithUnicode.
End Conferencia.

(* ================================================================== *)
(** * Part II. Properties                                              *)
(* ================================================================== *)

(** ** Facts about Python strings *)

Module PyFacts.

Lemma char_eqb_eq (a b : char) : char_eqb a b = true <-> a = b.
Proof. unfold char_eqb. apply N.eqb_eq. Qed.

Lemma str_eqb_eq (a b : str) : str_eqb a b = true <-> a = b.
Proof.
  revert b. induction a as [|x a IH]; intros [|y b]; simpl; split; intro H;
    try reflexivity; try discriminate.
  - apply andb_true_iff in H. destruct H as [H1 H2].
    apply char_eqb_eq in H1. apply IH in H2. congruence.
  - inversion H; subst. apply andb_true_iff. split.
    + now apply char_eqb_eq.
    + now apply IH.
Qed.

Lemma str_eqb_refl (a : str) : str_eqb a a = true.
Proof. now apply str_eqb_eq. Qed.

Lemma str_eqb_neq (a b : str) : str_eqb a b = false <-> a <> b.
Proof.
  split.
  - intros H E. apply str_eqb_eq in E. congruence.
  - intro H. destruct (str_eqb a b) eqn:E; [|reflexivity].
    apply str_eqb_eq in E. contradiction.
Qed.

Lemma startswith_iff (s p : str) :
  startswith s p = true <-> exists r, s = p ++ r.
Proof.
  revert s. induction p as [|c p IH]; intros s; simpl.
  - split; [intros _; now exists s | reflexivity].
  - destruct s as [|d s].
    + split; [discriminate | intros [r Hr]; discriminate].
    + rewrite andb_true_iff, char_eqb_eq, IH. split.
      * intros [-> [r ->]]. now exists r.
      * intros [r Hr]. inversion Hr; subst. split; [reflexivity | now exists r].
Qed.

Lemma startswith_app (p q m : str) :
  startswith p m = true -> startswith (p ++ q) m = true.
Proof.
  rewrite !startswith_iff. intros [r ->]. exists (r ++ q). now rewrite app_assoc.
Qed.

Lemma find_from_range (s m : str) (i : Z) :
  find_from s m i = (-1)%Z \/ (i <= find_from s m i)%Z.
Proof.
  revert i. induction s as [|c s IH]; intros i; simpl.
  - destruct (startswith [] m); [right; lia | now left].
  - destruct (startswith (c :: s) m); [right; lia|].
    destruct (IH (i + 1)%Z) as [H|H]; [now left | right; lia].
Qed.

(** An occurrence inside a prefix of [s] is an occurrence in [s], and it
    starts before the end of the prefix. *)
Lemma find_from_firstn (m : str) (n : nat) (s : str) (i : Z) :
  m <> [] -> (0 <= i)%Z ->
  find_from (firstn n s) m i <> (-1)%Z ->
  find_from s m i <> (-1)%Z /\ (find_from s m i < i + Z.of_nat n)%Z.
Proof.
  intros Hm. revert n i. induction s as [|c s IH]; intros n i Hi H.
  - rewrite firstn_nil in H. simpl in *.
    destruct m; [contradiction|]. simpl in H. contradiction.
  - destruct n as [|n].
    + simpl in H. destruct m; [contradiction|]. simpl in H. contradiction.
    + simpl firstn in H. simpl in H. simpl.
      destruct (startswith (c :: firstn n s) m) eqn:E.
      * assert (E' : startswith (c :: s) m = true).
        { apply startswith_iff in E. destruct E as [r Hr].
          apply startswith_iff. exists (r ++ skipn n s).
          rewrite app_assoc, <- Hr. simpl. now rewrite firstn_skipn. }
        rewrite E'. split; lia.
      * destruct (IH n (i + 1)%Z ltac:(lia) H) as [H1 H2].
        destruct (startswith (c :: s) m); split; lia.
Qed.

Lemma contains_firstn (m s : str) (n : nat) :
  m <> [] -> contains m (firstn n s) = true ->
  find s m <> (-1)%Z /\ (find s m < Z.of_nat n)%Z.
Proof.
  unfold contains, find. intros Hm H.
  apply negb_true_iff, Z.eqb_neq in H.
  destruct (find_from_firstn m n s 0 Hm (Z.le_refl 0) H). split; lia.
Qed.

Lemma find_from_hit (s m : str) (i : Z) :
  startswith s m = true -> find_from s m i = i.
Proof. intro H. destruct s; simpl; now rewrite H. Qed.

Lemma find_from_app (p q m : str) (i : Z) :
  (0 <= i)%Z -> find_from p m i <> (-1)%Z -> find_from (p ++ q) m i <> (-1)%Z.
Proof.
  revert i. induction p as [|c p IH]; intros i Hi H.
  - simpl in H. destruct (startswith [] m) eqn:E; [|contradiction].
    apply (startswith_app _ q) in E. rewrite (find_from_hit _ _ _ E). lia.
  - simpl in H. destruct (startswith (c :: p) m) eqn:E.
    + apply (startswith_app _ q) in E. rewrite (find_from_hit _ _ _ E). lia.
    + cbn [app find_from]. destruct (startswith (c :: p ++ q) m); [lia|].
      apply IH; [lia | assumption].
Qed.

Lemma contains_app_l (m p q : str) :
  contains m p = true -> contains m (p ++ q) = true.
Proof.
  unfold contains, find. rewrite !negb_true_iff, !Z.eqb_neq.
  now apply find_from_app.
Qed.

Lemma contains_nil (m : str) : m <> [] -> contains m [] = false.
Proof. destruct m; [contradiction | reflexivity]. Qed.

(** *** Whitespace stripping *)

Definition hd_ok (s : str) : Prop :=
  match s with [] => True | c :: _ => is_space c = false end.

Fixpoint no_adj (s : str) : Prop :=
  match s with
  | [] => True
  | c :: s' =>
      match s' with
      | [] => True
      | d :: _ => (is_space c = false \/ is_space d = false) /\ no_adj s'
      end
  end.

Lemma lstrip_hd (s : str) : hd_ok (lstrip s).
Proof.
  induction s as [|c s IH]; simpl; [exact I|].
  destruct (is_space c) eqn:E; [exact IH | simpl; exact E].
Qed.

Lemma lstrip_suffix (s : str) : exists w, s = w ++ lstrip s.
Proof.
  induction s as [|c s [w IH]]; simpl.
  - now exists [].
  - destruct (is_space c); [exists (c :: w); simpl; congruence | now exists []].
Qed.

Lemma lstrip_id (s : str) : hd_ok s -> lstrip s = s.
Proof. destruct s as [|c s]; simpl; [reflexivity | now intros ->]. Qed.

Lemma rstrip_prefix (s : str) : exists w, s = rstrip s ++ w.
Proof.
  unfold rstrip. destruct (lstrip_suffix (rev s)) as [w Hw].
  exists (rev w). rewrite <- rev_app_distr, <- Hw. now rewrite rev_involutive.
Qed.

Lemma rstrip_last (s : str) : hd_ok (rev (rstrip s)).
Proof. unfold rstrip. rewrite rev_involutive. apply lstrip_hd. Qed.

Lemma rstrip_id (s : str) : hd_ok (rev s) -> rstrip s = s.
Proof. intro H. unfold rstrip. rewrite (lstrip_id _ H). apply rev_involutive. Qed.

Lemma hd_ok_prefix (p q : str) : hd_ok (p ++ q) -> hd_ok p.
Proof. destruct p; simpl; auto. Qed.

Lemma no_adj_prefix (p q : str) : no_adj (p ++ q) -> no_adj p.
Proof.
  induction p as [|c p IH]; [intros _; exact I|].
  destruct p as [|d p]; [intros _; exact I|].
  simpl. intros [H1 H2]. split; [exact H1 | apply IH; exact H2].
Qed.

Lemma strip_hd (s : str) : hd_ok (strip s).
Proof.
  unfold strip. destruct (rstrip_prefix (lstrip s)) as [w Hw].
  apply hd_ok_prefix with (q := w). rewrite <- Hw. apply lstrip_hd.
Qed.

Lemma strip_last (s : str) : hd_ok (rev (strip s)).
Proof. apply rstrip_last. Qed.

Lemma strip_id (s : str) : hd_ok s -> hd_ok (rev s) -> strip s = s.
Proof. intros H1 H2. unfold strip. rewrite (lstrip_id _ H1). now apply rstrip_id. Qed.

Lemma lstrip_Forall (P : char -> Prop) (s : str) : Forall P s -> Forall P (lstrip s).
Proof.
  intro H. destruct (lstrip_suffix s) as [w Hw]. rewrite Hw in H.
  now apply Forall_app in H.
Qed.

Lemma rstrip_Forall (P : char -> Prop) (s : str) : Forall P s -> Forall P (rstrip s).
Proof.
  intro H. destruct (rstrip_prefix s) as [w Hw]. rewrite Hw in H.
  now apply Forall_app in H.
Qed.

(** *** The two whitespace substitutions *)

Lemma sub_ws2_Forall (P : char -> Prop) (b : bool) (s : str) :
  P 32%N -> Forall P s -> Forall P (sub_ws2 b s).
Proof.
  intros H32 H. revert b. induction H as [|c s Hc Hs IH]; intros b; simpl.
  - constructor.
  - destruct (is_space c).
    + destruct b; [apply IH|]. destruct s as [|d s']; [now repeat constructor|].
      destruct (is_space d); constructor; auto.
    + constructor; auto.
Qed.

Lemma sub_ws2_shape (b : bool) (s : str) :
  no_adj (sub_ws2 b s) /\ (b = true -> hd_ok (sub_ws2 b s)).
Proof.
  revert b. induction s as [|c s IH]; intros b.
  - simpl. auto.
  - cbn [sub_ws2]. destruct (is_space c) eqn:Ec.
    + destruct b.
      * apply IH.
      * split; [|discriminate]. destruct s as [|d s']; [exact I|].
        destruct (is_space d) eqn:Ed.
        -- destruct (IH true) as [H1 H2]. specialize (H2 eq_refl).
           destruct (sub_ws2 true (d :: s')) as [|e r] eqn:Er; [exact I|].
           split; [right; exact H2 | exact H1].
        -- destruct (IH false) as [H1 _]. cbn [sub_ws2] in H1 |- *.
           rewrite Ed in H1 |- *. split; [right; exact Ed | exact H1].
    + destruct (IH false) as [H1 _]. split.
      * destruct (sub_ws2 false s) as [|e r] eqn:Er; [exact I|].
        split; [left; exact Ec | exact H1].
      * intros _. exact Ec.
Qed.

Lemma sub_ws2_hd (s : str) : hd_ok s -> hd_ok (sub_ws2 false s).
Proof. destruct s as [|c s]; simpl; [auto|]. intros H. rewrite H. exact H. Qed.

Lemma sub_ws2_snoc (b : bool) (y : str) (c : char) :
  is_space c = false -> sub_ws2 b (y ++ [c]) = sub_ws2 b y ++ [c].
Proof.
  intros Hc. revert b. induction y as [|e y IH]; intros b.
  - simpl. now rewrite Hc.
  - cbn [app sub_ws2]. destruct (is_space e).
    + destruct b; [apply IH|].
      destruct y as [|d y'].
      * simpl. now rewrite Hc.
      * cbn [app]. destruct (is_space d).
        -- cbn [app]. f_equal. apply (IH true).
        -- cbn [app]. f_equal. apply (IH false).
    + cbn [app]. f_equal. apply IH.
Qed.

Lemma sub_ws2_last (s : str) : hd_ok (rev s) -> hd_ok (rev (sub_ws2 false s)).
Proof.
  destruct (rev s) as [|c r] eqn:E.
  - apply (f_equal (@rev _)) in E. rewrite rev_involutive in E. subst. intros _. exact I.
  - apply (f_equal (@rev _)) in E. rewrite rev_involutive in E. simpl in E. subst.
    simpl. intros Hc. rewrite (sub_ws2_snoc _ _ _ Hc), rev_app_distr. simpl. exact Hc.
Qed.

Lemma sub_ws2_id (s : str) : no_adj s -> sub_ws2 false s = s.
Proof.
  induction s as [|c s IH]; [reflexivity|].
  intros H. cbn [sub_ws2]. destruct s as [|d s'].
  - now destruct (is_space c).
  - destruct H as [[H|H] H']; rewrite (IH H').
    + now rewrite H.
    + rewrite H. now destruct (is_space c).
Qed.

End PyFacts.

(** ** Facts about the sanitizer *)

Module SanitizerFacts.
Import PyFacts Sanitizer.

(** A string is tidy when [_normalize_space] has nothing left to do. *)
Definition tidy (s : str) : Prop :=
  Forall (fun c => c <> 160%N) s /\ no_adj s /\ hd_ok s /\ hd_ok (rev s).

Lemma replace_nbsp_cons (c : char) (s : str) :
  replace_go [160%N] [32%N] 0 (c :: s) =
  (if char_eqb 160%N c then 32%N else c) :: replace_go [160%N] [32%N] 0 s.
Proof.
  cbn [replace_go startswith]. destruct (char_eqb 160%N c); reflexivity.
Qed.

Lemma replace_nbsp_Forall (s : str) :
  Forall (fun c => c <> 160%N) (replace s [160%N] [32%N]).
Proof.
  unfold replace. induction s as [|c s IH]; [constructor|].
  rewrite replace_nbsp_cons. constructor; [|exact IH].
  destruct (char_eqb 160%N c) eqn:E; [discriminate|].
  intros ->. now rewrite (proj2 (char_eqb_eq _ _) eq_refl) in E.
Qed.

Lemma replace_nbsp_id (s : str) :
  Forall (fun c => c <> 160%N) s -> replace s [160%N] [32%N] = s.
Proof.
  unfold replace. induction 1 as [|c s Hc Hs IH]; [reflexivity|].
  rewrite replace_nbsp_cons, IH.
  destruct (char_eqb 160%N c) eqn:E; [|reflexivity].
  apply char_eqb_eq in E. congruence.
Qed.

Lemma normalize_tidy (s : str) : tidy (_normalize_space s).
Proof.
  unfold _normalize_space. set (x := strip (replace s [160%N] [32%N])).
  assert (Hx : Forall (fun c => c <> 160%N) x).
  { apply rstrip_Forall, lstrip_Forall, replace_nbsp_Forall. }
  repeat split.
  - apply sub_ws2_Forall; [discriminate | exact Hx].
  - apply sub_ws2_shape.
  - apply sub_ws2_hd, strip_hd.
  - apply sub_ws2_last, strip_last.
Qed.

Lemma normalize_id (s : str) : tidy s -> _normalize_space s = s.
Proof.
  intros (H1 & H2 & H3 & H4). unfold _normalize_space.
  rewrite (replace_nbsp_id _ H1), (strip_id _ H3 H4). now apply sub_ws2_id.
Qed.

Lemma normalize_idem (s : str) :
  _normalize_space (_normalize_space s) = _normalize_space s.
Proof. apply normalize_id, normalize_tidy. Qed.

Lemma tidy_cut (s : str) (n : nat) : tidy s -> tidy (rstrip (firstn n s)).
Proof.
  intros (H1 & H2 & H3 & H4).
  destruct (rstrip_prefix (firstn n s)) as [w Hw].
  assert (Hs : s = rstrip (firstn n s) ++ (w ++ skipn n s)).
  { rewrite app_assoc, <- Hw. symmetry. apply firstn_skipn. }
  repeat split.
  - rewrite Hs in H1. now apply Forall_app in H1.
  - rewrite Hs in H2. now apply no_adj_prefix in H2.
  - rewrite Hs in H3. now apply hd_ok_prefix in H3.
  - apply rstrip_last.
Qed.

(** *** Markers *)

Lemma insert_by_len_In (m x : str) (l : list str) :
  In x (insert_by_len m l) <-> x = m \/ In x l.
Proof.
  induction l as [|y l IH]; simpl.
  - intuition congruence.
  - destruct (length y <=? length m)%nat; simpl; [intuition congruence|].
    rewrite IH. intuition congruence.
Qed.

Lemma sort_by_len_desc_In (x : str) (l : list str) :
  In x (sort_by_len_desc l) <-> In x l.
Proof.
  induction l as [|m l IH]; simpl; [reflexivity|].
  rewrite insert_by_len_In, IH. intuition congruence.
Qed.

Lemma dedupe_In (x : str) (seen l : list str) :
  In x (dedupe seen l) -> In x l.
Proof.
  revert seen. induction l as [|m l IH]; intros seen; simpl; [auto|].
  destruct (existsb (str_eqb m) seen); simpl; [eauto|].
  intros [H|H]; eauto.
Qed.

Lemma merged_marker_ok (m : str) (static dynamic : list str) :
  In m (_merge_markers static dynamic) -> marker_ok m = true.
Proof.
  unfold _merge_markers. rewrite sort_by_len_desc_In. intro H.
  apply dedupe_In, in_app_or in H. destruct H as [H|H]; now apply filter_In in H.
Qed.

Lemma merged_nonempty (m : str) (static dynamic : list str) :
  In m (_merge_markers static dynamic) -> m <> [].
Proof.
  intros H ->. apply merged_marker_ok in H. discriminate.
Qed.

(** *** Where [clean_inline] cuts *)

Lemma cut_loop (s : str) (ms : list str) (acc : option Z) :
  match fold_left (cut_step s) ms acc with
  | None => acc = None /\ forall m, In m ms -> find s m = (-1)%Z
  | Some k =>
      (forall m, In m ms -> find s m = (-1)%Z \/ (k <= find s m)%Z)
      /\ (forall a, acc = Some a -> (k <= a)%Z)
      /\ ((forall a, acc = Some a -> (0 <= a)%Z) -> (0 <= k)%Z)
  end.
Proof.
  revert acc. induction ms as [|m ms IH]; intros acc.
  - simpl. destruct acc as [a|].
    + repeat split; [intros m [] | intros ? [= <-]; lia | intros H; now apply H].
    + split; [reflexivity | intros m []].
  - simpl. specialize (IH (cut_step s acc m)).
    destruct (fold_left (cut_step s) ms (cut_step s acc m)) as [k|].
    + destruct IH as (H1 & H2 & H3). unfold cut_step in H2, H3.
      pose proof (find_from_range s m 0) as Hr. fold (find s m) in Hr.
      destruct (find s m =? -1)%Z eqn:E.
      * apply Z.eqb_eq in E. repeat split.
        -- intros m' [<-|Hm]; [now left | now apply H1].
        -- exact H2.
        -- exact H3.
      * apply Z.eqb_neq in E. destruct Hr as [Hr|Hr]; [contradiction|].
        destruct acc as [a|].
        -- specialize (H2 _ eq_refl). repeat split.
           ++ intros m' [<-|Hm]; [right; lia | now apply H1].
           ++ intros a' [= <-]. lia.
           ++ intros Ha. apply H3. intros a' [= <-]. specialize (Ha _ eq_refl). lia.
        -- specialize (H2 _ eq_refl). repeat split.
           ++ intros m' [<-|Hm]; [right; lia | now apply H1].
           ++ discriminate.
           ++ intros _. apply H3. intros a' [= <-]. lia.
    + destruct IH as (H1 & H2). unfold cut_step in H1.
      destruct (find s m =? -1)%Z eqn:E.
      * apply Z.eqb_eq in E. split; [exact H1|].
        intros m' [<-|Hm]; [exact E | now apply H2].
      * destruct acc; discriminate.
Qed.

(** The result of [clean_inline] is tidy and holds none of the markers it
    was cut with. *)
Lemma clean_inline_tidy (text : str) (S D : list str) :
  tidy (clean_inline text S D).
Proof.
  unfold clean_inline.
  destruct (negb (truthy (_normalize_space text)) || _); [apply normalize_tidy|].
  destruct (fold_left _ _ _); apply normalize_tidy.
Qed.

Lemma clean_inline_no_marker (text : str) (S D : list str) (m : str) :
  In m (_merge_markers S D) -> contains m (clean_inline text S D) = false.
Proof.
  intros Hm. pose proof (merged_nonempty _ _ _ Hm) as Hne.
  unfold clean_inline. set (s := _normalize_space text).
  destruct (truthy s) eqn:Hs; simpl.
  2:{ destruct s; [now apply contains_nil | discriminate]. }
  destruct (_merge_markers S D) as [|m0 ms] eqn:Hmk; [destruct Hm|].
  pose proof (cut_loop s (m0 :: ms) None) as Hc.
  destruct (fold_left (cut_step s) (m0 :: ms) None) as [k|].
  - destruct Hc as (H1 & _ & H3).
    assert (Hk : (0 <= k)%Z) by (apply H3; discriminate).
    rewrite normalize_id by (apply tidy_cut, normalize_tidy).
    destruct (contains m (rstrip (slice_to s k))) eqn:E; [|reflexivity].
    exfalso. unfold slice_to in E.
    destruct (rstrip_prefix (firstn (Z.to_nat k) s)) as [w Hw].
    apply (contains_app_l _ _ w) in E. rewrite <- Hw in E.
    apply contains_firstn in E; [|exact Hne].
    destruct (H1 m Hm); lia.
  - destruct Hc as (_ & H2).
    rewrite normalize_id by apply normalize_tidy.
    unfold contains. rewrite (H2 m Hm). reflexivity.
Qed.

Lemma clean_inline_not_contaminated (text : str) (S D : list str) :
  contains_any (clean_inline text S D) S D = false.
Proof.
  unfold contains_any. destruct (existsb _ _) eqn:E; [|reflexivity].
  apply existsb_exists in E. destruct E as (m & Hm & Hc).
  now rewrite (clean_inline_no_marker text S D m Hm) in Hc.
Qed.

Lemma clean_inline_normalize (ln : str) (S D : list str) :
  clean_inline (_normalize_space ln) S D = clean_inline ln S D.
Proof. unfold clean_inline. cbv zeta. now rewrite !normalize_idem. Qed.

Lemma clean_inline_of_empty (ln : str) (S D : list str) :
  truthy (_normalize_space ln) = false -> clean_inline ln S D = [].
Proof.
  intro H. unfold clean_inline. rewrite H. simpl.
  destruct (_normalize_space ln); [reflexivity | discriminate].
Qed.

(** *** The loop of [sanitize_lines] *)

Definition kept (D : list str) (t : str) : bool :=
  truthy t && negb (any_drop D t).

Lemma sanitize_step_eq (D S Y out : list str) (ln : str) :
  sanitize_step D S Y out ln =
  out ++ filter (kept D) [clean_inline ln S Y].
Proof.
  unfold sanitize_step, kept. rewrite clean_inline_normalize.
  destruct (truthy (_normalize_space ln)) eqn:E; simpl.
  - destruct (truthy (clean_inline ln S Y)); simpl; [|now rewrite app_nil_r].
    destruct D as [|d D]; simpl; [reflexivity|].
    destruct (_ || _); simpl; [now rewrite app_nil_r | reflexivity].
  - rewrite (clean_inline_of_empty ln S Y E). simpl. now rewrite app_nil_r.
Qed.

Lemma sanitize_loop (D S Y : list str) (lines out : list str) :
  fold_left (sanitize_step D S Y) lines out =
  out ++ filter (kept D) (map (fun ln => clean_inline ln S Y) lines).
Proof.
  revert out. induction lines as [|ln lines IH]; intros out; simpl.
  - now rewrite app_nil_r.
  - rewrite IH, sanitize_step_eq. simpl.
    destruct (kept D (clean_inline ln S Y)); simpl;
      now rewrite <- ?app_assoc, ?app_nil_r.
Qed.

End SanitizerFacts.

(** The database restricted to ASCII: exact on ASCII text. *)
Module Ascii7.

Definition digit_value (c : char) : option Z :=
  if ((48 <=? c) && (c <=? 57))%N then Some (Z.of_N c - 48)%Z else None.

Definition upper_char (c : char) : char :=
  if ((97 <=? c) && (c <=? 122))%N then (c - 32)%N else c.

Lemma digit_value_ascii c : (c < 128)%N ->
  digit_value c = if ((48 <=? c) && (c <=? 57))%N then Some (Z.of_N c - 48)%Z else None.
Proof. reflexivity. Qed.

Lemma digit_value_not_space c d : digit_value c = Some d -> is_space c = false.
Proof.
  unfold digit_value, is_space.
  destruct ((48 <=? c) && (c <=? 57))%N eqn:E; [|discriminate]. intros _.
  apply andb_true_iff in E. destruct E as [E1 E2].
  apply N.leb_le in E1, E2.
  repeat match goal with
  | |- context [(?a <=? ?b)%N] => destruct (N.leb_spec a b); try lia
  | |- context [(?a =? ?b)%N] => destruct (N.eqb_spec a b); try lia
  end; reflexivity.
Qed.

Definition db : Unicode :=
  {| to_decimal := digit_value;
     upper := map upper_char;
     lower := map PyFloat.lower_ascii;
     nfkd := fun s => s;
     combining := fun _ => 0%Z;
     decimal_ascii := digit_value_ascii;
     decimal_not_space := digit_value_not_space |}.

End Ascii7.

(** ** Data of the examples *)

Module Exemplos.
Import Parser.
#[local] Open Scope string_scope.

(** The budget line of the specification and the item it parses to. *)
Definition ex_line : str :=
  lit "9.4 00000123 SINAPI Alvenaria M2 10,00 50,00 55,00 550,00".
Definition ex_item : dados :=
  mk_dados (lit "item") (lit "9.4") [] [] (lit "00000123") (lit "SINAPI")
    (lit "Alvenaria") (lit "M2") (lit "10,00") (lit "50,00") (lit "55,00")
    (lit "550,00").
(** The default tolerances, with "Mapa" as an inline-stop marker. *)
Definition ex_cfg : config :=
  mk_config [] [] [] [lit "Mapa"] [] [] [] 0.02 0.0002 0.05 0.0001 true true [] false.
Definition no_report : relatorio := mk_relatorio [] [] [].

(** A run time for the examples: a tree of fewer than 100 levels passes
    both limits. *)
Fixpoint levels (n : arvore) : nat :=
  match n with
  | Arvore _ fs => S (fold_right (fun c acc => Nat.max (levels c) acc) 0%nat fs)
  end.
Definition ex_runtime : Runtime :=
  {| stack_allows := fun _ nodes => forallb (fun n => (levels n <? 100)%nat) nodes;
     model_accepts := fun nodes => forallb (fun n => (levels n <? 100)%nat) nodes |}.

(** A group "9 Fundacoes 12345,67" whose two items add up to 12000,00. *)
Definition ex_group : dados := grupo (lit "meta") (lit "9") (lit "Fundacoes") (lit "12345,67").
Definition ex_child (item parcial : str) : arvore :=
  Arvore (mk_dados (lit "item") item [] [] (lit "00000123") (lit "SINAPI")
            (lit "Alvenaria") (lit "M2") (lit "1,00") parcial parcial parcial) [].
Definition ex_children : list arvore :=
  [ex_child (lit "9.1") (lit "7.000,00"); ex_child (lit "9.2") (lit "5.000,00")].

(** A budget page where the group 9.4.1 comes after the item 9.4 and so
    hangs below it: the group declares 999,00 and has no children. *)
Definition ex_page_nested : str :=
  lit "9 Servicos 550,00" ++ [10%N] ++ ex_line ++ [10%N] ++ lit "9.4.1 Estacas 999,00".
Definition ex_hidden_group : arvore :=
  Arvore (grupo (lit "submeta") (lit "9.4.1") (lit "Estacas") (lit "999,00")) [].
Definition ex_nested_tree : list arvore :=
  [Arvore (grupo (lit "meta") (lit "9") (lit "Servicos") (lit "550,00"))
     [Arvore ex_item [ex_hidden_group]]].

(** Rows of composition tables.  A block for the principal 88316 with the
    auxiliary 883164 and an input, and a second block. *)
Definition ex_row (cells : list String.string) : list Composicoes.cell :=
  map (fun c => Some (lit c)) cells.

Definition ex_header_row : list Composicoes.cell :=
  ex_row ["1.1"; "Codigo"; "Banco"; "Descricao"; "Tipo"; "Und"; "Quant."; "Valor Unit"; "Total"].
Definition ex_comp_row : list Composicoes.cell :=
  ex_row ["Composicao"; "88316"; "SINAPI"; "SERVENTE"; "SEDI"; "H"; "1,0"; "20,00"; "20,00"].
Definition ex_aux_row : list Composicoes.cell :=
  ex_row ["Composicao Auxiliar"; "883164"; "SINAPI"; "CURSO"; "SEDI"; "H"; "1,0"; "2,00"; "2,00"].
Definition ex_insumo_row : list Composicoes.cell :=
  ex_row ["Insumo"; "00000367/ SINAPI"; ""; "AREIA"; "Material"; "M3"; "0,5"; "100,00"; "50,00"].
Definition ex_comp_row2 : list Composicoes.cell :=
  ex_row ["Composicao"; "99999"; "SINAPI"; "PEDREIRO"; "SEDI"; "H"; "1,0"; "30,00"; "30,00"].

Definition ex_pages : list Composicoes.page :=
  [[[ex_header_row; ex_comp_row; ex_aux_row; ex_insumo_row; ex_comp_row2]]].

Definition ex_aux : Composicoes.LinhaComposicao :=
  Composicoes.mk_linha (lit "883164") (lit "SINAPI") (lit "CURSO") (lit "SEDI") (lit "H")
    (Some 1%float) (Some 2%float) (Some 2%float) (lit "SINAPI").

Definition ex_parsed : Composicoes.Composicoes * list Composicoes.aviso :=
  match @Composicoes.parse_composicoes_sinapi Ascii7.db ex_pages 1 1 (lit "1-based") [] with
  | Returns r => r
  | Raises _ => (Composicoes.mk_composicoes [] [] [], [])
  end.

Definition ex_principal : Composicoes.LinhaComposicao :=
  Composicoes.mk_linha (lit "88316") (lit "SINAPI") (lit "SERVENTE") (lit "SEDI") (lit "H")
    (Some 1%float) (Some 20%float) (Some 20%float) (lit "SINAPI").

End Exemplos.

Example parse_ptbr_ex1 :
  @Money.parse_ptbr_number Ascii7.db (lit "1.234,56") = Some 1234.56%float.
Proof. vm_compute. reflexivity. Qed.

Example parse_ptbr_ex2 :
  @Money.parse_ptbr_number Ascii7.db (lit "abc") = None
  /\ @Money.parse_ptbr_number Ascii7.db (lit "R$ 10,00") = Some 10%float
  /\ @Money.parse_ptbr_number Ascii7.db (lit "1.2.3") = None
  /\ @Money.parse_ptbr_number Ascii7.db (lit "-0,5") = Some (-0.5)%float
  /\ @Money.parse_ptbr_number Ascii7.db (lit "12345,678") = Some 12345.678%float
  /\ @Money.parse_ptbr_number Ascii7.db (lit "1234.567") = None.
Proof. vm_compute. repeat split; reflexivity. Qed.

Example py_float_ex :
  @PyFloat.py_float Ascii7.db (lit " 1_0.5e1 ") = Some 105%float
  /\ @PyFloat.py_float Ascii7.db (lit "1e") = None
  /\ @PyFloat.py_float Ascii7.db (lit "-Infinity") = Some neg_infinity
  /\ @PyFloat.py_float Ascii7.db (lit ".") = None
  /\ @PyFloat.py_float Ascii7.db (lit "1e400") = Some infinity
  /\ @PyFloat.py_float Ascii7.db (lit "R$ 10.00") = None.
Proof. vm_compute. repeat split; reflexivity. Qed.

(** ** The line sanitizer *)

Module SanitizerClaims.
Import PyFacts Sanitizer SanitizerFacts.

(** C9, as the code has it: every line is first truncated at the earliest
    inline-stop marker (with its whitespace normalised), and only then
    tested: the truncated line is dropped when it is empty or contains a
    drop marker, and kept otherwise.  So the output is, in order, the
    truncated forms that are non-empty and free of drop markers; no
    output line holds a drop marker or an inline-stop marker. *)
Theorem sanitize_lines_truncates_then_drops
    (lines drop_lines_if_contains strip_inline_from dynamic_markers : list str) :
  sanitize_lines lines drop_lines_if_contains strip_inline_from dynamic_markers
  = filter (fun t => truthy t && negb (any_drop drop_lines_if_contains t))
      (map (fun ln => clean_inline ln strip_inline_from dynamic_markers) lines)
  /\ Forall (fun t => t <> []
                      /\ any_drop drop_lines_if_contains t = false
                      /\ contains_any t strip_inline_from dynamic_markers = false)
       (sanitize_lines lines drop_lines_if_contains strip_inline_from dynamic_markers).
Proof.
  assert (E : sanitize_lines lines drop_lines_if_contains strip_inline_from dynamic_markers
              = filter (kept drop_lines_if_contains)
                  (map (fun ln => clean_inline ln strip_inline_from dynamic_markers) lines)).
  { unfold sanitize_lines. now rewrite sanitize_loop. }
  split; [exact E|].
  rewrite E. apply Forall_forall. intros t Ht.
  apply filter_In in Ht. destruct Ht as [Hin Hk].
  unfold kept in Hk. apply andb_true_iff in Hk. destruct Hk as [Hk1 Hk2].
  apply negb_true_iff in Hk2.
  apply in_map_iff in Hin. destruct Hin as (ln & <- & _).
  repeat split.
  - intro E0. rewrite E0 in Hk1. discriminate.
  - exact Hk2.
  - apply clean_inline_not_contaminated.
Qed.

(** C9, as stated, fails: a line that contains a drop marker after an
    inline-stop marker is not removed; its truncated form is output, where
    dropping first would have removed the line. *)
Lemma sanitize_lines_keeps_late_drop_marker :
  any_drop [lit "DROP"] (lit "abc STOP xyz DROP") = true
  /\ (find (lit "abc STOP xyz DROP") (lit "STOP")
      < find (lit "abc STOP xyz DROP") (lit "DROP"))%Z
  /\ sanitize_lines [lit "abc STOP xyz DROP"] [lit "DROP"] [lit "STOP"] []
     = [lit "abc"]
  /\ drop_then_truncate [lit "abc STOP xyz DROP"] [lit "DROP"] [lit "STOP"] [] = [].
Proof. vm_compute. repeat split; reflexivity. Qed.

End SanitizerClaims.

(** ** The budget tree under construction *)

Module TreeFacts.
Import PyFacts Parser.

Lemma length_update_nth {A : Type} (n : nat) (f : A -> A) (l : list A) :
  length (update_nth n f l) = length l.
Proof.
  revert n. induction l as [|x l IH]; intros [|n]; simpl; auto.
Qed.

Lemma nth_error_update_nth {A : Type} (n : nat) (f : A -> A) (l : list A) (k : nat) :
  nth_error (update_nth n f l) k =
  if (k =? n)%nat then option_map f (nth_error l k) else nth_error l k.
Proof.
  revert n k. induction l as [|x l IH]; intros [|n] [|k]; simpl; auto.
  now destruct (k =? n)%nat.
Qed.

(** A heap is well formed when children are younger than their parent,
    and no node is the child of two nodes. *)
Record wf_heap (h : heap) : Prop := {
  wf_root : (0 < length h)%nat;
  wf_order : forall p c, In c (filhos_of h p) -> (p < c < length h)%nat;
  wf_unique : forall p p' c,
      In c (filhos_of h p) -> In c (filhos_of h p') -> p = p'
}.

(** The stack is a path of the tree that starts at the root, with levels
    that grow strictly towards the top. *)
Inductive chain (h : heap) : list (Z * nat) -> Prop :=
| chain_root : chain h [(0%Z, 0%nat)]
| chain_cons l id pl pid rest :
    chain h ((pl, pid) :: rest) ->
    (pl < l)%Z ->
    In id (filhos_of h pid) ->
    chain h ((l, id) :: (pl, pid) :: rest).

Lemma is_child_iff (h : heap) (c p : nat) :
  is_child h c p = true <-> In c (filhos_of h p).
Proof.
  unfold is_child. rewrite existsb_exists. split.
  - intros (x & Hx & E). apply Nat.eqb_eq in E. now subst.
  - intros Hc. exists c. split; [exact Hc | apply Nat.eqb_refl].
Qed.

Lemma parent_of_child (h : heap) (c p : nat) :
  wf_heap h -> In c (filhos_of h p) -> parent_of h c = Some p.
Proof.
  intros Hwf Hc. unfold parent_of.
  destruct (List.find (is_child h c) (seq 0 (length h))) as [p'|] eqn:E.
  - apply find_some in E. destruct E as [_ E]. apply is_child_iff in E.
    f_equal. apply (wf_unique h Hwf p' p c E Hc).
  - exfalso. pose proof (find_none _ _ E p) as Hn.
    rewrite (proj2 (is_child_iff h c p) Hc) in Hn.
    assert (Hin : In p (seq 0 (length h))).
    { apply in_seq. pose proof (wf_order h Hwf p c Hc). lia. }
    specialize (Hn Hin). discriminate.
Qed.

Lemma chain_top_bound (h : heap) (l : Z) (id : nat) (rest : list (Z * nat)) :
  wf_heap h -> chain h ((l, id) :: rest) -> (id < length h)%nat.
Proof.
  intros Hwf Hc. inversion Hc; subst.
  - apply (wf_root h Hwf).
  - match goal with H : In id _ |- _ => apply (wf_order h Hwf) in H end. lia.
Qed.

Lemma chain_depth (h : heap) (stk : list (Z * nat)) :
  wf_heap h -> chain h stk ->
  forall l id rest fuel, stk = (l, id) :: rest -> (id <= fuel)%nat ->
  depth_fuel fuel h id = Some (length rest).
Proof.
  intros Hwf Hc. induction Hc as [|l0 id0 pl pid rest0 Hc IH Hlt Hin];
    intros l id rest fuel E Hf; inversion E; subst.
  - destruct fuel; reflexivity.
  - pose proof (wf_order h Hwf _ _ Hin) as Ho.
    destruct id as [|id']; [lia|]. destruct fuel as [|f]; [lia|].
    cbn [depth_fuel]. rewrite (parent_of_child h (S id') pid Hwf Hin).
    rewrite (IH pl pid rest0 f eq_refl) by lia. reflexivity.
Qed.

Lemma chain_depth_of (h : heap) (l : Z) (id : nat) (rest : list (Z * nat)) :
  wf_heap h -> chain h ((l, id) :: rest) -> depth_of h id = Some (length rest).
Proof.
  intros Hwf Hc. unfold depth_of.
  apply (chain_depth h _ Hwf Hc l id rest _ eq_refl).
  pose proof (chain_top_bound h l id rest Hwf Hc). lia.
Qed.

Lemma chain_level (h : heap) (stk : list (Z * nat)) :
  chain h stk ->
  forall l id rest, stk = (l, id) :: rest -> (Z.of_nat (length rest) <= l)%Z.
Proof.
  induction 1 as [|l0 id0 pl pid rest0 Hc IH Hlt Hin];
    intros l id rest E; inversion E; subst.
  - simpl. lia.
  - specialize (IH pl pid rest0 eq_refl). simpl length. lia.
Qed.

Lemma chain_mono (h h' : heap) (stk : list (Z * nat)) :
  (forall p c, In c (filhos_of h p) -> In c (filhos_of h' p)) ->
  chain h stk -> chain h' stk.
Proof.
  intros Hm. induction 1; constructor; auto.
Qed.

(** What the [while] loop of [push_node] leaves. *)
Lemma pop_to_chain (h : heap) (level : Z) (stk : list (Z * nat)) :
  chain h stk -> (1 <= level)%Z ->
  exists popped pl parent rest,
    stk = popped ++ (pl, parent) :: rest
    /\ pop_to level stk = (pl, parent) :: rest
    /\ Forall (fun e => (level <= fst e)%Z) popped
    /\ (pl < level)%Z
    /\ chain h ((pl, parent) :: rest).
Proof.
  intros Hc Hl. induction Hc as [|l0 id0 pl pid rest0 Hc IH Hlt Hin].
  - exists [], 0%Z, 0%nat, []. simpl.
    destruct (Z.leb_spec level 0); [lia|].
    repeat split; [constructor | lia | constructor].
  - cbn [pop_to]. destruct (Z.leb_spec level l0) as [Hle|Hgt].
    + destruct IH as (popped & pl' & parent & rest & E & Hp & Hall & Hlt' & Hc').
      exists ((l0, id0) :: popped), pl', parent, rest.
      repeat split; try assumption.
      * simpl. now rewrite E.
      * constructor; [exact Hle | exact Hall].
    + exists [], l0, id0, ((pl, pid) :: rest0).
      repeat split; [constructor | exact Hgt | now constructor].
Qed.

(** *** The heap after a push *)

Definition add_child (id : nat) (o : objeto) : objeto :=
  mk_objeto (dados_de o) (filhos o ++ [id]).

Definition pushed (h : heap) (parent : nat) (node : dados) : heap :=
  update_nth parent (add_child (length h)) h ++ [mk_objeto node []].

Lemma filhos_pushed (h : heap) (parent : nat) (node : dados) (p : nat) :
  (parent < length h)%nat ->
  filhos_of (pushed h parent node) p =
  if (p =? parent)%nat then filhos_of h parent ++ [length h] else filhos_of h p.
Proof.
  intros Hp. unfold filhos_of, pushed.
  destruct (Nat.lt_ge_cases p (length h)) as [Hlt|Hge].
  - rewrite nth_error_app1 by (rewrite length_update_nth; exact Hlt).
    rewrite nth_error_update_nth.
    destruct (Nat.eqb_spec p parent) as [->|Hne]; [|reflexivity].
    destruct (nth_error h parent) as [o|] eqn:E; [reflexivity|].
    apply nth_error_None in E. lia.
  - rewrite nth_error_app2 by (rewrite length_update_nth; exact Hge).
    rewrite length_update_nth.
    destruct (Nat.eqb_spec p parent) as [->|Hne]; [lia|].
    assert (E : nth_error h p = None) by (apply nth_error_None; exact Hge).
    rewrite E. destruct (p - length h)%nat as [|k] eqn:Ek; [reflexivity|].
    simpl. now destruct k.
Qed.

Lemma length_pushed (h : heap) (parent : nat) (node : dados) :
  length (pushed h parent node) = S (length h).
Proof.
  unfold pushed. rewrite length_app, length_update_nth. simpl. lia.
Qed.

Lemma nth_error_pushed_new (h : heap) (parent : nat) (node : dados) :
  nth_error (pushed h parent node) (length h) = Some (mk_objeto node []).
Proof.
  unfold pushed. rewrite nth_error_app2 by (rewrite length_update_nth; lia).
  rewrite length_update_nth, Nat.sub_diag. reflexivity.
Qed.

Lemma wf_pushed (h : heap) (parent : nat) (node : dados) :
  wf_heap h -> (parent < length h)%nat -> wf_heap (pushed h parent node).
Proof.
  intros Hwf Hp. constructor.
  - rewrite length_pushed. lia.
  - intros p c. rewrite length_pushed, filhos_pushed by exact Hp.
    destruct (Nat.eqb_spec p parent) as [->|Hne].
    + intros Hc. apply in_app_or in Hc. destruct Hc as [Hc|[<-|[]]]; [|lia].
      apply (wf_order h Hwf) in Hc. lia.
    + intros Hc. apply (wf_order h Hwf) in Hc. lia.
  - intros p p' c. rewrite !filhos_pushed by exact Hp.
    destruct (Nat.eqb_spec p parent) as [->|Hne];
      destruct (Nat.eqb_spec p' parent) as [->|Hne']; intros Hc Hc'; try reflexivity.
    + apply in_app_or in Hc. destruct Hc as [Hc|[<-|[]]].
      * apply (wf_unique h Hwf _ _ _ Hc Hc').
      * apply (wf_order h Hwf) in Hc'. lia.
    + apply in_app_or in Hc'. destruct Hc' as [Hc'|[<-|[]]].
      * apply (wf_unique h Hwf _ _ _ Hc Hc').
      * apply (wf_order h Hwf) in Hc. lia.
    + apply (wf_unique h Hwf _ _ _ Hc Hc').
Qed.

Lemma filhos_pushed_mono (h : heap) (parent : nat) (node : dados) :
  (parent < length h)%nat ->
  forall p c, In c (filhos_of h p) -> In c (filhos_of (pushed h parent node) p).
Proof.
  intros Hp p c Hc. rewrite filhos_pushed by exact Hp.
  destruct (Nat.eqb_spec p parent) as [->|Hne]; [|exact Hc].
  apply in_or_app. now left.
Qed.

(** *** The heap after a continuation line *)

Lemma filhos_continuation (h : heap) (id : nat) (g : dados -> dados) (p : nat) :
  filhos_of (update_nth id (fun o => mk_objeto (g (dados_de o)) (filhos o)) h) p
  = filhos_of h p.
Proof.
  unfold filhos_of. rewrite nth_error_update_nth.
  destruct (p =? id)%nat; [|reflexivity].
  now destruct (nth_error h p).
Qed.

Lemma wf_continuation (h : heap) (id : nat) (g : dados -> dados) :
  wf_heap h ->
  wf_heap (update_nth id (fun o => mk_objeto (g (dados_de o)) (filhos o)) h).
Proof.
  intros [H1 H2 H3]. constructor.
  - now rewrite length_update_nth.
  - intros p c. rewrite filhos_continuation, length_update_nth. apply H2.
  - intros p p' c. rewrite !filhos_continuation. apply H3.
Qed.

(** *** The invariant of the main loop *)

Definition inv (st : build) : Prop :=
  wf_heap (objs st) /\ chain (objs st) (stack st).

Lemma inv_init : inv build_init.
Proof.
  split; [|constructor]. constructor; simpl.
  - lia.
  - intros [|[|p]] c []; simpl.
  - intros [|[|p]] p' c [].
Qed.

Lemma level_of_pos (node : dados) : (1 <= level_of node)%Z.
Proof. unfold level_of, count_char. lia. Qed.

(** One push, from a state that satisfies the invariant. *)
Lemma push_node_spec (node : dados) (st : build) :
  inv st ->
  exists popped pl parent rest,
    stack st = popped ++ (pl, parent) :: rest
    /\ Forall (fun e => (level_of node <= fst e)%Z) popped
    /\ (pl < level_of node)%Z
    /\ (parent < length (objs st))%nat
    /\ chain (objs st) ((pl, parent) :: rest)
    /\ push_node node st =
       Some (mk_build (pushed (objs st) parent node)
               ((level_of node, length (objs st)) :: (pl, parent) :: rest)
               (if str_eqb (tipo node) (lit "item") then Some (length (objs st))
                else last_item_node st)).
Proof.
  intros [Hwf Hc].
  destruct (pop_to_chain _ _ _ Hc (level_of_pos node))
    as (popped & pl & parent & rest & E & Hp & Hall & Hlt & Hc').
  exists popped, pl, parent, rest.
  repeat split; try assumption.
  - apply (chain_top_bound _ _ _ _ Hwf Hc').
  - unfold push_node. rewrite Hp. reflexivity.
Qed.

Lemma inv_push (node : dados) (st st' : build) :
  inv st -> push_node node st = Some st' -> inv st'.
Proof.
  intros Hi Hpush.
  destruct (push_node_spec node st Hi)
    as (popped & pl & parent & rest & E & Hall & Hlt & Hb & Hc' & Hp).
  rewrite Hp in Hpush. injection Hpush as <-. destruct Hi as [Hwf Hc].
  split; simpl.
  - now apply wf_pushed.
  - constructor.
    + apply chain_mono with (h := objs st); [|exact Hc'].
      now apply filhos_pushed_mono.
    + exact Hlt.
    + rewrite filhos_pushed, Nat.eqb_refl by exact Hb.
      apply in_or_app. right. now left.
Qed.

Lemma inv_continuation (ln : str) (sif dyn : list str) (st : build) :
  inv st -> inv (append_continuation ln sif dyn st).
Proof.
  intros [Hwf Hc]. unfold append_continuation.
  destruct (last_item_node st) as [id|]; [|now split].
  set (g := fun d => set_especificacao d
                       (strip (especificacao d ++ [32%N] ++ Sanitizer.clean_inline ln sif dyn))).
  split; simpl.
  - apply (wf_continuation _ id g Hwf).
  - apply chain_mono with (h := objs st); [|exact Hc].
    intros p c Hin. now rewrite (filhos_continuation _ id g).
Qed.

(** *** The main loop keeps the invariant and never raises *)

Section Loop.
Context `{Unicode} `{Patterns}.
Variable cfg : config.

(** The outcome is a state whose tree satisfies the invariant. *)
Definition sound (o : outcome loop) : Prop :=
  exists st', o = Returns st' /\ inv (l_tree st').

Lemma sound_returns (st : loop) : inv (l_tree st) -> sound (Returns st).
Proof. intros Hi. exists st. now split. Qed.

Lemma sound_then_advance (o : outcome loop) : sound o -> sound (then_advance o).
Proof. intros (st' & -> & Hi). exists (advance st'). now split. Qed.

Lemma sound_finalize_buf (buf lookahead : list str) (st : loop) :
  inv (l_tree st) -> sound (finalize_buf cfg buf lookahead st).
Proof.
  intros Hi. unfold finalize_buf.
  destruct (try_finalize_item cfg buf lookahead (l_rel st)) as [[[p|] used] r].
  - destruct (push_node_spec p _ Hi)
      as (popped & pl & parent & rest & _ & _ & _ & _ & _ & Hp).
    pose proof (inv_push p _ _ Hi Hp) as Hi'. rewrite Hp.
    eexists. split; [reflexivity|exact Hi'].
  - eexists. split; [reflexivity|exact Hi].
Qed.

Lemma sound_push_group (item desc total : str) (st : loop) :
  inv (l_tree st) -> sound (push_group item desc total st).
Proof.
  intros Hi. unfold push_group.
  destruct (push_node_spec (grupo (tipo_of item) item desc (strip total)) _ Hi)
    as (popped & pl & parent & rest & _ & _ & _ & _ & _ & Hp).
  pose proof (inv_push _ _ _ Hi Hp) as Hi'. rewrite Hp.
  eexists. split; [reflexivity|exact Hi'].
Qed.

Lemma sound_continue_item (ln : str) (st : loop) :
  inv (l_tree st) -> sound (Returns (advance (continue_item cfg ln st))).
Proof. intros Hi. apply sound_returns. simpl. now apply inv_continuation. Qed.

Lemma sound_continuation_or_noise (ln : str) (st : loop) :
  inv (l_tree st) -> sound (continuation_or_noise cfg ln st).
Proof.
  intros Hi. unfold continuation_or_noise. destruct (can_continue cfg ln st).
  - now apply sound_continue_item.
  - now apply sound_returns.
Qed.

Lemma sound_group_no_total (lines : list str) (item desc : str) (st : loop) :
  inv (l_tree st) -> sound (group_no_total cfg lines item desc st).
Proof.
  intros Hi. unfold group_no_total.
  destruct (S (l_i st) <? length lines)%nat;
    [destruct (RE_ONLY_NUMBER_match _) as [num|]|];
    cbv zeta; repeat match goal with
                     | |- context [if ?b then _ else _] => destruct b
                     end;
    apply sound_then_advance, sound_push_group; exact Hi.
Qed.

Lemma sound_step (lines : list str) (st : loop) :
  inv (l_tree st) -> sound (step cfg lines st).
Proof.
  intros Hi. unfold step. destruct (l_buf st) as [|b buf].
  - destruct (_ || _).
    + destruct (RE_ITEM_TAIL_search _).
      * now apply sound_then_advance, sound_finalize_buf.
      * now apply sound_returns.
    + destruct (RE_GROUP_WITH_TOTAL_match _) as [[[item desc] total]|].
      * destruct (negb _).
        -- destruct (can_continue _ _ _).
           ++ now apply sound_continue_item.
           ++ now apply sound_then_advance, sound_push_group.
        -- now apply sound_then_advance, sound_push_group.
      * destruct (RE_GROUP_NO_TOTAL_match _) as [[item desc]|].
        -- destruct (_is_probable_group_heading _).
           ++ now apply sound_group_no_total.
           ++ now apply sound_continuation_or_noise.
        -- now apply sound_continuation_or_noise.
  - destruct (_looks_like_new_row _).
    + now apply sound_finalize_buf.
    + destruct (RE_ITEM_TAIL_search _).
      * now apply sound_then_advance, sound_finalize_buf.
      * now apply sound_returns.
Qed.

Lemma sound_main_loop (turns : nat) (lines : list str) (st : loop) :
  inv (l_tree st) -> sound (main_loop cfg turns lines st).
Proof.
  revert st. induction turns as [|n IH]; intros st Hi; cbn [main_loop].
  - now apply sound_returns.
  - destruct (l_i st <? length lines)%nat; [|now apply sound_returns].
    destruct (sound_step lines st Hi) as (st' & -> & Hi'). now apply IH.
Qed.

(** Every turn moves [i] forward or empties a non-empty buffer. *)
Definition weight (lines : list str) (st : loop) : nat :=
  2 * (length lines - l_i st) + match l_buf st with [] => 0 | _ => 1 end.

Lemma finalize_buf_shape (buf lookahead : list str) (st st' : loop) :
  finalize_buf cfg buf lookahead st = Returns st' ->
  l_buf st' = [] /\ l_i st <= l_i st'.
Proof.
  unfold finalize_buf.
  destruct (try_finalize_item cfg buf lookahead (l_rel st)) as [[[p|] used] r].
  - destruct (push_node p (l_tree st)); [|discriminate].
    intros [= <-]. simpl. split; [reflexivity|lia].
  - intros [= <-]. simpl. split; [reflexivity|lia].
Qed.

Lemma push_group_shape (item desc total : str) (st st' : loop) :
  push_group item desc total st = Returns st' ->
  l_buf st' = l_buf st /\ l_i st' = l_i st.
Proof.
  unfold push_group. destruct (push_node _ _); [|discriminate].
  intros [= <-]. now split.
Qed.

Lemma then_advance_shape (o : outcome loop) (st' : loop) :
  then_advance o = Returns st' ->
  exists st0, o = Returns st0 /\ l_buf st' = l_buf st0 /\ l_i st' = S (l_i st0).
Proof. destruct o as [st0|e]; [|discriminate]. intros [= <-]. now exists st0. Qed.

Lemma continuation_or_noise_shape (ln : str) (st st' : loop) :
  continuation_or_noise cfg ln st = Returns st' ->
  l_buf st' = l_buf st /\ l_i st' = S (l_i st).
Proof.
  unfold continuation_or_noise. destruct (can_continue cfg ln st);
    intros [= <-]; now split.
Qed.

Lemma group_no_total_shape (lines : list str) (item desc : str) (st st' : loop) :
  group_no_total cfg lines item desc st = Returns st' ->
  l_buf st' = l_buf st /\ l_i st < l_i st'.
Proof.
  unfold group_no_total.
  destruct (S (l_i st) <? length lines)%nat;
    [destruct (RE_ONLY_NUMBER_match _) as [num|]|];
    cbv zeta; repeat match goal with
                     | |- context [if ?b then _ else _] => destruct b
                     end;
    intros E; apply then_advance_shape in E; destruct E as (st0 & E & -> & ->);
    apply push_group_shape in E; destruct E as [-> ->]; simpl; split;
    try reflexivity; lia.
Qed.

Lemma step_decreases (lines : list str) (st st' : loop) :
  l_i st < length lines ->
  step cfg lines st = Returns st' ->
  weight lines st' < weight lines st.
Proof.
  intros Hlt. unfold step, weight. destruct (l_buf st) as [|b buf] eqn:Eb.
  - destruct (_ || _).
    + destruct (RE_ITEM_TAIL_search _).
      * intros E. apply then_advance_shape in E. destruct E as (st0 & E & -> & ->).
        apply finalize_buf_shape in E. destruct E as [-> Hi]. lia.
      * intros [= <-]. simpl. lia.
    + destruct (RE_GROUP_WITH_TOTAL_match _) as [[[item desc] total]|].
      * destruct (negb _); [destruct (can_continue _ _ _)|].
        -- intros [= <-]. simpl. rewrite Eb. lia.
        -- intros E. apply then_advance_shape in E. destruct E as (st0 & E & -> & ->).
           apply push_group_shape in E. destruct E as [-> ->]. simpl. rewrite Eb. lia.
        -- intros E. apply then_advance_shape in E. destruct E as (st0 & E & -> & ->).
           apply push_group_shape in E. destruct E as [-> ->]. rewrite Eb. lia.
      * assert (Hnoise : forall ln, continuation_or_noise cfg ln st = Returns st' ->
                  2 * (length lines - l_i st')
                  + match l_buf st' with [] => 0 | _ :: _ => 1 end
                  < 2 * (length lines - l_i st) + 0).
        { intros ln E. apply continuation_or_noise_shape in E.
          destruct E as [-> ->]. rewrite Eb. lia. }
        destruct (RE_GROUP_NO_TOTAL_match _) as [[item desc]|]; [|apply Hnoise].
        destruct (_is_probable_group_heading _); [|apply Hnoise].
        intros E. apply group_no_total_shape in E. destruct E as [-> Hi].
        rewrite Eb. lia.
  - destruct (_looks_like_new_row _).
    + intros E. apply finalize_buf_shape in E. destruct E as [-> Hi]. lia.
    + destruct (RE_ITEM_TAIL_search _).
      * intros E. apply then_advance_shape in E. destruct E as (st0 & E & -> & ->).
        apply finalize_buf_shape in E. destruct E as [-> Hi]. lia.
      * intros [= <-]. simpl. lia.
Qed.

(** With [weight] turns the loop runs to its end: [i >= len(lines)]. *)
Lemma main_loop_completes (turns : nat) (lines : list str) (st : loop) :
  inv (l_tree st) -> weight lines st <= turns ->
  exists st', main_loop cfg turns lines st = Returns st'
              /\ inv (l_tree st') /\ length lines <= l_i st'.
Proof.
  revert st. induction turns as [|n IH]; intros st Hi Hw; cbn [main_loop].
  - exists st. split; [reflexivity|]. split; [exact Hi|]. unfold weight in Hw. lia.
  - destruct (l_i st <? length lines)%nat eqn:E.
    + apply Nat.ltb_lt in E.
      destruct (sound_step lines st Hi) as (st' & Es & Hi'). rewrite Es.
      apply IH; [exact Hi'|]. pose proof (step_decreases lines st st' E Es). lia.
    + apply Nat.ltb_ge in E. exists st. split; [reflexivity|]. now split.
Qed.

(** More turns than needed change nothing. *)
Lemma main_loop_done (turns : nat) (lines : list str) (st : loop) :
  length lines <= l_i st -> main_loop cfg turns lines st = Returns st.
Proof.
  intros Hle. destruct turns; cbn [main_loop]; [reflexivity|].
  apply Nat.ltb_ge in Hle. now rewrite Hle.
Qed.

Lemma sound_flush (st : loop) : inv (l_tree st) -> sound (flush cfg st).
Proof.
  intros Hi. unfold flush. destruct (l_buf st) as [|b buf].
  - now apply sound_returns.
  - destruct (sound_finalize_buf (b :: buf) [] st Hi) as (st' & -> & Hi').
    eexists. split; [reflexivity|exact Hi'].
Qed.

(** The roots of the tree that a state of the loop holds. *)
Definition roots_of (st : loop) : list arvore :=
  map (reify (length (objs (l_tree st))) (objs (l_tree st)))
    (filhos_of (objs (l_tree st)) 0).

(** The end of the pass, case by case. *)
Lemma validate_and_build_cases `{Runtime} (roots : list arvore) (itens_plano : list str)
    (rel : relatorio) :
  validate_and_build cfg roots itens_plano rel
  = if negb (stack_allows (missing_total_value cfg) roots) then Raises RecursionError
    else if negb (model_accepts roots) then Raises ValidationError
    else Returns (roots, itens_plano,
                  snd (_validate_tree_math (tol_group_abs cfg) (tol_group_rel cfg)
                         (missing_total_value cfg) (report_all_group_checks cfg)
                         roots rel)).
Proof.
  unfold validate_and_build. destruct (negb (stack_allows _ _)); [reflexivity|].
  now destruct (_validate_tree_math _ _ _ _ _ _).
Qed.

(** The pushes of the loop never find the stack empty: without lines
    [_parse_orcamento_sintetico] returns at once, and otherwise the loop
    and the last buffer leave a state whose tree goes to the validation
    and the response model. *)
Lemma parse_orcamento_reaches_end `{Runtime} (pages_text : list str) :
  _parse_orcamento_sintetico cfg pages_text
  = Returns ([], [], mk_relatorio [] [ErroNenhumaLinha] [])
  \/ exists lines st0 st,
       lines <> []
       /\ main_loop cfg (2 * length lines + 1) lines loop_init = Returns st0
       /\ flush cfg st0 = Returns st
       /\ inv (l_tree st)
       /\ _parse_orcamento_sintetico cfg pages_text
          = validate_and_build cfg (roots_of st) (l_plano st) (l_rel st).
Proof.
  unfold _parse_orcamento_sintetico. cbv zeta.
  destruct (select_lines false _) as [|l lines] eqn:El; [now left|]. right.
  destruct (sound_main_loop (2 * length (l :: lines) + 1) (l :: lines) loop_init inv_init)
    as (st0 & E0 & Hi).
  destruct (sound_flush st0 Hi) as (st & E & Hi').
  exists (l :: lines), st0, st.
  split; [discriminate|]. split; [exact E0|]. split; [exact E|]. split; [exact Hi'|].
  rewrite E0, E. reflexivity.
Qed.

End Loop.

End TreeFacts.

Module TreeClaims.
Import PyFacts Parser TreeFacts Exemplos.

Section Loop.
Context `{Unicode} `{Patterns}.
Variable cfg : config.

(** C1, as the code has it: on every list of budget lines the main loop
    never raises and, in the state it has reached after any number of
    turns, a push succeeds; the level recorded for the new node on the
    build stack is the number of dots of its [item] plus one; the node
    becomes the last child of the nearest entry of the stack whose level is
    strictly smaller (every entry above it, of level greater or equal, is
    popped); and the depth of the node in the tree is the number of
    entries that remain below it on the stack, which is at most the dot
    count plus one. *)
Theorem push_node_nests_under_nearest_lower_level (turns : nat) (lines : list str) :
  exists st,
    main_loop cfg turns lines loop_init = Returns st
    /\ forall node,
        exists popped pl parent rest t',
          stack (l_tree st) = popped ++ (pl, parent) :: rest
          /\ Forall (fun e => (count_char (item node) 46%N + 1 <= fst e)%Z) popped
          /\ (pl < count_char (item node) 46%N + 1)%Z
          /\ push_node node (l_tree st) = Some t'
          /\ stack t' =
             (count_char (item node) 46%N + 1, length (objs (l_tree st)))%Z
               :: (pl, parent) :: rest
          /\ nth_error (objs t') (length (objs (l_tree st))) = Some (mk_objeto node [])
          /\ filhos_of (objs t') parent
             = filhos_of (objs (l_tree st)) parent ++ [length (objs (l_tree st))]
          /\ parent_of (objs t') (length (objs (l_tree st))) = Some parent
          /\ depth_of (objs t') (length (objs (l_tree st))) = Some (S (length rest))
          /\ (Z.of_nat (S (length rest)) <= count_char (item node) 46%N + 1)%Z.
Proof.
  destruct (sound_main_loop cfg turns lines loop_init inv_init) as (st & Hrun & Hi).
  exists st. split; [exact Hrun|]. intros node.
  destruct (push_node_spec node (l_tree st) Hi)
    as (popped & pl & parent & rest & E & Hall & Hlt & Hb & Hc' & Hp).
  pose proof (inv_push node (l_tree st) _ Hi Hp) as [Hwf' Hch'].
  simpl in Hwf', Hch'.
  eexists popped, pl, parent, rest, _.
  split; [exact E|]. split; [exact Hall|]. split; [exact Hlt|].
  split; [exact Hp|]. cbn [stack objs].
  split; [reflexivity|].
  split; [apply nth_error_pushed_new|].
  assert (Hf : filhos_of (pushed (objs (l_tree st)) parent node) parent
               = filhos_of (objs (l_tree st)) parent ++ [length (objs (l_tree st))]).
  { rewrite filhos_pushed, Nat.eqb_refl by exact Hb. reflexivity. }
  split; [exact Hf|].
  split.
  { apply parent_of_child; [exact Hwf'|]. rewrite Hf. apply in_or_app. right. now left. }
  split.
  - apply (chain_depth_of _ _ _ _ Hwf' Hch').
  - pose proof (chain_level _ _ Hc' pl parent rest eq_refl).
    fold (level_of node) in Hlt |- *. rewrite Nat2Z.inj_succ. lia.
Qed.

End Loop.

(** The items of the roots of a tree with those of their children. *)
Definition outline (roots : list arvore) : list (str * list str) :=
  map (fun n => (item (dados_da n), map (fun c => item (dados_da c)) (filhos_da n))) roots.

(** C1, as stated, fails.  On a page with the lines "9 Servicos 100,00"
    and "9.4.1 Estacas 50,00" (no heading "9.4" in between) the node "9.4.1"
    is a child of "9", at depth 2, though its dot count plus one is 3.
    And on the headings "9", "9.4", "9.5", "9.4.1" the node "9.4.1" hangs
    under "9.5", not under "9.4". *)
Lemma push_node_depth_differs_from_dot_count :
  (exists roots plano r st,
      @_parse_orcamento_sintetico Ascii7.db (@Re.patterns Ascii7.db) ex_runtime ex_cfg
        [lit "9 Servicos 100,00" ++ [10%N] ++ lit "9.4.1 Estacas 50,00"]
      = Returns (roots, plano, r)
      /\ outline roots = [(lit "9", [lit "9.4.1"])]
      /\ @main_loop Ascii7.db (@Re.patterns Ascii7.db) ex_cfg 5
           [lit "9 Servicos 100,00"; lit "9.4.1 Estacas 50,00"] loop_init = Returns st
      /\ l_i st = 2%nat
      /\ option_map (fun o => item (dados_de o)) (nth_error (objs (l_tree st)) 2)
         = Some (lit "9.4.1")
      /\ depth_of (objs (l_tree st)) 2 = Some 2%nat
      /\ parent_of (objs (l_tree st)) 2 = Some 1%nat
      /\ (count_char (lit "9.4.1") 46%N + 1 = 3)%Z)
  /\ (exists st,
        @main_loop Ascii7.db (@Re.patterns Ascii7.db) ex_cfg 9
          [lit "9 Servicos 100,00"; lit "9.4 Estacas 50,00"; lit "9.5 Blocos 50,00";
           lit "9.4.1 Helice 50,00"] loop_init = Returns st
        /\ l_i st = 4%nat
        /\ option_map (fun o => item (dados_de o)) (nth_error (objs (l_tree st)) 4)
           = Some (lit "9.4.1")
        /\ option_map (fun o => item (dados_de o)) (nth_error (objs (l_tree st)) 3)
           = Some (lit "9.5")
        /\ option_map (fun o => item (dados_de o)) (nth_error (objs (l_tree st)) 2)
           = Some (lit "9.4")
        /\ parent_of (objs (l_tree st)) 4 = Some 3%nat).
Proof.
  split.
  - do 4 eexists. split; [vm_compute; reflexivity|].
    split; [vm_compute; reflexivity|].
    split; [vm_compute; reflexivity|].
    vm_compute. repeat split; reflexivity.
  - eexists. split; [vm_compute; reflexivity|]. vm_compute. repeat split; reflexivity.
Qed.

End TreeClaims.

(** ** The two number parsers *)

Module NumberFacts.
Import PyFacts.

Lemma replace_one_cons (a : char) (new : str) (c : char) (s : str) :
  replace_go [a] new 0 (c :: s) =
  (if char_eqb a c then new else [c]) ++ replace_go [a] new 0 s.
Proof.
  cbn [replace_go startswith]. destruct (char_eqb a c); reflexivity.
Qed.

Lemma replace_one_absent (a : char) (new : str) (s : str) :
  Forall (fun c => c <> a) s -> replace s [a] new = s.
Proof.
  unfold replace. induction 1 as [|c s Hc Hs IH]; [reflexivity|].
  rewrite replace_one_cons, IH.
  destruct (char_eqb a c) eqn:E; [|reflexivity]. apply char_eqb_eq in E. congruence.
Qed.

Lemma replace_one_app (a : char) (new : str) (s t : str) :
  replace (s ++ t) [a] new = replace s [a] new ++ replace t [a] new.
Proof.
  unfold replace. induction s as [|c s IH]; [reflexivity|].
  cbn [app]. rewrite !replace_one_cons, IH. now rewrite app_assoc.
Qed.

Lemma replace_one_spaces (a b : char) (w : str) :
  is_space b = true ->
  Forall (fun c => is_space c = true) w ->
  Forall (fun c => is_space c = true) (replace w [a] [b]).
Proof.
  intros Hb. unfold replace. induction 1 as [|c w Hc Hw IH]; [constructor|].
  rewrite replace_one_cons.
  destruct (char_eqb a c); simpl; constructor; assumption.
Qed.

(** A text without an occurrence of [old] is left alone by [replace]. *)
Lemma find_from_none (s m : str) (i : Z) :
  (0 <= i)%Z -> find_from s m i = (-1)%Z ->
  startswith s m = false
  /\ match s with [] => True | _ :: s' => find_from s' m (i + 1) = (-1)%Z end.
Proof.
  intros Hi. destruct s as [|c s]; simpl.
  - destruct (startswith [] m); [lia | auto].
  - destruct (startswith (c :: s) m); [lia | auto].
Qed.

Lemma replace_absent_from (s old new : str) (i : Z) :
  (0 <= i)%Z -> find_from s old i = (-1)%Z -> replace_go old new 0 s = s.
Proof.
  revert i. induction s as [|c s IH]; intros i Hi Hf; [reflexivity|].
  destruct (find_from_none _ _ _ Hi Hf) as [E Hf'].
  cbn [replace_go]. rewrite E. f_equal. apply (IH (i + 1)%Z); [lia | exact Hf'].
Qed.

Lemma replace_absent (s old new : str) :
  contains old s = false -> replace s old new = s.
Proof.
  unfold contains, find, replace. rewrite negb_false_iff, Z.eqb_eq.
  now apply replace_absent_from.
Qed.

(** *** Whitespace around a text without whitespace *)

Definition spaces (w : str) : Prop := Forall (fun c => is_space c = true) w.
Definition solid (s : str) : Prop := Forall (fun c => is_space c = false) s.

Lemma lstrip_spaces (s : str) : exists w, s = w ++ lstrip s /\ spaces w.
Proof.
  induction s as [|c s (w & E & Hw)]; simpl.
  - exists []. split; [reflexivity | constructor].
  - destruct (is_space c) eqn:Ec.
    + exists (c :: w). split; [simpl; congruence | now constructor].
    + exists []. split; [reflexivity | constructor].
Qed.

Lemma rstrip_spaces (s : str) : exists w, s = rstrip s ++ w /\ spaces w.
Proof.
  unfold rstrip. destruct (lstrip_spaces (rev s)) as (w & E & Hw).
  exists (rev w). split.
  - rewrite <- rev_app_distr, <- E. now rewrite rev_involutive.
  - unfold spaces. apply Forall_rev. exact Hw.
Qed.

Lemma strip_spaces (s : str) :
  exists w1 w2, s = w1 ++ strip s ++ w2 /\ spaces w1 /\ spaces w2.
Proof.
  destruct (lstrip_spaces s) as (w1 & E1 & H1).
  destruct (rstrip_spaces (lstrip s)) as (w2 & E2 & H2).
  exists w1, w2. unfold strip. rewrite <- E2. auto.
Qed.

Lemma lstrip_spaces_app (w t : str) : spaces w -> lstrip (w ++ t) = lstrip t.
Proof.
  induction 1 as [|c w Hc Hw IH]; [reflexivity|]. simpl. now rewrite Hc.
Qed.

Lemma lstrip_all_spaces (w : str) : spaces w -> lstrip w = [].
Proof.
  intro Hw. rewrite <- (app_nil_r w). now rewrite lstrip_spaces_app.
Qed.

Lemma strip_padded (w1 w2 s : str) :
  spaces w1 -> spaces w2 -> hd_ok s -> hd_ok (rev s) -> strip (w1 ++ s ++ w2) = s.
Proof.
  intros H1 H2 Hh Hl. unfold strip. rewrite (lstrip_spaces_app _ _ H1).
  destruct s as [|c s].
  - simpl. rewrite (lstrip_all_spaces _ H2). reflexivity.
  - simpl in Hh. cbn [app lstrip]. rewrite Hh. unfold rstrip.
    change (c :: s ++ w2) with ((c :: s) ++ w2).
    rewrite rev_app_distr, lstrip_spaces_app by (apply Forall_rev; exact H2).
    rewrite (lstrip_id _ Hl). apply rev_involutive.
Qed.

Lemma sub_ws1_spaces (b : bool) (w t : str) :
  spaces w -> w <> [] ->
  sub_ws1 b (w ++ t) = (if b then [] else [32%N]) ++ sub_ws1 true t.
Proof.
  intros Hw. revert b. induction Hw as [|c w Hc Hw IH]; intros b Hne; [congruence|].
  cbn [app sub_ws1]. rewrite Hc. destruct w as [|d w].
  - destruct b; reflexivity.
  - destruct b.
    + now rewrite (IH true) by discriminate.
    + rewrite (IH true) by discriminate. reflexivity.
Qed.

Lemma sub_ws1_solid (b : bool) (s t : str) :
  solid s -> s <> [] -> sub_ws1 b (s ++ t) = s ++ sub_ws1 false t.
Proof.
  intros Hs. revert b. induction Hs as [|c s Hc Hs IH]; intros b Hne; [congruence|].
  cbn [app sub_ws1]. rewrite Hc. destruct s as [|d s].
  - reflexivity.
  - f_equal. apply IH. discriminate.
Qed.

Lemma sub_ws1_only_spaces (b : bool) (w : str) :
  spaces w -> spaces (sub_ws1 b w).
Proof.
  intros Hw. revert b. induction Hw as [|c w Hc Hw IH]; intros b; [constructor|].
  cbn [sub_ws1]. rewrite Hc. destruct b; [apply IH|].
  constructor; [reflexivity | apply IH].
Qed.

Lemma solid_ends (s : str) : solid s -> hd_ok s /\ hd_ok (rev s).
Proof.
  intros Hs. split.
  - destruct s; [exact I|]. simpl. now inversion Hs.
  - assert (Hr : solid (rev s)) by (apply Forall_rev; exact Hs).
    destruct (rev s); [exact I|]. simpl. now inversion Hr.
Qed.

Lemma collapse_core (v1 v2 s : str) :
  spaces v1 -> spaces v2 -> solid s -> s <> [] ->
  strip (sub_ws1 false (v1 ++ s ++ v2)) = s.
Proof.
  intros H1 H2 Hs Hne. destruct (solid_ends s Hs) as [Hh Hl].
  assert (E : exists u1 u2, sub_ws1 false (v1 ++ s ++ v2) = u1 ++ s ++ u2
                            /\ spaces u1 /\ spaces u2).
  { destruct v1 as [|c v1].
    - simpl. rewrite (sub_ws1_solid _ _ _ Hs Hne).
      exists [], (sub_ws1 false v2). repeat split; [constructor|].
      now apply sub_ws1_only_spaces.
    - rewrite (sub_ws1_spaces false _ _ H1) by discriminate.
      rewrite (sub_ws1_solid _ _ _ Hs Hne).
      exists [32%N], (sub_ws1 false v2). repeat split.
      + repeat constructor.
      + now apply sub_ws1_only_spaces. }
  destruct E as (u1 & u2 & E & Hu1 & Hu2). rewrite E.
  now apply strip_padded.
Qed.

(** Collapsing the whitespace of a padded text that has none inside gives
    the text back. *)
Lemma collapse_padded (w1 w2 s : str) :
  spaces w1 -> spaces w2 -> solid s -> s <> [] ->
  Composicoes.colapsar_espacos (w1 ++ s ++ w2) = s.
Proof.
  intros H1 H2 Hs Hne. unfold Composicoes.colapsar_espacos.
  rewrite !replace_one_app.
  rewrite (replace_one_absent 10%N [32%N] s).
  2:{ eapply Forall_impl; [|exact Hs]. intros c Hc ->. discriminate. }
  apply collapse_core; try assumption; now apply replace_one_spaces.
Qed.

End NumberFacts.

Module NumberClaims.
Import PyFacts NumberFacts Money Composicoes.

Section Numbers.
Context `{Unicode}.

(** The characters of a text that [_PTBR_RE] matches. *)
Definition numchar (c : char) : Prop :=
  is_digit c = true \/ c = 45%N \/ c = 46%N \/ c = 44%N.

Definition number_text (s : str) : Prop :=
  exists a b, s = a ++ b /\ Forall numchar a /\ (b = [] \/ b = [10%N]).

Lemma numchar_solid (c : char) : numchar c -> is_space c = false.
Proof.
  intros [Hd | [-> | [-> | ->]]]; try reflexivity.
  unfold is_digit in Hd. destruct (to_decimal c) as [d|] eqn:E; [|discriminate].
  apply (decimal_not_space c d E).
Qed.

Lemma number_text_cons (c : char) (r : str) :
  numchar c -> number_text r -> number_text (c :: r).
Proof.
  intros Hc (a & b & -> & Ha & Hb). exists (c :: a), b. repeat split; auto.
Qed.

Lemma at_end_text (s : str) : at_end s = true -> number_text s.
Proof.
  destruct s as [|c [|d s]]; simpl; try discriminate.
  - intros _. exists [], []. repeat split; auto.
  - intros E. apply N.eqb_eq in E. subst. exists [], [10%N]. repeat split; auto.
Qed.

Lemma digits_end_text (s : str) : digits_end s = true -> number_text s.
Proof.
  induction s as [|d r IH]; [discriminate|]. cbn [digits_end].
  intros E. apply andb_true_iff in E. destruct E as [Hd E].
  apply number_text_cons; [now left|].
  apply orb_true_iff in E. destruct E as [E|E]; [now apply at_end_text | now apply IH].
Qed.

Lemma frac_end_text (s : str) : frac_end s = true -> number_text s.
Proof.
  unfold frac_end. intros E. apply orb_true_iff in E.
  destruct E as [E|E]; [now apply at_end_text|].
  destruct s as [|c r]; [discriminate|].
  apply andb_true_iff in E. destruct E as [Ec E]. apply N.eqb_eq in Ec. subst.
  apply number_text_cons; [right; right; now right | now apply digits_end_text].
Qed.

Lemma groups_end_eq (s : str) :
  groups_end s =
  frac_end s
  || match s with
     | c :: d1 :: d2 :: d3 :: r =>
         (c =? 46)%N && is_digit d1 && is_digit d2 && is_digit d3 && groups_end r
     | _ => false
     end.
Proof. destruct s; reflexivity. Qed.

Lemma groups_end_text (n : nat) (s : str) :
  (length s <= n)%nat -> groups_end s = true -> number_text s.
Proof.
  revert s. induction n as [|n IH]; intros s Hn; rewrite groups_end_eq; intros E;
    apply orb_true_iff in E; destruct E as [E|E]; try (now apply frac_end_text).
  - destruct s; [discriminate | simpl in Hn; lia].
  - destruct s as [|c [|d1 [|d2 [|d3 r]]]]; try discriminate.
    repeat (apply andb_true_iff in E; destruct E as [E ?]).
    apply N.eqb_eq in E. subst c.
    apply number_text_cons; [right; right; now left|].
    repeat (apply number_text_cons; [now left|]).
    apply IH; [simpl in Hn; lia | assumption].
Qed.

Lemma digits_1_3_text (k : str -> bool) (s : str) :
  (forall r, k r = true -> number_text r) ->
  digits_1_3 k s = true -> number_text s.
Proof.
  intros Hk. unfold digits_1_3.
  destruct s as [|d1 r1]; [discriminate|]. intros E.
  apply andb_true_iff in E. destruct E as [H1 E].
  apply number_text_cons; [now left|].
  apply orb_true_iff in E. destruct E as [E|E]; [now apply Hk|].
  destruct r1 as [|d2 r2]; [discriminate|].
  apply andb_true_iff in E. destruct E as [H2 E].
  apply number_text_cons; [now left|].
  apply orb_true_iff in E. destruct E as [E|E]; [now apply Hk|].
  destruct r2 as [|d3 r3]; [discriminate|].
  apply andb_true_iff in E. destruct E as [H3 E].
  apply number_text_cons; [now left | now apply Hk].
Qed.

Lemma digits_frac_end_text (s : str) : digits_frac_end s = true -> number_text s.
Proof.
  induction s as [|d r IH]; [discriminate|]. cbn [digits_frac_end].
  intros E. apply andb_true_iff in E. destruct E as [Hd E].
  apply number_text_cons; [now left|].
  apply orb_true_iff in E. destruct E as [E|E]; [now apply frac_end_text | now apply IH].
Qed.

Lemma opt_minus_text (k : str -> bool) (s : str) :
  (forall r, k r = true -> number_text r) ->
  opt_minus k s = true -> number_text s.
Proof.
  intros Hk. unfold opt_minus. destruct s as [|c r]; [apply Hk|].
  intros E. apply orb_true_iff in E. destruct E as [E|E]; [|now apply Hk].
  apply andb_true_iff in E. destruct E as [Ec E]. apply N.eqb_eq in Ec. subst.
  apply number_text_cons; [right; now left | now apply Hk].
Qed.

Lemma PTBR_RE_text (s : str) : _PTBR_RE_match s = true -> number_text s.
Proof.
  unfold _PTBR_RE_match. intros E. apply orb_true_iff in E. destruct E as [E|E].
  - apply (opt_minus_text _ _ (fun r => digits_1_3_text _ r
             (fun r' => groups_end_text (length r') r' (le_n _))) E).
  - apply (opt_minus_text _ _ digits_frac_end_text E).
Qed.

(** A matched text that does not end in a newline has no whitespace. *)
Lemma PTBR_RE_solid (s : str) :
  _PTBR_RE_match s = true -> hd_ok (rev s) -> solid s.
Proof.
  intros E Hl. destruct (PTBR_RE_text s E) as (a & b & -> & Ha & [-> | ->]).
  - rewrite app_nil_r. eapply Forall_impl; [|exact Ha]. apply numchar_solid.
  - rewrite rev_app_distr in Hl. simpl in Hl. discriminate.
Qed.

(** C5, as the code has it: the two parsers are different functions, but
    whenever the budget parser [parse_ptbr_number] returns a number for a
    text that, once stripped, holds no currency prefix "R$" and no blank,
    the extractor's [parse_pt_number] returns the same number. *)
Theorem parse_pt_number_agrees_on_plain_numbers (value : str) (x : float) :
  contains (lit "R$") (strip value) = false ->
  contains [32%N] (strip value) = false ->
  parse_ptbr_number value = Some x ->
  parse_pt_number value = Some x.
Proof.
  intros Hr Hb. unfold parse_ptbr_number, parse_pt_number.
  rewrite (replace_absent _ _ [] Hr), (replace_absent _ _ [] Hb).
  destruct (strip_spaces value) as (w1 & w2 & E & H1 & H2).
  pose proof (strip_last value) as Hl.
  remember (strip value) as s1 eqn:Es1. clear Es1 Hr Hb. subst value.
  destruct (truthy s1) eqn:Ht; [|discriminate]. simpl.
  destruct (_PTBR_RE_match s1) eqn:Em; [|discriminate]. simpl.
  pose proof (PTBR_RE_solid s1 Em Hl) as Hs.
  assert (Hne : s1 <> []) by (intros ->; discriminate).
  rewrite (collapse_padded w1 w2 s1 H1 H2 Hs Hne), Ht. simpl. auto.
Qed.

End Numbers.

Lemma parse_pt_number_agrees_on_plain_numbers_witness :
  @parse_pt_number Ascii7.db (lit " 1.234,56 ") = Some 1234.56%float.
Proof.
  apply (@parse_pt_number_agrees_on_plain_numbers Ascii7.db (lit " 1.234,56 "));
    vm_compute; reflexivity.
Defined.

(** C5, as stated, fails: the extractor's parser does not strip the
    currency prefix, takes the blanks inside a number for an error, and
    accepts texts that the pattern of the budget parser rejects. *)
Lemma parse_pt_number_differs :
  @parse_ptbr_number Ascii7.db (lit "R$ 10,00") = Some 10%float
  /\ @parse_pt_number Ascii7.db (lit "R$ 10,00") = None
  /\ @parse_ptbr_number Ascii7.db (lit "1.2.3") = None
  /\ @parse_pt_number Ascii7.db (lit "1.2.3") = Some 123%float
  /\ @parse_ptbr_number Ascii7.db (lit "1e3") = None
  /\ @parse_pt_number Ascii7.db (lit "1e3") = Some 1000%float.
Proof. vm_compute. repeat split; reflexivity. Qed.

End NumberClaims.

(** ** The choice of the best candidate *)

Module CandidateFacts.
Import PyFacts Composicoes.

(** The order on the pairs (difference of length, minus the longer
    length) by which candidates are compared. *)
Definition key_lt (a b : Z * Z) : Prop :=
  (fst a < fst b)%Z \/ (fst a = fst b /\ (snd a < snd b)%Z).

Definition key_le (a b : Z * Z) : Prop :=
  (fst a < fst b)%Z \/ (fst a = fst b /\ (snd a <= snd b)%Z).

Lemma key_le_antisym (a b : Z * Z) : key_le a b -> key_le b a -> a = b.
Proof.
  destruct a as [a1 a2], b as [b1 b2]. unfold key_le. simpl.
  intros [H1|[H1 H2]] [H3|[H3 H4]]; try lia. f_equal; lia.
Qed.

Lemma key_le_lt_trans (a b c : Z * Z) : key_le a b -> key_lt b c -> key_lt a c.
Proof. unfold key_le, key_lt. intros [H1|[H1 H2]] [H3|[H3 H4]]; lia. Qed.

Lemma key_lt_le_trans (a b c : Z * Z) : key_lt a b -> key_le b c -> key_lt a c.
Proof. unfold key_le, key_lt. intros [H1|[H1 H2]] [H3|[H3 H4]]; lia. Qed.

Lemma key_lt_irrefl (a : Z * Z) : ~ key_lt a a.
Proof. unfold key_lt. lia. Qed.

Lemma key_le_not_lt (a b : Z * Z) : key_le a b -> ~ key_lt a b -> a = b.
Proof.
  destruct a as [a1 a2], b as [b1 b2]. unfold key_le, key_lt. simpl.
  intros [H1|[H1 H2]] Hn; [lia|]. f_equal; lia.
Qed.

Lemma key_le_neq_lt (a b : Z * Z) : key_le a b -> a <> b -> key_lt a b.
Proof.
  destruct a as [a1 a2], b as [b1 b2]. unfold key_le, key_lt. simpl.
  intros [H1|[H1 H2]] Hn; [now left|]. right. split; [exact H1|].
  destruct (Z.eq_dec a2 b2); [subst; congruence | lia].
Qed.

(** *** The order of the sort *)

Lemma str_leb_total (a b : str) : str_leb a b = true \/ str_leb b a = true.
Proof.
  revert b. induction a as [|x a IH]; intros [|y b]; simpl; auto.
  destruct (N.lt_trichotomy x y) as [Hlt|[Heq|Hgt]].
  - left. now rewrite (proj2 (N.ltb_lt _ _) Hlt).
  - subst. rewrite N.ltb_irrefl, N.eqb_refl. simpl. apply IH.
  - right. now rewrite (proj2 (N.ltb_lt _ _) Hgt).
Qed.

Lemma str_leb_trans (a b c : str) :
  str_leb a b = true -> str_leb b c = true -> str_leb a c = true.
Proof.
  revert b c. induction a as [|x a IH]; intros [|y b] [|z c]; simpl; auto;
    try discriminate.
  rewrite !orb_true_iff, !andb_true_iff, !N.ltb_lt, !N.eqb_eq.
  intros [H1|[H1 H2]] [H3|[H3 H4]]; try (left; lia).
  right. split; [congruence | eauto].
Qed.

Definition le_s (a b : scored) : Prop := scored_leb a b = true.

Lemma scored_leb_iff (a b : scored) :
  scored_leb a b = true <->
  key_lt (fst a) (fst b) \/ (fst a = fst b /\ str_leb (snd a) (snd b) = true).
Proof.
  destruct a as [[a1 a2] a3], b as [[b1 b2] b3]. unfold scored_leb, key_lt. simpl.
  rewrite !orb_true_iff, !andb_true_iff, !orb_true_iff, !andb_true_iff,
    !Z.ltb_lt, !Z.eqb_eq.
  split.
  - intros [H|[H1 [H2|[H2 H3]]]]; auto. right. split; [congruence | exact H3].
  - intros [[H|[H1 H2]]|[H1 H2]]; auto. inversion H1; subst. auto.
Qed.

Lemma le_s_key (a b : scored) : le_s a b -> key_le (fst a) (fst b).
Proof.
  intros H. apply scored_leb_iff in H. destruct H as [[H|[H1 H2]]|[H1 H2]].
  - now left.
  - right. split; [exact H1 | lia].
  - rewrite H1. right. split; [reflexivity | lia].
Qed.

Lemma le_s_total (a b : scored) : le_s a b \/ le_s b a.
Proof.
  unfold le_s. rewrite !scored_leb_iff.
  destruct a as [[a1 a2] a3], b as [[b1 b2] b3]. unfold key_lt. simpl.
  destruct (Z.lt_trichotomy a1 b1) as [H|[H|H]]; auto.
  destruct (Z.lt_trichotomy a2 b2) as [H'|[H'|H']]; subst; auto.
  destruct (str_leb_total a3 b3); auto.
Qed.

Lemma le_s_trans (a b c : scored) : le_s a b -> le_s b c -> le_s a c.
Proof.
  unfold le_s. rewrite !scored_leb_iff.
  intros [H1|[H1 H2]] [H3|[H3 H4]].
  - left. unfold key_lt in *. lia.
  - left. now rewrite <- H3.
  - left. now rewrite H1.
  - right. split; [congruence | eapply str_leb_trans; eassumption].
Qed.

Lemma same_score_iff (a b : scored) : same_score a b = true <-> fst a = fst b.
Proof.
  destruct a as [[a1 a2] a3], b as [[b1 b2] b3]. unfold same_score. simpl.
  rewrite andb_true_iff, !Z.eqb_eq. split; [intros [-> ->]; reflexivity|].
  intros E. inversion E. auto.
Qed.

Lemma insert_scored_perm (x : scored) (l : list scored) :
  Permutation (x :: l) (insert_scored x l).
Proof.
  induction l as [|y l IH]; simpl; [reflexivity|].
  destruct (scored_leb x y); [reflexivity|].
  rewrite perm_swap. now constructor.
Qed.

Lemma sort_scored_perm (l : list scored) : Permutation l (sort_scored l).
Proof.
  induction l as [|x l IH]; simpl; [constructor|].
  rewrite <- insert_scored_perm. now constructor.
Qed.

Lemma insert_scored_sorted (x : scored) (l : list scored) :
  StronglySorted le_s l -> StronglySorted le_s (insert_scored x l).
Proof.
  induction 1 as [|y l Hs IH Hall]; simpl.
  - repeat constructor.
  - destruct (scored_leb x y) eqn:E.
    + constructor; [now constructor|]. constructor; [exact E|].
      eapply Forall_impl; [|exact Hall]. intros z Hz. now apply le_s_trans with y.
    + constructor; [exact IH|].
      apply (Permutation_Forall (insert_scored_perm x l)). constructor; [|exact Hall].
      destruct (le_s_total x y) as [H|H]; [unfold le_s in H; congruence | exact H].
Qed.

Lemma sort_scored_sorted (l : list scored) : StronglySorted le_s (sort_scored l).
Proof.
  induction l as [|x l IH]; simpl; [constructor | now apply insert_scored_sorted].
Qed.

(** *** The choice on the sorted list *)

Definition pick (sorted : list scored) : option str :=
  match sorted with
  | [] => None
  | best :: rest =>
      match rest with
      | second :: _ => if same_score second best then None else Some (snd best)
      | [] => Some (snd best)
      end
  end.

Lemma scored_eq_dec (a b : scored) : {a = b} + {a <> b}.
Proof. repeat decide equality. Qed.

Section Pick.
Variable f : str -> scored.
Hypothesis f_snd : forall c, snd (f c) = c.

Definition strictly_best (c : str) (cands : list str) : Prop :=
  exists l1 l2,
    cands = l1 ++ c :: l2
    /\ forall x, In x (l1 ++ l2) -> key_lt (fst (f c)) (fst (f x)).

Definition tied_best (cands : list str) : Prop :=
  exists l1 c1 l2 c2 l3,
    cands = l1 ++ c1 :: l2 ++ c2 :: l3
    /\ fst (f c1) = fst (f c2)
    /\ forall x, In x cands -> ~ key_lt (fst (f x)) (fst (f c1)).

Lemma head_le (best : scored) (rest : list scored) (y : scored) :
  StronglySorted le_s (best :: rest) -> In y (best :: rest) ->
  key_le (fst best) (fst y).
Proof.
  intros Hs [<-|Hy].
  - right. split; [reflexivity | lia].
  - apply StronglySorted_inv in Hs. destruct Hs as [_ Hall].
    rewrite Forall_forall in Hall. apply le_s_key. now apply Hall.
Qed.

(** The head of the sorted list comes from some position of [cands]. *)
Lemma head_position (cands : list str) (best : scored) (rest : list scored) :
  Permutation (map f cands) (best :: rest) ->
  exists l1 c l2,
    cands = l1 ++ c :: l2 /\ f c = best /\ Permutation rest (map f (l1 ++ l2)).
Proof.
  intros HP.
  assert (Hin : In best (map f cands)).
  { apply (Permutation_in _ (Permutation_sym HP)). now left. }
  apply in_map_iff in Hin. destruct Hin as (c & Hc & Hin).
  apply in_split in Hin. destruct Hin as (l1 & l2 & ->).
  exists l1, c, l2. repeat split; [exact Hc|].
  rewrite map_app in HP. simpl in HP. rewrite Hc in HP.
  apply Permutation_sym in HP. apply Permutation_cons_app_inv in HP.
  now rewrite map_app.
Qed.

Lemma pick_some (cands : list str) (sorted : list scored) (c : str) :
  StronglySorted le_s sorted -> Permutation (map f cands) sorted ->
  pick sorted = Some c <-> strictly_best c cands.
Proof.
  intros Hs HP. split.
  - destruct sorted as [|best rest]; [discriminate|].
    destruct (head_position cands best rest HP) as (l1 & c0 & l2 & -> & Hc & HP').
    intros Hpick. exists l1, l2.
    assert (Ec : c = c0 /\ (forall y, In y rest -> key_lt (fst best) (fst y))).
    { simpl in Hpick. destruct rest as [|second rest'].
      - injection Hpick as <-. rewrite <- Hc, f_snd. split; [reflexivity | intros y []].
      - destruct (same_score second best) eqn:E; [discriminate|].
        injection Hpick as <-. rewrite <- Hc, f_snd. split; [reflexivity|].
        intros y Hy.
        assert (Hn : fst best <> fst second).
        { intros En. symmetry in En. apply same_score_iff in En. congruence. }
        assert (H1 : key_lt (fst (f c0)) (fst second)).
        { apply key_le_neq_lt; [|now rewrite Hc].
          rewrite Hc. apply (head_le best (second :: rest') second Hs).
          right. now left. }
        apply StronglySorted_inv in Hs. destruct Hs as [Hs' _].
        apply key_lt_le_trans with (fst second); [exact H1|].
        now apply (head_le second rest' y Hs'). }
    destruct Ec as [-> Hlt]. split; [reflexivity|].
    intros x Hx. rewrite Hc. apply Hlt.
    apply (Permutation_in _ (Permutation_sym HP')). now apply in_map.
  - intros (l1 & l2 & -> & Hlt).
    destruct sorted as [|best rest].
    { apply Permutation_sym, Permutation_nil in HP.
      rewrite map_app in HP. now destruct (map f l1). }
    assert (Hc : In (f c) (best :: rest)).
    { apply (Permutation_in _ HP). apply in_map, in_or_app. right. now left. }
    assert (Hb : best = f c).
    { assert (Hin : In best (map f (l1 ++ c :: l2))).
      { apply (Permutation_in _ (Permutation_sym HP)). now left. }
      apply in_map_iff in Hin. destruct Hin as (x & Hx & Hin).
      apply in_app_or in Hin. destruct Hin as [Hin|[->|Hin]]; [|now symmetry|];
        exfalso; apply (key_lt_irrefl (fst (f c)));
        (apply key_lt_le_trans with (fst (f x));
         [apply Hlt, in_or_app; auto
         | rewrite Hx; now apply (head_le best rest (f c) Hs)]). }
    subst best.
    assert (HP' : Permutation rest (map f (l1 ++ l2))).
    { rewrite map_app in HP. simpl in HP.
      apply Permutation_sym in HP. apply Permutation_cons_app_inv in HP.
      now rewrite map_app. }
    simpl. destruct rest as [|second rest']; [now rewrite f_snd|].
    assert (Hin : In second (map f (l1 ++ l2))).
    { apply (Permutation_in _ HP'). now left. }
    apply in_map_iff in Hin. destruct Hin as (x & Hx & Hin).
    destruct (same_score second (f c)) eqn:E; [|now rewrite f_snd].
    apply same_score_iff in E. specialize (Hlt x Hin).
    rewrite Hx, E in Hlt. now apply key_lt_irrefl in Hlt.
Qed.

Lemma pick_none (cands : list str) (sorted : list scored) :
  StronglySorted le_s sorted -> Permutation (map f cands) sorted ->
  pick sorted = None <-> cands = [] \/ tied_best cands.
Proof.
  intros Hs HP. split.
  - destruct sorted as [|best rest].
    { intros _. left. apply Permutation_sym, Permutation_nil in HP.
      now destruct cands. }
    destruct (head_position cands best rest HP) as (p1 & a & p2 & -> & Ha & HP').
    simpl. destruct rest as [|second rest']; [discriminate|].
    destruct (same_score second best) eqn:E; [|discriminate]. intros _. right.
    apply same_score_iff in E.
    assert (Hmin : forall x, In x (p1 ++ a :: p2) -> ~ key_lt (fst (f x)) (fst best)).
    { intros x Hx Hn. apply (key_lt_irrefl (fst best)).
      apply key_le_lt_trans with (fst (f x)); [|exact Hn].
      apply (head_le best (second :: rest') (f x) Hs).
      apply (Permutation_in _ HP). now apply in_map. }
    assert (Hin : In second (map f (p1 ++ p2))).
    { apply (Permutation_in _ HP'). now left. }
    apply in_map_iff in Hin. destruct Hin as (b & Hb & Hin).
    apply in_app_or in Hin. destruct Hin as [Hin|Hin];
      apply in_split in Hin; destruct Hin as (q1 & q2 & ->).
    + exists q1, b, q2, a, p2. rewrite <- app_assoc. simpl.
      repeat split; [now rewrite Hb, Ha|].
      intros x Hx. rewrite Hb, E. apply Hmin.
      rewrite <- app_assoc. exact Hx.
    + exists p1, a, q1, b, q2.
      repeat split; [now rewrite Hb, Ha|].
      intros x Hx. rewrite Ha. now apply Hmin.
  - intros [->|(l1 & c1 & l2 & c2 & l3 & -> & Ek & Hmin)].
    { apply Permutation_nil in HP. now subst. }
    destruct sorted as [|best rest].
    { apply Permutation_sym, Permutation_nil in HP.
      rewrite map_app in HP. now destruct (map f l1). }
    assert (Hbest : fst best = fst (f c1)).
    { assert (Hin : In best (map f (l1 ++ c1 :: l2 ++ c2 :: l3))).
      { apply (Permutation_in _ (Permutation_sym HP)). now left. }
      apply in_map_iff in Hin. destruct Hin as (x & Hx & Hin).
      apply key_le_not_lt.
      - apply (head_le best rest (f c1) Hs). apply (Permutation_in _ HP).
        apply in_map, in_or_app. right. now left.
      - rewrite <- Hx. now apply Hmin. }
    assert (Hy : exists y, In y rest /\ fst y = fst (f c1)).
    { rewrite map_app in HP. simpl in HP.
      destruct (scored_eq_dec best (f c1)) as [->|Hne].
      - apply Permutation_sym in HP. apply Permutation_cons_app_inv in HP.
        exists (f c2). split; [|now symmetry].
        apply (Permutation_in _ (Permutation_sym HP)).
        apply in_or_app. right. rewrite map_app. apply in_or_app. right. now left.
      - exists (f c1). split; [|reflexivity].
        assert (Hin : In (f c1) (best :: rest)).
        { apply (Permutation_in _ HP). apply in_or_app. right. now left. }
        destruct Hin as [Hin|Hin]; [congruence | exact Hin]. }
    destruct Hy as (y & Hy & Eky).
    simpl. destruct rest as [|second rest']; [destruct Hy|].
    assert (E : fst second = fst best).
    { apply key_le_antisym.
      - rewrite Hbest, <- Eky. apply StronglySorted_inv in Hs. destruct Hs as [Hs' _].
        now apply (head_le second rest' y Hs').
      - apply (head_le best (second :: rest') second Hs). right. now left. }
    apply same_score_iff in E. now rewrite E.
Qed.

End Pick.

End CandidateFacts.

Module CandidateClaims.
Import PyFacts Composicoes CandidateFacts.

Section Candidates.
Context `{Unicode}.

(** The pair by which a candidate is judged: the absolute difference of
    the lengths of the normalised codes, and minus the greater length. *)
Definition score_key (expected_code cand : str) : Z * Z :=
  let le := Z.of_nat (length (_norm_code expected_code)) in
  let lc := Z.of_nat (length (_norm_code cand)) in
  (Z.abs (le - lc), - Z.max le lc)%Z.

Lemma choose_eq_pick (expected_code : str) (candidates : list str) :
  _choose_best_prefix_candidate expected_code candidates
  = pick (sort_scored (map (score (_norm_code expected_code)) candidates)).
Proof. destruct candidates; reflexivity. Qed.

(** C6: the candidates are scored by (difference of length to the
    expected code, minus the greater length) on the normalised codes; the
    function returns a candidate exactly when that candidate, at its
    place in the list, scores strictly better than every other one; it
    returns no match exactly when the list is empty or the best score is
    held by two or more candidates. *)
Theorem choose_best_prefix_candidate_strict
    (expected_code : str) (candidates : list str) :
  (forall c,
      _choose_best_prefix_candidate expected_code candidates = Some c
      <-> exists l1 l2,
            candidates = l1 ++ c :: l2
            /\ forall x, In x (l1 ++ l2) ->
                 key_lt (score_key expected_code c) (score_key expected_code x))
  /\ (_choose_best_prefix_candidate expected_code candidates = None
      <-> candidates = []
          \/ exists l1 c1 l2 c2 l3,
               candidates = l1 ++ c1 :: l2 ++ c2 :: l3
               /\ score_key expected_code c1 = score_key expected_code c2
               /\ forall x, In x candidates ->
                    ~ key_lt (score_key expected_code x) (score_key expected_code c1)).
Proof.
  rewrite choose_eq_pick.
  set (f := score (_norm_code expected_code)).
  assert (Hsnd : forall c, snd (f c) = c) by reflexivity.
  assert (Hkey : forall c, fst (f c) = score_key expected_code c) by reflexivity.
  pose proof (sort_scored_sorted (map f candidates)) as Hs.
  pose proof (sort_scored_perm (map f candidates)) as HP.
  split.
  - intros c. rewrite (pick_some f Hsnd candidates _ c Hs HP).
    unfold strictly_best. split; intros (l1 & l2 & E & Hlt); exists l1, l2;
      (split; [exact E|]); intros x Hx; specialize (Hlt x Hx);
      now rewrite ?Hkey in *.
  - rewrite (pick_none f candidates _ Hs HP). unfold tied_best.
    split; (intros [E|(l1 & c1 & l2 & c2 & l3 & E & Ek & Hmin)]; [now left | right]);
      exists l1, c1, l2, c2, l3; (split; [exact E|]); rewrite ?Hkey in *;
      (split; [exact Ek|]); intros x Hx; specialize (Hmin x Hx); now rewrite ?Hkey in *.
Qed.

End Candidates.

(** The example of the specification: for the expected code "00012345",
    the candidate "0012345" (one character short) beats "1234"; two
    candidates of the same length tie for the best score, and there is no
    match; a tie between two worse candidates does not matter. *)
Example choose_best_example :
  @_choose_best_prefix_candidate Ascii7.db (lit "00012345") [lit "0012345"; lit "1234"]
  = Some (lit "0012345")
  /\ @_choose_best_prefix_candidate Ascii7.db (lit "00012345") [lit "0001234"; lit "0012345"]
     = None
  /\ @_choose_best_prefix_candidate Ascii7.db (lit "00012345") [] = None
  /\ @_choose_best_prefix_candidate Ascii7.db (lit "00012345")
       [lit "0012345"; lit "12"; lit "34"] = Some (lit "0012345").
Proof. vm_compute. repeat split; reflexivity. Qed.

End CandidateClaims.

(** ** The composition extractor *)

Module DictFacts.
Import PyFacts.

Section Dict.
Context {V : Type}.
Implicit Types (d : @dict V) (k : str) (v : V).

Lemma dict_get_set_same d k v : dict_get (dict_set d k v) k = Some v.
Proof.
  induction d as [|[k' v'] d IH]; simpl.
  - now rewrite str_eqb_refl.
  - destruct (str_eqb k' k) eqn:E; simpl; now rewrite E.
Qed.

Lemma dict_get_set_other d k k' v :
  k <> k' -> dict_get (dict_set d k v) k' = dict_get d k'.
Proof.
  intros Hne. induction d as [|[k0 v0] d IH]; simpl.
  - apply str_eqb_neq in Hne. now rewrite Hne.
  - destruct (str_eqb k0 k) eqn:E; simpl.
    + apply str_eqb_eq in E. subst k0.
      apply str_eqb_neq in Hne. now rewrite Hne.
    + destruct (str_eqb k0 k'); [reflexivity | exact IH].
Qed.

Lemma dict_get_None d k : dict_get d k = None <-> ~ In k (dict_keys d).
Proof.
  induction d as [|[k' v'] d IH]; simpl.
  - tauto.
  - destruct (str_eqb k' k) eqn:E.
    + apply str_eqb_eq in E. split; [discriminate | intros Hn; exfalso; auto].
    + apply str_eqb_neq in E. rewrite IH. tauto.
Qed.

Lemma dict_keys_set d k v :
  dict_keys (dict_set d k v) =
  if dict_mem d k then dict_keys d else dict_keys d ++ [k].
Proof.
  unfold dict_mem. induction d as [|[k' v'] d IH]; simpl; [reflexivity|].
  destruct (str_eqb k' k) eqn:E; simpl; [reflexivity|].
  rewrite IH. now destruct (dict_get d k).
Qed.

Lemma dict_set_NoDup d k v :
  NoDup (dict_keys d) -> NoDup (dict_keys (dict_set d k v)).
Proof.
  intros Hn. rewrite dict_keys_set. unfold dict_mem.
  destruct (dict_get d k) eqn:E; [exact Hn|].
  apply dict_get_None in E.
  apply NoDup_rev in Hn. rewrite <- (rev_involutive (dict_keys d ++ [k])).
  apply NoDup_rev. rewrite rev_app_distr. simpl. constructor; [|exact Hn].
  now rewrite <- in_rev.
Qed.

Lemma dict_set_length d k v :
  dict_mem d k = true -> length (dict_set d k v) = length d.
Proof.
  intros Hm. rewrite <- !(length_map fst). fold (dict_keys (dict_set d k v)).
  fold (dict_keys d). now rewrite dict_keys_set, Hm.
Qed.

Lemma dict_get_In d k v :
  NoDup (dict_keys d) -> In (k, v) d -> dict_get d k = Some v.
Proof.
  induction d as [|[k' v'] d IH]; simpl; [intros _ []|].
  intros Hn [E|Hin].
  - inversion E; subst. now rewrite str_eqb_refl.
  - inversion Hn as [|? ? Hnotin Hn']; subst.
    destruct (str_eqb k' k) eqn:E; [|now apply IH].
    apply str_eqb_eq in E. subst k'. exfalso. apply Hnotin.
    apply (in_map fst) in Hin. exact Hin.
Qed.

End Dict.
End DictFacts.

Module ExtractorFacts.
Import PyFacts DictFacts Composicoes CandidateFacts.

Section Extractor.
Context `{Unicode}.

Lemma norm_code_nil : _norm_code [] = [].
Proof. reflexivity. Qed.

Lemma prefix_match_nonempty (a b : str) (max_missing min_len : Z) :
  _prefix_match a b max_missing min_len = true -> a <> [].
Proof.
  unfold _prefix_match. intros E ->. rewrite norm_code_nil in E. discriminate.
Qed.

(** The candidate that is chosen is one of the candidates. *)
Lemma choose_best_In (expected_code : str) (candidates : list str) (c : str) :
  _choose_best_prefix_candidate expected_code candidates = Some c -> In c candidates.
Proof.
  assert (E : _choose_best_prefix_candidate expected_code candidates
              = pick (sort_scored (map (score (_norm_code expected_code)) candidates)))
    by (destruct candidates; reflexivity).
  rewrite E. intros Hp.
  apply (pick_some (score (_norm_code expected_code)) (fun _ => eq_refl) candidates _ c
           (sort_scored_sorted _) (sort_scored_perm _)) in Hp.
  destruct Hp as (l1 & l2 & -> & _). apply in_or_app. right. now left.
Qed.

(** *** The loop over the rows *)

Variable expected_by_bank : @dict (list expected).
Variable id_to_item : @dict str.

Notation process_row := (process_row expected_by_bank id_to_item).
Notation process_rows := (process_rows expected_by_bank id_to_item).

(** The rows that end the open block: an item header and a composition
    row, as [process_row] tells them apart. *)
Definition closes_block (raw_row : list cell) : bool :=
  match raw_row with
  | [] => false
  | _ =>
      if all_blank raw_row then false
      else
        let row := normalize_row raw_row in
        if is_item_header_row row then true
        else if is_column_header_only row then false
        else if contains (lit "ANEXO 3") (upper (colapsar_espacos (row_get row 0)))
        then false
        else match detect_row_type (row_get row 0) with
             | Some Composicao => true
             | _ => false
             end
  end.

Lemma member_row_open (rtype : row_type) (entry : LinhaComposicao) (st : estado)
    (b : BlocoComposicao) :
  st_current_bloco st = Some b ->
  exists b',
    st_current_bloco (member_row rtype entry st) = Some b'
    /\ principal b' = principal b /\ item b' = item b
    /\ st_principais (member_row rtype entry st) = st_principais st
    /\ st_avisos (member_row rtype entry st) = st_avisos st.
Proof.
  intros Hb. unfold member_row. rewrite Hb.
  destruct rtype; simpl; eauto 10.
Qed.

Lemma process_row_open (st : estado) (raw_row : list cell) (b : BlocoComposicao) :
  closes_block raw_row = false ->
  st_current_bloco st = Some b ->
  exists b',
    st_current_bloco (process_row st raw_row) = Some b'
    /\ principal b' = principal b /\ item b' = item b
    /\ st_principais (process_row st raw_row) = st_principais st
    /\ st_avisos (process_row st raw_row) = st_avisos st.
Proof.
  intros Hc Hb. unfold closes_block in Hc. unfold Composicoes.process_row.
  destruct raw_row as [|c0 rest]; [eauto 10|].
  destruct (all_blank (c0 :: rest)); [eauto 10|].
  destruct (is_item_header_row _); [discriminate|].
  destruct (is_column_header_only _); [eauto 10|].
  destruct (contains _ _); [eauto 10|].
  destruct (detect_row_type _) as [[| |]|]; try discriminate; eauto 10;
    now apply member_row_open.
Qed.

Lemma process_rows_open (rows : list (list cell)) (st : estado) (b : BlocoComposicao) :
  forallb (fun r => negb (closes_block r)) rows = true ->
  st_current_bloco st = Some b ->
  exists b',
    st_current_bloco (process_rows st rows) = Some b'
    /\ principal b' = principal b /\ item b' = item b
    /\ st_principais (process_rows st rows) = st_principais st
    /\ st_avisos (process_rows st rows) = st_avisos st.
Proof.
  revert st b. induction rows as [|r rows IH]; intros st b Hall Hb; simpl.
  - eauto 10.
  - simpl in Hall. apply andb_true_iff in Hall. destruct Hall as [Hr Hall].
    apply negb_true_iff in Hr.
    destruct (process_row_open st r b Hr Hb) as (b1 & H1 & H2 & H3 & H4 & H5).
    destruct (IH _ b1 Hall H1) as (b2 & G1 & G2 & G3 & G4 & G5).
    exists b2. repeat split; congruence.
Qed.

(** The keys of the auxiliaries stay distinct. *)
Lemma process_row_aux_NoDup (st : estado) (raw_row : list cell) :
  NoDup (dict_keys (st_auxiliares_globais st)) ->
  NoDup (dict_keys (st_auxiliares_globais (process_row st raw_row))).
Proof.
  intros Hn. unfold Composicoes.process_row.
  destruct raw_row as [|c0 rest]; [exact Hn|].
  destruct (all_blank (c0 :: rest)); [exact Hn|].
  destruct (is_item_header_row _); [exact Hn|].
  destruct (is_column_header_only _); [exact Hn|].
  destruct (contains _ _); [exact Hn|].
  destruct (detect_row_type _) as [[| |]|]; try exact Hn.
  - unfold member_row. now destruct (st_current_bloco st).
  - unfold member_row. destruct (st_current_bloco st); [|exact Hn].
    simpl. now apply dict_set_NoDup.
Qed.

Lemma process_rows_aux_NoDup (rows : list (list cell)) (st : estado) :
  NoDup (dict_keys (st_auxiliares_globais st)) ->
  NoDup (dict_keys (st_auxiliares_globais (process_rows st rows))).
Proof.
  revert st. induction rows as [|r rows IH]; intros st Hn; simpl; [exact Hn|].
  apply IH. now apply process_row_aux_NoDup.
Qed.

End Extractor.

Section Aliases.
Context `{Unicode}.
Variable principais : @dict BlocoComposicao.
Variable by_bank : @dict (list str).

Notation step := (alias_step principais by_bank).

Lemma alias_step_other (acc : @dict str) (kv : str * LinhaComposicao) (k : str) :
  fst kv <> k -> dict_get (step acc kv) k = dict_get acc k.
Proof.
  destruct kv as [aux_id aux]. simpl. intros Hne. unfold alias_step.
  destruct (dict_mem principais aux_id); [reflexivity|].
  destruct (_choose_best_prefix_candidate _ _) as [best|]; [|reflexivity].
  destruct (truthy best); [|reflexivity].
  now apply dict_get_set_other.
Qed.

Lemma alias_loop_other (l : list (str * LinhaComposicao)) (acc : @dict str) (k : str) :
  ~ In k (map fst l) -> dict_get (fold_left step l acc) k = dict_get acc k.
Proof.
  revert acc. induction l as [|kv l IH]; intros acc Hn; simpl; [reflexivity|].
  simpl in Hn. rewrite IH by tauto. apply alias_step_other. tauto.
Qed.

Lemma alias_loop_hit (l : list (str * LinhaComposicao)) (acc : @dict str)
    (aux_id : str) (aux : LinhaComposicao) (best : str) :
  NoDup (map fst l) -> In (aux_id, aux) l ->
  dict_mem principais aux_id = false ->
  _choose_best_prefix_candidate (codigo aux) (alias_candidates by_bank aux) = Some best ->
  dict_get (fold_left step l acc) aux_id = Some (best ++ [124%N] ++ banco aux).
Proof.
  intros Hn Hin Hm Hb. revert acc.
  induction l as [|kv l IH]; intros acc; [destruct Hin|].
  inversion Hn as [|? ? Hnotin Hn']; subst. simpl.
  destruct Hin as [->|Hin].
  - rewrite alias_loop_other by exact Hnotin.
    unfold alias_step. rewrite Hm, Hb.
    assert (Ht : truthy best = true).
    { apply choose_best_In in Hb. unfold alias_candidates in Hb.
      apply filter_In in Hb. destruct Hb as [_ Hp].
      apply prefix_match_nonempty in Hp. now destruct best. }
    rewrite Ht. apply dict_get_set_same.
  - now apply IH.
Qed.

End Aliases.

End ExtractorFacts.

Module ExtractorClaims.
Import PyFacts DictFacts Composicoes CandidateFacts ExtractorFacts.

Section Extractor.
Context `{Unicode}.

(** C7: in the composition set that the extractor returns, every entry of
    the orphan-auxiliaries map whose key is not a key of a principal, and
    for which one best candidate is chosen among the principal codes of
    its bank that match its code as a prefix (difference of length at most
    1, at least 5 characters), has the alias "{best}|{bank}". *)
Theorem orphan_auxiliary_gets_alias
    (pdf_pages : list page) (start_1based end_1based : Z) (page_indexing : str)
    (item_refs : list item_ref) (comp : Composicoes) (avisos : list aviso)
    (aux_id : str) (aux : LinhaComposicao) (best : str) :
  parse_composicoes_sinapi pdf_pages start_1based end_1based page_indexing item_refs
  = Returns (comp, avisos) ->
  In (aux_id, aux) (auxiliares_globais comp) ->
  dict_mem (principais comp) aux_id = false ->
  _choose_best_prefix_candidate (codigo aux)
    (filter (fun pc => _prefix_match pc (codigo aux) 1 5)
       (get_or_nil (principais_by_bank (principais comp)) (_norm_bank (banco aux))))
  = Some best ->
  dict_get (aliases_auxiliares comp) aux_id = Some (best ++ [124%N] ++ banco aux).
Proof.
  unfold parse_composicoes_sinapi.
  destruct (page_range _ _ _ _) as [[av0 start_idx] end_idx].
  destruct (_ =? 0)%Z; [discriminate|].
  destruct (index_refs item_refs) as [expected_by_bank id_to_item].
  intros [= <- _]. cbn [auxiliares_globais principais aliases_auxiliares].
  intros Hin Hm Hb. unfold build_aliases.
  apply alias_loop_hit; try assumption.
  apply process_rows_aux_NoDup. constructor.
Qed.

Variable expected_by_bank : @dict (list expected).
Variable id_to_item : @dict str.

Lemma process_row_closes (st : estado) (raw_row : list cell) :
  closes_block raw_row = true ->
  st_principais (process_row expected_by_bank id_to_item st raw_row) = store_current st
  /\ (st_avisos (process_row expected_by_bank id_to_item st raw_row) = st_avisos st
      \/ exists c f b,
           st_avisos (process_row expected_by_bank id_to_item st raw_row)
           = st_avisos st ++ [AvisoCodigoRecuperado c f b]).
Proof.
  unfold closes_block, process_row.
  destruct raw_row as [|c0 rest]; [discriminate|].
  destruct (all_blank (c0 :: rest)); [discriminate|].
  destruct (is_item_header_row _); [intros _; split; [reflexivity | now left]|].
  destruct (is_column_header_only _); [discriminate|].
  destruct (contains _ _); [discriminate|].
  destruct (detect_row_type _) as [[| |]|]; try discriminate.
  intros _. unfold composicao_row. cbn [st_principais st_avisos].
  split; [reflexivity|].
  destruct (_ && negb (dict_mem _ _)); [right; eauto | now left].
Qed.

(** While a block is open, the rows that do not end it leave its
    principal, the principals map and the warnings as they are; when the
    block is then stored (at the end of the range, or by the next item
    header or composition row), the map holds this block under its key
    whatever it held there before, so an earlier block of the same key is
    replaced together with its lines; the other keys keep their blocks,
    the map does not grow when the key was there already, and the storing
    adds no warning (a composition row may add the warning of a recovered
    code, which is not about the collision). *)
Lemma stored_block_replaces_earlier
    (st : estado) (rows : list (list cell)) (b : BlocoComposicao) :
  st_current_bloco st = Some b ->
  forallb (fun r => negb (closes_block r)) rows = true ->
  exists b',
    st_current_bloco (process_rows expected_by_bank id_to_item st rows) = Some b'
    /\ principal b' = principal b
    /\ dict_get (store_current (process_rows expected_by_bank id_to_item st rows))
         (_make_id (codigo (principal b)) (banco (principal b))) = Some b'
    /\ (forall k', k' <> _make_id (codigo (principal b)) (banco (principal b)) ->
          dict_get (store_current (process_rows expected_by_bank id_to_item st rows)) k'
          = dict_get (st_principais st) k')
    /\ (dict_mem (st_principais st)
          (_make_id (codigo (principal b)) (banco (principal b))) = true ->
        length (store_current (process_rows expected_by_bank id_to_item st rows))
        = length (st_principais st))
    /\ st_avisos (process_rows expected_by_bank id_to_item st rows) = st_avisos st
    /\ forall r, closes_block r = true ->
         st_principais
           (process_row expected_by_bank id_to_item
              (process_rows expected_by_bank id_to_item st rows) r)
         = store_current (process_rows expected_by_bank id_to_item st rows)
         /\ (st_avisos
               (process_row expected_by_bank id_to_item
                  (process_rows expected_by_bank id_to_item st rows) r)
             = st_avisos st
             \/ exists c f bk,
                  st_avisos
                    (process_row expected_by_bank id_to_item
                       (process_rows expected_by_bank id_to_item st rows) r)
                  = st_avisos st ++ [AvisoCodigoRecuperado c f bk]).
Proof.
  intros Hb Hall.
  destruct (process_rows_open expected_by_bank id_to_item rows st b Hall Hb)
    as (b' & H1 & H2 & H3 & H4 & H5).
  exists b'. unfold store_current. rewrite H1, H2, H4.
  split; [reflexivity|]. split; [reflexivity|].
  split; [apply dict_get_set_same|].
  split; [intros k' Hk; apply dict_get_set_other; congruence|].
  split; [apply dict_set_length|].
  split; [exact H5|].
  intros r Hr. destruct (process_row_closes (process_rows expected_by_bank id_to_item st rows) r Hr)
    as [G1 G2].
  unfold store_current in G1. rewrite H1, H2, H4 in G1. rewrite H5 in G2.
  split; assumption.
Qed.

(** C4 on the code: an auxiliary row that comes while no block is open is
    skipped.  The orphan-auxiliaries map is left as it was, whatever the
    row holds, no block is opened by it, and when the row is not also an
    item header the whole state of the extractor is unchanged.  The map
    only ever receives the auxiliaries of an open block. *)
Theorem auxiliar_outside_block_is_skipped (st : estado) (raw_row : list cell) :
  st_current_bloco st = None ->
  detect_row_type (row_get (normalize_row raw_row) 0) = Some ComposicaoAuxiliar ->
  st_auxiliares_globais (process_row expected_by_bank id_to_item st raw_row)
  = st_auxiliares_globais st
  /\ st_current_bloco (process_row expected_by_bank id_to_item st raw_row) = None
  /\ (is_item_header_row (normalize_row raw_row) = false ->
      process_row expected_by_bank id_to_item st raw_row = st).
Proof.
  intros Hnone Haux. unfold process_row.
  destruct raw_row as [|c0 rest]; [now repeat split|].
  destruct (all_blank (c0 :: rest)); [now repeat split|].
  destruct (is_item_header_row _); [repeat split; discriminate|].
  destruct (is_column_header_only _); [now repeat split|].
  destruct (contains _ _); [now repeat split|].
  rewrite Haux. unfold member_row. rewrite Hnone. now repeat split.
Qed.

End Extractor.

Import Exemplos.

(** The example of the specification: the auxiliary 883164 of the bank
    SINAPI, with the principal 88316 of the same bank. *)
Lemma orphan_auxiliary_gets_alias_witness :
  dict_get (aliases_auxiliares (fst ex_parsed)) (lit "883164|SINAPI")
  = Some (lit "88316|SINAPI").
Proof.
  apply (@orphan_auxiliary_gets_alias Ascii7.db ex_pages 1 1 (lit "1-based") []
           (fst ex_parsed) (snd ex_parsed) (lit "883164|SINAPI") ex_aux (lit "88316"));
    vm_compute; auto.
Defined.

(** An auxiliary row alone in the range, and one right after an item
    header: the row is read as an auxiliary, and the map of the orphan
    auxiliaries stays empty. *)
Lemma auxiliar_outside_block_is_skipped_witness :
  st_auxiliares_globais
    (@process_row Ascii7.db [] [] (mk_estado [] [] [] None [] []) ex_aux_row) = []
  /\ st_current_bloco
       (@process_row Ascii7.db [] [] (mk_estado [] [] [] None [] []) ex_aux_row) = None.
Proof.
  destruct (@auxiliar_outside_block_is_skipped Ascii7.db [] []
              (mk_estado [] [] [] None [] []) ex_aux_row) as (H1 & H2 & _).
  - reflexivity.
  - vm_compute. reflexivity.
  - split; [exact H1|exact H2].
Defined.

Example auxiliar_outside_block_ex :
  @detect_row_type Ascii7.db (row_get ex_aux_row 0) = Some ComposicaoAuxiliar
  /\ @parse_composicoes_sinapi Ascii7.db [[[ex_aux_row]]] 1 1 (lit "1-based") []
     = Returns (mk_composicoes [] [] [], [AvisoProcessadas 1 1 0 0 0])
  /\ auxiliares_globais
       (fst (match @parse_composicoes_sinapi Ascii7.db [[[ex_header_row; ex_aux_row]]]
                     1 1 (lit "1-based") [] with
             | Returns r => r
             | Raises _ => (mk_composicoes [] [] [], [])
             end)) = [].
Proof. vm_compute. repeat split; reflexivity. Qed.

End ExtractorClaims.

(** ** Page ranges *)

Module RangeClaims.
Import Composicoes.

Section Ranges.
Context `{Unicode}.

Lemma page_range_inside (page_indexing : str) (n_pages start_1based end_1based : Z) :
  (1 <= n_pages)%Z ->
  let '(_, start_idx, end_idx) :=
    page_range page_indexing n_pages start_1based end_1based in
  (0 <= start_idx <= end_idx)%Z /\ (end_idx <= n_pages - 1)%Z.
Proof.
  intros Hn. unfold page_range.
  destruct (_ && _); simpl;
    match goal with
    | |- context [(?a <? ?b)%Z] => destruct (Z.ltb_spec a b)
    end; lia.
Qed.

Lemma page_range_silent (page_indexing : str) (n_pages start_1based end_1based : Z) :
  (1 <= start_1based)%Z -> (1 <= end_1based)%Z ->
  fst (fst (page_range page_indexing n_pages start_1based end_1based)) = [].
Proof.
  intros Hs He. unfold page_range.
  destruct (Z.leb_spec start_1based 0); [lia|].
  destruct (Z.leb_spec end_1based 0); [lia|].
  rewrite andb_false_r. simpl. now destruct (_ <? _)%Z.
Qed.


End Ranges.


End RangeClaims.

(** ** The arithmetic check of a line item *)

Module ItemClaims.
Import PyFacts Sanitizer SanitizerFacts Parser Exemplos.

Section Items.
Context `{Unicode} `{Patterns}.
Variable cfg : config.

(** Both row parsers clean the specification text with the markers the
    validator later looks for. *)
Lemma candidate_cleaned (buffer_lines cur : list str) (r r1 : relatorio) (p : dados) :
  candidate cfg buffer_lines cur r = (Some p, r1) ->
  (exists text,
      especificacao p = clean_inline text (strip_inline_from cfg) (dynamic_markers cfg))
  /\ erros r1 = erros r /\ divergencias r1 = divergencias r.
Proof.
  unfold candidate, _try_parse_item_row, _try_parse_composicao_item_row.
  destruct (RE_ITEM_START_match _) as [[[[i c] f] rest]|].
  - destruct (RE_ITEM_TAIL_search (join _ cur)) as [[[[[u q] sb] cb] pa]|].
    + intros [= <- <-]. simpl. eauto.
    + destruct (RE_ITEM_COMPOSICAO_START_match _) as [[[i' f'] rest']|];
        [|discriminate].
      destruct (RE_ITEM_TAIL_search _) as [[[[[u q] sb] cb] pa]|]; [|discriminate].
      intros [= <- <-]. simpl. eauto.
  - destruct (RE_ITEM_COMPOSICAO_START_match _) as [[[i' f'] rest']|];
      [|discriminate].
    destruct (RE_ITEM_TAIL_search _) as [[[[[u q] sb] cb] pa]|]; [|discriminate].
    intros [= <- <-]. simpl. eauto.
Qed.

Lemma validate_cleaned (p : dados) (text : str) :
  especificacao p = clean_inline text (strip_inline_from cfg) (dynamic_markers cfg) ->
  validate_item cfg p =
    match Money.parse_ptbr_number (quant p),
          Money.parse_ptbr_number (custo_unitario_com_bdi p),
          Money.parse_ptbr_number (custo_parcial p) with
    | Some q, Some u, Some c =>
        if (abs (q * u - c)
            <=? fmax (tol_item_abs cfg) (abs (q * u) * tol_item_rel cfg))%float
        then (true, MotivoOk)
        else (false, ParcialDifere c (q * u)%float
                       (fmax (tol_item_abs cfg) (abs (q * u) * tol_item_rel cfg)%float))
    | _, _, _ => (true, NaoParseavel)
    end.
Proof.
  intro E. unfold validate_item, _validate_item_math. rewrite E.
  rewrite clean_inline_not_contaminated, andb_false_r. reflexivity.
Qed.

(** C2: for an item that a turn of [try_finalize_item] has parsed, when
    the three fields are numbers the validator accepts exactly when
    |quant * unit - partial| <= max(tol_abs, |quant * unit| * tol_rel), in
    binary64 arithmetic as the code computes it; when one of them is not a
    number the validator accepts the item as unparseable, the turn returns
    the item at once and records neither an error nor a divergence. *)
Theorem validate_item_math_within_tolerance
    (left extra_used : nat) (buffer_lines cur lookahead_lines : list str)
    (r r1 : relatorio) (p : dados) :
  candidate cfg buffer_lines cur r = (Some p, r1) ->
  (forall q u c,
      Money.parse_ptbr_number (quant p) = Some q ->
      Money.parse_ptbr_number (custo_unitario_com_bdi p) = Some u ->
      Money.parse_ptbr_number (custo_parcial p) = Some c ->
      fst (_validate_item_math p (tol_item_abs cfg) (tol_item_rel cfg)
             (fail_if_contaminated_text cfg) (strip_inline_from cfg)
             (dynamic_markers cfg)) = true
      <-> (abs (q * u - c)
           <=? fmax (tol_item_abs cfg) (abs (q * u) * tol_item_rel cfg))%float = true)
  /\ (Money.parse_ptbr_number (quant p) = None
      \/ Money.parse_ptbr_number (custo_unitario_com_bdi p) = None
      \/ Money.parse_ptbr_number (custo_parcial p) = None ->
      _validate_item_math p (tol_item_abs cfg) (tol_item_rel cfg)
        (fail_if_contaminated_text cfg) (strip_inline_from cfg) (dynamic_markers cfg)
      = (true, NaoParseavel)
      /\ try_finalize_loop cfg left extra_used buffer_lines cur lookahead_lines r
         = (Some p, extra_used, r1)
      /\ erros r1 = erros r /\ divergencias r1 = divergencias r).
Proof.
  intros Hc. destruct (candidate_cleaned _ _ _ _ _ Hc) as ([text Ht] & He & Hd).
  pose proof (validate_cleaned p text Ht) as Hv. unfold validate_item in Hv. split.
  - intros q u c Hq Hu Hp. rewrite Hv, Hq, Hu, Hp.
    destruct (_ <=? _)%float; simpl; split; congruence.
  - intros Hnone.
    assert (Hv' : validate_item cfg p = (true, NaoParseavel)).
    { unfold validate_item. rewrite Hv. destruct Hnone as [E|[E|E]]; rewrite E;
        repeat match goal with
               | |- context [match ?x with Some _ => _ | None => _ end] => destruct x
               end; reflexivity. }
    repeat split; try assumption.
    destruct left; cbn [try_finalize_loop]; rewrite Hc, Hv'; reflexivity.
Qed.

End Items.

(** The example of the specification: the budget line
    "9.4 00000123 SINAPI Alvenaria M2 10,00 50,00 55,00 550,00" parses to
    quant 10.00, unit cost with BDI 55.00 and partial cost 550.00. *)
Example item_row_example :
  @_try_parse_item_row (@Re.patterns Ascii7.db) ex_cfg ex_line = Some ex_item
  /\ @Money.parse_ptbr_number Ascii7.db (quant ex_item) = Some 10%float
  /\ @Money.parse_ptbr_number Ascii7.db (custo_unitario_com_bdi ex_item) = Some 55%float
  /\ @Money.parse_ptbr_number Ascii7.db (custo_parcial ex_item) = Some 550%float
  /\ @try_finalize_item Ascii7.db (@Re.patterns Ascii7.db) ex_cfg [ex_line] [] no_report
     = (Some ex_item, 0%nat, no_report).
Proof. vm_compute. repeat split; reflexivity. Qed.

(** It passes the arithmetic check: 10 * 55 = 550. *)
Lemma validate_item_math_within_tolerance_witness :
  fst (@_validate_item_math Ascii7.db ex_item 0.02 0.0002 true [lit "Mapa"] []) = true
  <-> (abs (10 * 55 - 550) <=? fmax 0.02 (abs (10 * 55) * 0.0002))%float = true.
Proof.
  refine (proj1 (@validate_item_math_within_tolerance Ascii7.db (@Re.patterns Ascii7.db)
                   ex_cfg 0 0 [ex_line] [ex_line] [] no_report no_report ex_item _)
                10%float 55%float 550%float _ _ _);
    vm_compute; reflexivity.
Defined.

End ItemClaims.

(** ** The check of a group against its children *)

Module GroupClaims.
Import PyFacts Parser Exemplos.

Section Groups.
Context `{Unicode}.
Variables tol_abs tol_rel : float.
Variable missing_total_value : str.
Variable report_all : bool.

Notation validate_node := (validate_node tol_abs tol_rel missing_total_value report_all).
Notation validate_loop := (validate_loop tol_abs tol_rel missing_total_value report_all).
Notation check_group := (check_group tol_abs tol_rel missing_total_value report_all).
Notation _validate_tree_math :=
  (_validate_tree_math tol_abs tol_rel missing_total_value report_all).

(** Induction on a tree together with its children. *)
Lemma arvore_induction (P : arvore -> Prop) :
  (forall d fs, Forall P fs -> P (Arvore d fs)) -> forall n, P n.
Proof.
  intros Hstep. fix IH 1. intros [d fs]. apply Hstep.
  induction fs as [|x fs IHfs]; constructor; [apply IH | exact IHfs].
Qed.

Lemma validate_node_eq (d : dados) (fs : list arvore) (r : relatorio) :
  validate_node (Arvore d fs) r =
  if str_eqb (tipo d) (lit "item") then (parcial_or_zero (custo_parcial d), r)
  else let '(child_sum, r1) := validate_loop fs 0%float r in
       (child_sum, check_group d child_sum r1).
Proof.
  cbn [Parser.validate_node]. destruct (str_eqb (tipo d) (lit "item")); [reflexivity|].
  generalize 0%float as acc. revert r.
  induction fs as [|x fs IH]; intros r acc; [reflexivity|].
  cbn [Parser.validate_loop]. destruct (validate_node x r) as [v r'].
  apply IH.
Qed.

Lemma subtotal_eq (d : dados) (fs : list arvore) :
  subtotal (Arvore d fs) =
  if str_eqb (tipo d) (lit "item") then parcial_or_zero (custo_parcial d)
  else soma_filhos fs.
Proof.
  cbn [subtotal]. destruct (str_eqb (tipo d) (lit "item")); [reflexivity|].
  unfold soma_filhos. generalize 0%float as acc.
  induction fs as [|x fs IH]; intros acc; [reflexivity | apply IH].
Qed.

Lemma validate_node_sum (n : arvore) (r : relatorio) :
  fst (validate_node n r) = subtotal n.
Proof.
  revert r. induction n as [d fs IH] using arvore_induction. intros r.
  rewrite validate_node_eq, subtotal_eq.
  destruct (str_eqb (tipo d) (lit "item")); [reflexivity|].
  assert (E : forall acc r0,
             fst (validate_loop fs acc r0)
             = fold_left (fun a n => (a + subtotal n)%float) fs acc).
  { clear r. induction IH as [|x fs Hx Hfs IHfs]; intros acc r0; [reflexivity|].
    cbn [Parser.validate_loop fold_left]. specialize (Hx r0).
    destruct (validate_node x r0) as [v r']. simpl in Hx. subst v. apply IHfs. }
  specialize (E 0%float r). destruct (validate_loop fs 0 r) as [cs r1]. exact E.
Qed.

Lemma validate_tree_sum (nodes : list arvore) (r : relatorio) :
  fst (_validate_tree_math nodes r) = soma_filhos nodes.
Proof.
  unfold Parser._validate_tree_math, soma_filhos. generalize 0%float as acc. revert r.
  induction nodes as [|x nodes IH]; intros r acc; [reflexivity|].
  cbn [Parser.validate_loop fold_left]. pose proof (validate_node_sum x r) as Hx.
  destruct (validate_node x r) as [v r']. simpl in Hx. subst v. apply IH.
Qed.

(** One call on one group: the sum of the children is compared with the
    group's declared total under max(tol_abs, |total| * tol_rel).  With an
    absent total (empty, or the configured sentinel) the group leaves the
    report as its children left it; with a numeric total and a difference
    beyond the tolerance it adds one divergence and one error; within the
    tolerance it adds no error (and a divergence only when every check is
    to be reported). *)
Lemma group_check_after_children
    (d : dados) (fs : list arvore) (r : relatorio) :
  str_eqb (tipo d) (lit "item") = false ->
  let ct_raw := strip (custo_total d) in
  let child_sum := soma_filhos fs in
  let r1 := snd (_validate_tree_math fs r) in
  let r' := snd (validate_node (Arvore d fs) r) in
  fst (validate_node (Arvore d fs) r) = child_sum
  /\ fst (_validate_tree_math fs r) = child_sum
  /\ (ct_raw = [] \/ ct_raw = missing_total_value -> r' = r1)
  /\ (forall ct,
        ct_raw <> [] -> ct_raw <> missing_total_value ->
        Money.parse_ptbr_number ct_raw = Some ct ->
        let tol := fmax tol_abs (abs ct * tol_rel)%float in
        let diff := (child_sum - ct)%float in
        avisos r' = avisos r1
        /\ ((tol <? abs diff)%float = true ->
            divergencias r' = divergencias r1 ++ [DivGrupo (item d) ct_raw child_sum diff tol]
            /\ erros r' = erros r1 ++ [ErroGrupo (item d) child_sum ct tol])
        /\ ((tol <? abs diff)%float = false ->
            erros r' = erros r1
            /\ divergencias r' =
               if report_all
               then divergencias r1 ++ [DivGrupo (item d) ct_raw child_sum diff tol]
               else divergencias r1)).
Proof.
  intros Ht ct_raw child_sum r1 r'.
  pose proof (validate_tree_sum fs r) as Hs.
  assert (Hr : r' = check_group d child_sum r1
               /\ fst (validate_node (Arvore d fs) r) = child_sum).
  { subst r' r1 child_sum. rewrite validate_node_eq, Ht. rewrite <- Hs.
    unfold Parser._validate_tree_math.
    destruct (validate_loop fs 0 r) as [cs rr]. split; reflexivity. }
  destruct Hr as [Hr Hf].
  split; [exact Hf|]. split; [exact Hs|]. split.
  - intros Habs. rewrite Hr. unfold Parser.check_group. fold ct_raw.
    destruct Habs as [E|E]; rewrite E; [reflexivity|].
    rewrite str_eqb_refl, orb_true_r. reflexivity.
  - intros ct Hne Hnm Hp tol diff.
    assert (Hc : r' =
                 let r2 := if report_all || (tol <? abs diff)%float
                           then add_divergencia r1 (DivGrupo (item d) ct_raw child_sum diff tol)
                           else r1 in
                 if (tol <? abs diff)%float
                 then add_erro r2 (ErroGrupo (item d) child_sum ct tol) else r2).
    { rewrite Hr. unfold Parser.check_group. fold ct_raw.
      apply str_eqb_neq in Hnm. rewrite Hnm, Hp.
      destruct ct_raw; [contradiction | reflexivity]. }
    rewrite Hc.
    destruct (tol <? abs diff)%float; destruct report_all; simpl;
      repeat split; intros; try discriminate; reflexivity.
Qed.

End Groups.

(** The example of the specification: children that add up to 12000,00
    under a declared total of 12345,67 leave one divergence and one error;
    children that add up to the declared total leave nothing. *)
Example validate_group_mismatch :
  @_validate_tree_math Ascii7.db 0.05 0.0001 [] false
    [Arvore ex_group ex_children] no_report
  = (12000%float,
     mk_relatorio []
       [ErroGrupo (lit "9") 12000 12345.67 1.234567]
       [DivGrupo (lit "9") (lit "12345,67") 12000 (-345.67000000000007) 1.234567]).
Proof. vm_compute. reflexivity. Qed.

Example validate_group_match :
  snd (@_validate_tree_math Ascii7.db 0.05 0.0001 [] false
         [Arvore ex_group
            [ex_child (lit "9.1") (lit "12.000,00"); ex_child (lit "9.2") (lit "345,67")]]
         no_report)
  = no_report.
Proof. vm_compute. reflexivity. Qed.

End GroupClaims.

Example sanitize_ex :
  Sanitizer.sanitize_lines [lit "abc STOP xyz DROP"; lit "  keep   me "; lit "DROP it"]
    [lit "DROP"] [lit "STOP"] [] = [lit "abc"; lit "keep me"].
Proof. vm_compute. reflexivity. Qed.

Example normalize_lines_ex :
  PdfText.normalize_lines
    (Py.lit "  a   b " ++ [10%N; 10%N] ++ Py.lit " c" ++ [13%N; 10%N] ++ Py.lit "d")
  = [Py.lit "a b"; Py.lit "c"; Py.lit "d"].
Proof. vm_compute. reflexivity. Qed.

Example break_glued_markers_ex :
  Sanitizer.break_glued_markers (Py.lit "abcXYdefXY") [Py.lit "XY"; Py.lit "f"] []
  = Py.lit "abc" ++ [10%N] ++ Py.lit "XYde" ++ [10%N] ++ Py.lit "f" ++ [10%N] ++ Py.lit "XY".
Proof. vm_compute. reflexivity. Qed.

(** A budget page from its text to the tree: a heading, the item line of
    the specification with a continuation line, a line that matches
    nothing, and the closing total, after which nothing is read. *)
Example budget_page_ex :
  @Parser._parse_orcamento_sintetico Ascii7.db (@Re.patterns Ascii7.db)
    Exemplos.ex_runtime Exemplos.ex_cfg
    [Py.lit "  9   Servicos   550,00 " ++ [10%N]
     ++ Py.lit "ITEM CODIGO x" ++ [13%N; 10%N]
     ++ Py.lit "9.4 00000123 SINAPI Alvenaria M2 10,00 50,00 55,00 550,00" ++ [10%N; 10%N]
     ++ Py.lit "de vedacao" ++ [10%N]
     ++ Py.lit "TOTAL SEM BDI 500,00" ++ [10%N]
     ++ Py.lit "10 Outros 1,00"]
  = Py.Returns
      ([Parser.Arvore
          (Parser.grupo (Py.lit "meta") (Py.lit "9") (Py.lit "Servicos") (Py.lit "550,00"))
          [Parser.Arvore
             (Parser.set_especificacao Exemplos.ex_item (Py.lit "Alvenaria de vedacao"))
             []]],
       [Py.lit "9.4"],
       Parser.mk_relatorio [Parser.AvisoLinhaIgnorada (Py.lit "ITEM CODIGO x")] [] []).
Proof. vm_compute. reflexivity. Qed.

(* ================================================================== *)
(** * Part III. Further properties of the code                         *)
(* ================================================================== *)

(** ** The sanitizer (app/core/sanitizer.py) *)

Module SanitizerProps.
Import PyFacts Sanitizer SanitizerFacts.

Lemma no_adj_split (s : str) :
  no_adj s <->
  forall pre c d post, s = pre ++ c :: d :: post -> is_space c = false \/ is_space d = false.
Proof.
  induction s as [|x s IH]; simpl.
  - split; [|auto]. intros _ [|? ?] ? ? ? E; discriminate.
  - destruct s as [|y s].
    + split; [|auto]. intros _ [|? [|? ?]] ? ? ? E; discriminate.
    + split.
      * intros [H1 H2] pre c d post E. destruct pre as [|p pre].
        -- injection E as <- <- <-. exact H1.
        -- injection E as <- E. apply (proj1 IH H2 pre c d post E).
      * intros H. split.
        -- apply (H [] x y s eq_refl).
        -- apply IH. intros pre c d post E. apply (H (x :: pre) c d post).
           now rewrite E.
Qed.

(** X1: [_normalize_space] is idempotent, and what it returns has no
    no-break space, no whitespace at either end and no two whitespace
    characters side by side. *)
Theorem normalize_space_is_a_normal_form (s : str) :
  _normalize_space (_normalize_space s) = _normalize_space s
  /\ ~ In 160%N (_normalize_space s)
  /\ strip (_normalize_space s) = _normalize_space s
  /\ forall pre c d post,
       _normalize_space s = pre ++ c :: d :: post ->
       is_space c = false \/ is_space d = false.
Proof.
  destruct (normalize_tidy s) as (H1 & H2 & H3 & H4).
  split; [apply normalize_idem|]. split.
  - intro Hin. rewrite Forall_forall in H1. now apply (H1 _ Hin).
  - split; [now apply strip_id|]. now apply no_adj_split.
Qed.

Lemma existsb_str_eqb (m : str) (l : list str) :
  existsb (str_eqb m) l = true <-> In m l.
Proof.
  rewrite existsb_exists. split.
  - intros (x & Hx & E). apply str_eqb_eq in E. now subst.
  - intros H. exists m. split; [exact H | apply str_eqb_refl].
Qed.

Lemma dedupe_spec (x : str) (seen l : list str) :
  In x (dedupe seen l) <-> In x l /\ ~ In x seen.
Proof.
  revert seen. induction l as [|m l IH]; intros seen; simpl.
  - tauto.
  - destruct (existsb (str_eqb m) seen) eqn:E.
    + apply existsb_str_eqb in E. rewrite IH. split.
      * tauto.
      * intros [[<-|H] Hn]; tauto.
    + assert (Hm : ~ In m seen).
      { intro H. apply existsb_str_eqb in H. congruence. }
      simpl. rewrite IH. simpl. split.
      * intros [<-|[H Hn]]; [tauto|]. split; [tauto|]. intro. apply Hn. now right.
      * intros [[<-|H] Hn]; [now left|].
        destruct (list_eq_dec N.eq_dec m x) as [<-|Hne]; [now left|].
        right. split; [exact H|]. intros [?|?]; [congruence | tauto].
Qed.

Lemma dedupe_NoDup (seen l : list str) : NoDup (dedupe seen l).
Proof.
  revert seen. induction l as [|m l IH]; intros seen; simpl; [constructor|].
  destruct (existsb (str_eqb m) seen); [apply IH|].
  constructor; [|apply IH]. rewrite dedupe_spec. intros [_ H]. apply H. now left.
Qed.

Lemma insert_by_len_perm (m : str) (l : list str) :
  Permutation (m :: l) (insert_by_len m l).
Proof.
  induction l as [|x l IH]; simpl; [reflexivity|].
  destruct (length x <=? length m)%nat; [reflexivity|].
  rewrite perm_swap. now constructor.
Qed.

Lemma sort_by_len_desc_perm (l : list str) : Permutation l (sort_by_len_desc l).
Proof.
  induction l as [|m l IH]; simpl; [reflexivity|].
  rewrite <- insert_by_len_perm. now constructor.
Qed.

Definition longer_first (a b : str) : Prop := length b <= length a.

Lemma insert_by_len_sorted (m : str) (l : list str) :
  StronglySorted longer_first l -> StronglySorted longer_first (insert_by_len m l).
Proof.
  induction 1 as [|x l Hs IH Hall]; simpl.
  - constructor; constructor.
  - destruct (Nat.leb_spec (length x) (length m)).
    + constructor; [now constructor|]. constructor; [exact H|].
      rewrite Forall_forall in Hall |- *. intros y Hy. specialize (Hall y Hy).
      unfold longer_first in *. lia.
    + constructor; [exact IH|].
      rewrite Forall_forall in Hall |- *. intros y Hy.
      apply insert_by_len_In in Hy. destruct Hy as [->|Hy]; [|now apply Hall].
      unfold longer_first. lia.
Qed.

Lemma sort_by_len_desc_sorted (l : list str) :
  StronglySorted longer_first (sort_by_len_desc l).
Proof.
  induction l as [|m l IH]; simpl; [constructor|]. now apply insert_by_len_sorted.
Qed.

(** X2: [_merge_markers] returns the markers of both lists that are not
    blank, each once, the longer ones first. *)
Theorem merge_markers_unique_longest_first (static dynamic : list str) :
  (forall m, In m (_merge_markers static dynamic)
             <-> (In m static \/ In m dynamic) /\ m <> [] /\ strip m <> [])
  /\ NoDup (_merge_markers static dynamic)
  /\ StronglySorted (fun a b => length b <= length a) (_merge_markers static dynamic).
Proof.
  unfold _merge_markers. split; [|split].
  - intros m. rewrite sort_by_len_desc_In, dedupe_spec, in_app_iff, !filter_In.
    unfold marker_ok. rewrite andb_true_iff.
    assert (Ht : forall t : str, truthy t = true <-> t <> []).
    { intros [|? ?]; simpl; split; congruence. }
    rewrite !Ht. simpl. tauto.
  - eapply Permutation_NoDup; [apply sort_by_len_desc_perm | apply dedupe_NoDup].
  - apply sort_by_len_desc_sorted.
Qed.

Lemma cut_loop_absent (s : str) (ms : list str) (acc : option Z) :
  (forall m, In m ms -> find s m = (-1)%Z) -> fold_left (cut_step s) ms acc = acc.
Proof.
  revert acc. induction ms as [|m ms IH]; intros acc Hall; simpl; [reflexivity|].
  rewrite IH by (intros; apply Hall; now right).
  unfold cut_step. rewrite (Hall m) by now left. reflexivity.
Qed.

Lemma contains_false_find (m s : str) : contains m s = false -> find s m = (-1)%Z.
Proof. unfold contains. intro H. apply negb_false_iff in H. now apply Z.eqb_eq. Qed.

Lemma clean_inline_fixed (t : str) (S D : list str) :
  tidy t -> (forall m, In m (_merge_markers S D) -> contains m t = false) ->
  clean_inline t S D = t.
Proof.
  intros Ht Hno. unfold clean_inline. rewrite (normalize_id _ Ht).
  destruct (negb (truthy t) || _); [reflexivity|].
  rewrite cut_loop_absent; [now apply normalize_id|].
  intros m Hm. now apply contains_false_find, Hno.
Qed.

Lemma clean_inline_prefix (text : str) (S D : list str) :
  exists rest, _normalize_space text = clean_inline text S D ++ rest.
Proof.
  unfold clean_inline. set (s := _normalize_space text).
  destruct (negb (truthy s) || _); [exists []; now rewrite app_nil_r|].
  destruct (fold_left _ _ _) as [k|].
  - rewrite normalize_id by (apply tidy_cut, normalize_tidy).
    unfold slice_to. destruct (rstrip_prefix (firstn (Z.to_nat k) s)) as [w Hw].
    exists (w ++ skipn (Z.to_nat k) s).
    rewrite app_assoc, <- Hw. symmetry. apply firstn_skipn.
  - exists []. rewrite app_nil_r. symmetry. apply normalize_idem.
Qed.

(** X3: [clean_inline] returns a prefix of the normalised text that holds
    none of the markers, and cleaning it again changes nothing. *)
Theorem clean_inline_cuts_to_a_marker_free_prefix
    (text : str) (strip_inline_from dynamic_markers : list str) :
  (exists rest,
      _normalize_space text
      = clean_inline text strip_inline_from dynamic_markers ++ rest)
  /\ (forall m, In m (_merge_markers strip_inline_from dynamic_markers) ->
        contains m (clean_inline text strip_inline_from dynamic_markers) = false)
  /\ clean_inline (clean_inline text strip_inline_from dynamic_markers)
       strip_inline_from dynamic_markers
     = clean_inline text strip_inline_from dynamic_markers.
Proof.
  split; [apply clean_inline_prefix|]. split.
  - intros m Hm. now apply clean_inline_no_marker.
  - apply clean_inline_fixed; [apply clean_inline_tidy|].
    intros m Hm. now apply clean_inline_no_marker.
Qed.

Lemma filter_map_fixed {A : Type} (f : A -> A) (p : A -> bool) (l : list A) :
  (forall x, In x l -> f x = x /\ p x = true) -> filter p (map f l) = l.
Proof.
  induction l as [|x l IH]; intros H; simpl; [reflexivity|].
  destruct (H x (or_introl eq_refl)) as [-> ->]. f_equal. apply IH.
  intros y Hy. apply H. now right.
Qed.

(** X4: [sanitize_lines] is idempotent: lines that went through it once
    pass unchanged through it again (with the same markers). *)
Theorem sanitize_lines_idempotent
    (lines drop_lines_if_contains strip_inline_from dynamic_markers : list str) :
  sanitize_lines
    (sanitize_lines lines drop_lines_if_contains strip_inline_from dynamic_markers)
    drop_lines_if_contains strip_inline_from dynamic_markers
  = sanitize_lines lines drop_lines_if_contains strip_inline_from dynamic_markers.
Proof.
  unfold sanitize_lines. rewrite !sanitize_loop. simpl.
  apply filter_map_fixed. intros t Ht. apply filter_In in Ht. destruct Ht as [Hin Hk].
  split; [|exact Hk]. apply in_map_iff in Hin. destruct Hin as (ln & <- & _).
  apply clean_inline_fixed; [apply clean_inline_tidy|].
  intros m Hm. now apply clean_inline_no_marker.
Qed.

Definition not_newline (c : char) : bool := negb (c =? 10)%N.

Lemma break_keeps_text (markers : list str) (text : str) :
  filter not_newline (break_before_markers markers text) = filter not_newline text.
Proof.
  induction text as [|c t IH]; [reflexivity|].
  cbn [break_before_markers]. rewrite filter_app.
  change (filter not_newline (c :: break_before_markers markers t))
    with (if not_newline c then c :: filter not_newline (break_before_markers markers t)
          else filter not_newline (break_before_markers markers t)).
  rewrite IH. destruct (existsb _ markers); reflexivity.
Qed.

Lemma find_from_shift (s m : str) (i j : Z) :
  (0 <= i)%Z -> (0 <= j)%Z ->
  find_from s m i = (-1)%Z -> find_from s m j = (-1)%Z.
Proof.
  revert i j. induction s as [|c s IH]; intros i j Hi Hj; simpl.
  - destruct (startswith [] m); [lia | auto].
  - destruct (startswith (c :: s) m); [lia|]. apply IH; lia.
Qed.

Lemma contains_tail (m : str) (c : char) (t : str) :
  contains m (c :: t) = false -> contains m t = false.
Proof.
  unfold contains, find. rewrite !negb_false_iff, !Z.eqb_eq. cbn [find_from].
  destruct (startswith (c :: t) m); [discriminate|].
  apply find_from_shift; lia.
Qed.

Lemma break_none (markers : list str) (text : str) :
  (forall m, In m markers -> contains m text = false) ->
  break_before_markers markers text = text.
Proof.
  induction text as [|c t IH]; intros Hno; simpl; [reflexivity|].
  destruct (existsb (startswith (c :: t)) markers) eqn:E.
  - apply existsb_exists in E. destruct E as (m & Hm & Hs).
    specialize (Hno m Hm). unfold contains, find in Hno.
    rewrite (find_from_hit _ _ _ Hs) in Hno. discriminate.
  - simpl. f_equal. apply IH. intros m Hm. apply (contains_tail m c), Hno, Hm.
Qed.

(** A marker without a newline that starts the broken text starts the
    text. *)
Lemma break_head (markers : list str) (m post text : str) :
  ~ In 10%N m ->
  break_before_markers markers text = m ++ post ->
  (m = [] \/ existsb (startswith text) markers = false) /\ startswith text m = true.
Proof.
  revert text. induction m as [|a m IH]; intros text Hnl E.
  - split; [now left | reflexivity].
  - destruct text as [|c t]; [discriminate|]. simpl in E.
    destruct (existsb (startswith (c :: t)) markers) eqn:Ex.
    + simpl in E. injection E as <- _. exfalso. apply Hnl. now left.
    + simpl in E. injection E as <- E.
      destruct (IH t (fun H => Hnl (or_intror H)) E) as [_ Hs].
      split; [now right|]. simpl. unfold char_eqb. now rewrite N.eqb_refl.
Qed.

Lemma break_marker_at_line_start (markers : list str) (text pre m post : str) :
  In m markers -> m <> [] -> ~ In 10%N m ->
  break_before_markers markers text = pre ++ m ++ post ->
  exists pre0, pre = pre0 ++ [10%N].
Proof.
  intros Hm Hne Hnl. revert pre. induction text as [|c t IH]; intros pre E.
  - simpl in E. destruct pre; destruct m; try discriminate. contradiction.
  - assert (Hpre : pre <> []).
    { intros ->. simpl in E. destruct (break_head markers m post (c :: t) Hnl E) as [[?|Hx] Hs];
        [contradiction|].
      assert (existsb (startswith (c :: t)) markers = true).
      { apply existsb_exists. now exists m. }
      congruence. }
    destruct pre as [|x pre]; [contradiction|]. simpl in E.
    destruct (existsb (startswith (c :: t)) markers).
    + simpl in E. injection E as <- E. destruct pre as [|y pre].
      * now exists [].
      * simpl in E. injection E as <- E. destruct (IH pre E) as [pre0 ->].
        exists (10%N :: c :: pre0). reflexivity.
    + simpl in E. injection E as <- E. destruct (IH pre E) as [pre0 ->].
      exists (c :: pre0). reflexivity.
Qed.

(** The second text is the first with newlines put in: every character
    of the first is kept, in order, and one newline is added in front of
    each character at which one of the markers starts, and nowhere
    else. *)
Inductive newlines_added (markers : list str) : str -> str -> Prop :=
| newlines_added_nil : newlines_added markers [] []
| newlines_added_keep c t r :
    existsb (startswith (c :: t)) markers = false ->
    newlines_added markers t r -> newlines_added markers (c :: t) (c :: r)
| newlines_added_break c t r :
    existsb (startswith (c :: t)) markers = true ->
    newlines_added markers t r -> newlines_added markers (c :: t) (10%N :: c :: r).

Lemma newlines_added_none (text : str) : newlines_added [] text text.
Proof. induction text; now constructor. Qed.

Lemma break_adds_newlines (markers : list str) (text : str) :
  newlines_added markers text (break_before_markers markers text).
Proof.
  induction text as [|c t IH]; [constructor|].
  cbn [break_before_markers]. destruct (existsb _ markers) eqn:E; now constructor.
Qed.

(** X5: [break_glued_markers] only adds newlines: every character of the
    text is kept, in order, the newlines that were there included, and
    one newline is added in front of each position at which a marker
    starts, and nowhere else.  So it leaves a text in which no marker
    occurs as it is, and afterwards every occurrence of a marker (that
    holds no newline itself) comes right after a newline. *)
Theorem break_glued_markers_puts_markers_at_line_starts
    (text : str) (break_before dynamic_markers : list str) :
  newlines_added (_merge_markers break_before dynamic_markers) text
    (break_glued_markers text break_before dynamic_markers)
  /\ filter (fun c => negb (c =? 10)%N)
       (break_glued_markers text break_before dynamic_markers)
     = filter (fun c => negb (c =? 10)%N) text
  /\ ((forall m, In m (_merge_markers break_before dynamic_markers) ->
         contains m text = false) ->
      break_glued_markers text break_before dynamic_markers = text)
  /\ (forall m pre post,
        In m (_merge_markers break_before dynamic_markers) ->
        ~ In 10%N m ->
        break_glued_markers text break_before dynamic_markers = pre ++ m ++ post ->
        exists pre0, pre = pre0 ++ [10%N]).
Proof.
  unfold break_glued_markers.
  destruct (truthy text) eqn:Ht; simpl.
  2:{ destruct text; [|discriminate]. split; [constructor|].
      split; [reflexivity|]. split; [reflexivity|].
      intros m pre post Hm _ E. apply merged_nonempty in Hm.
      destruct pre; destruct m; try discriminate. contradiction. }
  destruct (_merge_markers break_before dynamic_markers) as [|m0 ms] eqn:Em.
  - split; [apply newlines_added_none|].
    split; [reflexivity|]. split; [reflexivity|]. intros m pre post [].
  - split; [apply break_adds_newlines|].
    split; [apply break_keeps_text|]. split; [apply break_none|].
    intros m pre post Hm Hnl E.
    apply (break_marker_at_line_start (m0 :: ms) text pre m post Hm); try assumption.
    apply (merged_nonempty m break_before dynamic_markers). now rewrite Em.
Qed.

End SanitizerProps.

(** ** The text of the pages (app/core/pdf_text.py) *)

Module PdfTextProps.
Import PyFacts PdfText.

Lemma nth_after_skipn {A : Type} (d : A) (l : list A) (a k : nat) :
  nth (a + k) l d = nth k (skipn a l) d.
Proof.
  revert l. induction a as [|a IH]; intros l; [reflexivity|].
  destruct l as [|x l]; simpl; [now destruct k | apply IH].
Qed.

Lemma map_nth_firstn {A : Type} (d : A) (l : list A) (m : nat) :
  m <= length l -> map (fun k => nth k l d) (seq 0 m) = firstn m l.
Proof.
  revert m. induction l as [|x l IH]; intros m Hm.
  - simpl in Hm. now replace m with 0 by lia.
  - destruct m as [|m]; [reflexivity|]. cbn [seq map firstn nth]. f_equal.
    rewrite <- seq_shift, map_map. apply IH. simpl in Hm. lia.
Qed.

Lemma map_nth_seq {A : Type} (d : A) (l : list A) (a m : nat) :
  a + m <= length l ->
  map (fun k => nth (a + k) l d) (seq 0 m) = firstn m (skipn a l).
Proof.
  intros Hle. rewrite <- (map_nth_firstn d) by (rewrite length_skipn; lia).
  apply map_ext. intros k. apply nth_after_skipn.
Qed.

(** X6: [extract_pages_text] raises ValueError exactly when a bound is
    below 1 or the end is beyond the last page; otherwise it returns the
    pages from [start] to [end] in order, which are none at all when
    [start] is above [end]. *)
Theorem extract_pages_text_returns_the_slice
    (pages : list str) (start_1based end_1based : Z) :
  ((start_1based < 1 \/ end_1based < 1 \/ Z.of_nat (length pages) < end_1based)%Z ->
   extract_pages_text pages start_1based end_1based = Raises ValueError)
  /\ ((1 <= start_1based)%Z -> (1 <= end_1based <= Z.of_nat (length pages))%Z ->
      extract_pages_text pages start_1based end_1based
      = Returns (firstn (Z.to_nat (end_1based - start_1based + 1))
                   (skipn (Z.to_nat (start_1based - 1)) pages))).
Proof.
  unfold extract_pages_text. split.
  - intros H.
    destruct (Z.ltb_spec start_1based 1); [reflexivity|].
    destruct (Z.ltb_spec end_1based 1); [reflexivity|]. simpl.
    destruct (Z.ltb_spec (Z.of_nat (length pages)) end_1based); [reflexivity | lia].
  - intros Hs He.
    destruct (Z.ltb_spec start_1based 1); [lia|].
    destruct (Z.ltb_spec end_1based 1); [lia|]. cbn [orb].
    destruct (Z.ltb_spec (Z.of_nat (length pages)) end_1based); [lia|].
    f_equal. unfold py_range. rewrite map_map.
    replace (Z.to_nat (end_1based - (start_1based - 1)))
      with (Z.to_nat (end_1based - start_1based + 1)) by lia.
    set (a := Z.to_nat (start_1based - 1)).
    set (m := Z.to_nat (end_1based - start_1based + 1)).
    destruct (Z.le_gt_cases start_1based end_1based) as [Hle|Hgt].
    + rewrite <- (@map_nth_seq str [] pages a m) by lia.
      apply map_ext. intros k. f_equal. lia.
    + replace m with 0 by lia. reflexivity.
Qed.

Definition not_space (c : char) : Prop := is_space c = false.
Definition word (w : str) : Prop := w <> [] /\ Forall not_space w.

Lemma split_go_words (cur s : str) :
  Forall not_space cur -> Forall word (split_go cur s).
Proof.
  revert cur. induction s as [|c s IH]; intros cur Hc; simpl.
  - destruct cur as [|x cur]; [constructor|]. constructor; [|constructor].
    split; [|now apply Forall_rev].
    intro E. apply (f_equal (@length _)) in E. rewrite length_rev in E. discriminate.
  - destruct (is_space c) eqn:E.
    + destruct cur as [|x cur]; [now apply IH|]. constructor; [|now apply IH].
      split; [|now apply Forall_rev].
      intro E'. apply (f_equal (@length _)) in E'. rewrite length_rev in E'. discriminate.
    + apply IH. now constructor.
Qed.

Lemma split_go_word (cur w s : str) :
  Forall not_space w -> split_go cur (w ++ s) = split_go (rev w ++ cur) s.
Proof.
  revert cur. induction w as [|c w IH]; intros cur Hw; [reflexivity|].
  inversion Hw as [|? ? Hc Hw']; subst. cbn [app split_go]. unfold not_space in Hc.
  rewrite Hc, IH by assumption. cbn [rev]. now rewrite <- app_assoc.
Qed.

Lemma split_join (words : list str) :
  Forall word words -> split (join [32%N] words) = words.
Proof.
  unfold split. induction 1 as [|w ws [Hne Hw] Hws IH]; [reflexivity|].
  destruct ws as [|w' ws].
  - cbn [join]. rewrite <- (app_nil_r w) at 1. rewrite split_go_word by assumption.
    rewrite app_nil_r. simpl. destruct (rev w) eqn:E.
    + apply (f_equal (@length _)) in E. rewrite length_rev in E.
      destruct w; [contradiction | discriminate].
    + now rewrite <- E, rev_involutive.
  - change (join [32%N] (w :: w' :: ws)) with (w ++ [32%N] ++ join [32%N] (w' :: ws)).
    rewrite split_go_word by assumption. rewrite app_nil_r.
    cbn [app split_go]. change (is_space 32%N) with true. cbv iota.
    destruct (rev w) eqn:E.
    + apply (f_equal (@length _)) in E. rewrite length_rev in E.
      destruct w; [contradiction | discriminate].
    + rewrite <- E, rev_involutive. f_equal. exact IH.
Qed.

Lemma hd_ok_rev_app (a b : str) : b <> [] -> hd_ok (rev b) -> hd_ok (rev (a ++ b)).
Proof.
  intros Hb H. rewrite rev_app_distr. destruct (rev b) as [|x r] eqn:E; [|exact H].
  apply (f_equal (@length _)) in E. rewrite length_rev in E.
  destruct b; [contradiction | discriminate].
Qed.

Lemma join_nonempty (w : str) (ws : list str) : w <> [] -> join [32%N] (w :: ws) <> [].
Proof. destruct w; [contradiction|]. destruct ws; discriminate. Qed.

Lemma join_words_ends (words : list str) :
  Forall word words -> hd_ok (join [32%N] words) /\ hd_ok (rev (join [32%N] words)).
Proof.
  induction 1 as [|w ws [Hne Hw] Hws IH]; [split; exact I|].
  assert (Hh : hd_ok w).
  { destruct w; [exact I|]. now inversion Hw. }
  assert (Hl : hd_ok (rev w)).
  { apply Forall_rev in Hw. destruct (rev w); [exact I|]. now inversion Hw. }
  destruct ws as [|w' ws]; [now split|].
  change (join [32%N] (w :: w' :: ws)) with (w ++ [32%N] ++ join [32%N] (w' :: ws)).
  split.
  - destruct w; [contradiction | exact Hh].
  - rewrite app_assoc. apply hd_ok_rev_app; [|apply IH].
    inversion Hws as [|? ? [Hne' _] _]; subst. now apply join_nonempty.
Qed.

Lemma linebreak_is_space (c : char) : is_linebreak c = true -> is_space c = true.
Proof.
  unfold is_linebreak.
  rewrite !orb_true_iff, !andb_true_iff, !N.leb_le, !N.eqb_eq.
  intros [[[[[H1 H2] | [H1 H2]] | ->] | ->] | ->]; try reflexivity; unfold is_space.
  - assert (E : ((9 <=? c) && (c <=? 13))%N = true).
    { apply andb_true_iff. split; apply N.leb_le; lia. }
    now rewrite E.
  - assert (E : ((28 <=? c) && (c <=? 32))%N = true).
    { apply andb_true_iff. split; apply N.leb_le; lia. }
    rewrite E, orb_true_r. reflexivity.
Qed.

Lemma splitlines_go_one (cur s : str) :
  Forall (fun c => is_linebreak c = false) s ->
  splitlines_go cur s = match rev cur ++ s with [] => [] | l => [l] end.
Proof.
  revert cur. induction s as [|c s IH]; intros cur Hs; simpl.
  - rewrite app_nil_r. destruct cur as [|x cur]; [reflexivity|].
    destruct (rev (x :: cur)) eqn:E; [|reflexivity].
    apply (f_equal (@length _)) in E. rewrite length_rev in E. discriminate.
  - inversion Hs as [|? ? Hc Hs']; subst. rewrite Hc, IH by assumption.
    cbn [rev]. now rewrite <- app_assoc.
Qed.

Lemma join_words_chars (words : list str) :
  Forall word words ->
  Forall (fun c => is_space c = true -> c = 32%N) (join [32%N] words).
Proof.
  induction 1 as [|w ws [Hne Hw] Hws IH]; [constructor|].
  assert (Hw' : Forall (fun c => is_space c = true -> c = 32%N) w).
  { eapply Forall_impl; [|exact Hw]. unfold not_space. intros c -> ?. discriminate. }
  destruct ws as [|w' ws]; [exact Hw'|].
  change (join [32%N] (w :: w' :: ws)) with (w ++ [32%N] ++ join [32%N] (w' :: ws)).
  apply Forall_app. split; [exact Hw'|]. constructor; [reflexivity | exact IH].
Qed.

Lemma normalize_lines_words (text ln : str) :
  In ln (normalize_lines text) ->
  exists w ws, Forall word (w :: ws) /\ ln = join [32%N] (w :: ws).
Proof.
  unfold normalize_lines. intro H. apply filter_In in H. destruct H as [H Ht].
  apply in_map_iff in H. destruct H as (raw & <- & _).
  pose proof (split_go_words [] (strip raw) (Forall_nil _)) as Hw. fold (split (strip raw)) in Hw.
  destruct (split (strip raw)) as [|w ws]; [discriminate|]. now exists w, ws.
Qed.

(** X7: every line that [normalize_lines] returns is made of one or more
    words without whitespace joined by single spaces, and is a fixed
    point: normalising the line gives the line back. *)
Theorem normalize_lines_gives_single_spaced_lines (text : str) :
  Forall (fun ln =>
            (exists w ws,
                ln = join [32%N] (w :: ws)
                /\ Forall (fun x => x <> [] /\ Forall (fun c => is_space c = false) x)
                     (w :: ws))
            /\ normalize_lines ln = [ln])
    (normalize_lines text).
Proof.
  apply Forall_forall. intros ln Hin.
  destruct (normalize_lines_words text ln Hin) as (w & ws & Hw & ->).
  split; [now exists w, ws|].
  unfold normalize_lines, splitlines.
  rewrite splitlines_go_one.
  - cbn [rev app].
    destruct (join [32%N] (w :: ws)) as [|x r] eqn:E.
    { exfalso. inversion Hw as [|? ? [Hne _] _]; subst. now apply (join_nonempty w ws). }
    rewrite <- E. cbn [map].
    destruct (join_words_ends _ Hw) as [H1 H2].
    rewrite (strip_id _ H1 H2), (split_join _ Hw), E. reflexivity.
  - eapply Forall_impl; [|apply (join_words_chars _ Hw)].
    intros c Hc. destruct (is_linebreak c) eqn:El; [|reflexivity].
    rewrite (Hc (linebreak_is_space c El)) in El. discriminate.
Qed.

End PdfTextProps.

(** ** The helpers of the extractor (app/bases/sinapi/composicoes_parser.py) *)

Module HelperProps.
Import PyFacts NumberFacts Composicoes CandidateFacts.


(** A text in which the only whitespace is single spaces between words. *)
Definition single_spaced (s : str) : Prop :=
  Forall (fun c => is_space c = true -> c = 32%N) s
  /\ no_adj s /\ hd_ok s /\ hd_ok (rev s).

Lemma sub_ws1_chars (b : bool) (s : str) :
  Forall (fun c => is_space c = true -> c = 32%N) (sub_ws1 b s).
Proof.
  revert b. induction s as [|c s IH]; intros b; simpl; [constructor|].
  destruct (is_space c) eqn:E.
  - destruct b; [apply IH|]. constructor; [reflexivity | apply IH].
  - constructor; [congruence | apply IH].
Qed.

Lemma sub_ws1_true_hd (s : str) : hd_ok (sub_ws1 true s).
Proof.
  induction s as [|c s IH]; simpl; [exact I|].
  destruct (is_space c) eqn:E; [exact IH | exact E].
Qed.

Lemma sub_ws1_no_adj (b : bool) (s : str) : no_adj (sub_ws1 b s).
Proof.
  revert b. induction s as [|c s IH]; intros b; [exact I|].
  cbn [sub_ws1]. destruct (is_space c) eqn:E.
  - destruct b; [apply IH|].
    pose proof (sub_ws1_true_hd s) as Hh. pose proof (IH true) as Hn.
    destruct (sub_ws1 true s) as [|d r]; [exact I|]. simpl in Hh. split; [now right | exact Hn].
  - pose proof (IH false) as Hn.
    destruct (sub_ws1 false s) as [|d r]; [exact I|]. split; [now left | exact Hn].
Qed.

Lemma no_adj_suffix (p q : str) : no_adj (p ++ q) -> no_adj q.
Proof.
  induction p as [|c p IH]; [auto|]. intros H. apply IH.
  cbn [app] in H. destruct (p ++ q); [exact I | apply H].
Qed.

Lemma Forall_strip (P : char -> Prop) (s : str) : Forall P s -> Forall P (strip s).
Proof. intro H. now apply rstrip_Forall, lstrip_Forall. Qed.

Lemma no_adj_strip (s : str) : no_adj s -> no_adj (strip s).
Proof.
  intro H. unfold strip.
  destruct (lstrip_suffix s) as [w Hw]. rewrite Hw in H. apply no_adj_suffix in H.
  destruct (rstrip_prefix (lstrip s)) as [w' Hw']. rewrite Hw' in H.
  now apply no_adj_prefix in H.
Qed.

Lemma colapsar_single_spaced (s : str) : single_spaced (colapsar_espacos s).
Proof.
  unfold colapsar_espacos. repeat split.
  - apply Forall_strip, sub_ws1_chars.
  - apply no_adj_strip, sub_ws1_no_adj.
  - apply strip_hd.
  - apply strip_last.
Qed.

Lemma sub_ws1_id (s : str) :
  Forall (fun c => is_space c = true -> c = 32%N) s -> no_adj s ->
  sub_ws1 false s = s /\ (hd_ok s -> sub_ws1 true s = s).
Proof.
  induction s as [|c s IH]; intros Hc Hn; [split; reflexivity|].
  inversion Hc as [|? ? Hc1 Hc2]; subst.
  assert (Hn' : no_adj s) by (simpl in Hn; destruct s; [exact I | apply Hn]).
  destruct (IH Hc2 Hn') as [IH1 IH2].
  cbn [sub_ws1]. destruct (is_space c) eqn:E.
  - split; [|simpl; congruence].
    rewrite (Hc1 eq_refl). f_equal. apply IH2.
    destruct s as [|d s]; [exact I|]. simpl in Hn. destruct Hn as [[H|H] _]; [congruence | exact H].
  - split; intros; now rewrite IH1.
Qed.

Lemma colapsar_fixed (s : str) : single_spaced s -> colapsar_espacos s = s.
Proof.
  intros (Hc & Hn & Hh & Hl). unfold colapsar_espacos.
  rewrite replace_one_absent.
  - rewrite (proj1 (sub_ws1_id s Hc Hn)). now apply strip_id.
  - eapply Forall_impl; [|exact Hc]. intros c H ->. specialize (H eq_refl). discriminate.
Qed.

(** X8: [colapsar_espacos] is idempotent; in what it returns the only
    whitespace is single spaces between words. *)
Theorem colapsar_espacos_is_a_normal_form (s : str) :
  colapsar_espacos (colapsar_espacos s) = colapsar_espacos s
  /\ Forall (fun c => is_space c = true -> c = 32%N) (colapsar_espacos s)
  /\ strip (colapsar_espacos s) = colapsar_espacos s
  /\ forall pre c d post,
       colapsar_espacos s = pre ++ c :: d :: post ->
       is_space c = false \/ is_space d = false.
Proof.
  destruct (colapsar_single_spaced s) as (Hc & Hn & Hh & Hl).
  split; [now apply colapsar_fixed|]. split; [exact Hc|].
  split; [now apply strip_id|].
  revert Hn. generalize (colapsar_espacos s). clear. intros s.
  induction s as [|x s IH]; simpl.
  - intros _ [|? ?] ? ? ? E; discriminate.
  - destruct s as [|y s].
    + intros _ [|? [|? ?]] ? ? ? E; discriminate.
    + intros [H1 H2] pre c d post E. destruct pre as [|p pre].
      * injection E as <- <- <-. exact H1.
      * injection E as <- E. apply (IH H2 pre c d post E).
Qed.

(** *** [_make_id] and [_split_id] *)

Lemma single_spaced_bar (a b : str) :
  single_spaced a -> single_spaced b -> single_spaced (a ++ [124%N] ++ b).
Proof.
  intros (Ha1 & Ha2 & Ha3 & Ha4) (Hb1 & Hb2 & Hb3 & Hb4). repeat split.
  - apply Forall_app. split; [exact Ha1|]. constructor; [discriminate | exact Hb1].
  - clear Ha1 Ha3 Ha4 Hb1 Hb4. induction a as [|x a IH]; simpl.
    + destruct b; [exact I|]. split; [now left | exact Hb2].
    + destruct a as [|y a]; simpl.
      * split; [now right|]. destruct b; [exact I|]. split; [now left | exact Hb2].
      * simpl in Ha2. destruct Ha2 as [H1 H2]. split; [exact H1 | now apply IH].
  - destruct a; [vm_compute; reflexivity | exact Ha3].
  - destruct b as [|y b].
    + rewrite rev_app_distr. reflexivity.
    + rewrite app_assoc. apply PdfTextProps.hd_ok_rev_app; [discriminate | exact Hb4].
Qed.

Lemma split1_first (a b : str) (sep : char) :
  ~ In sep a -> split1 (a ++ sep :: b) sep = (a, b).
Proof.
  induction a as [|x a IH]; intros Hn; simpl.
  - unfold char_eqb. now rewrite N.eqb_refl.
  - destruct (char_eqb x sep) eqn:E.
    + apply char_eqb_eq in E. subst. exfalso. apply Hn. now left.
    + rewrite IH; [reflexivity|]. intro. apply Hn. now right.
Qed.

Lemma contains_one (c : char) (a b : str) : contains [c] (a ++ c :: b) = true.
Proof.
  unfold contains, find. apply negb_true_iff, Z.eqb_neq.
  assert (H : forall i, (0 <= i)%Z -> find_from (a ++ c :: b) [c] i <> (-1)%Z).
  { induction a as [|x a IH]; intros i Hi; simpl.
    - unfold char_eqb. rewrite N.eqb_refl. simpl. lia.
    - destruct (char_eqb c x && true); [lia|]. apply IH. lia. }
  apply H. lia.
Qed.

Lemma lstrip_In (x : char) (s : str) : In x (lstrip s) -> In x s.
Proof.
  induction s as [|c s IH]; simpl; [auto|].
  destruct (is_space c); [auto|]. now simpl.
Qed.

Lemma strip_In (x : char) (s : str) : In x (strip s) -> In x s.
Proof.
  unfold strip, rstrip. intro H.
  apply (proj2 (in_rev _ _)), lstrip_In in H.
  apply (proj2 (in_rev _ _)) in H. now apply lstrip_In.
Qed.

Lemma sub_ws1_In (x : char) (b : bool) (s : str) :
  In x (sub_ws1 b s) -> In x s \/ x = 32%N.
Proof.
  revert b. induction s as [|c s IH]; intros b; simpl; [auto|].
  destruct (is_space c).
  - destruct b; simpl; intros H.
    + destruct (IH _ H); auto.
    + destruct H as [<-|H]; [auto|]. destruct (IH _ H); auto.
  - simpl. intros [<-|H]; [auto|]. destruct (IH _ H); auto.
Qed.

Lemma replace_one_In (x a b : char) (s : str) :
  In x (replace s [a] [b]) -> In x s \/ x = b.
Proof.
  unfold replace. induction s as [|c s IH]; [simpl; auto|].
  rewrite replace_one_cons. intros H. apply in_app_or in H. destruct H as [H|H].
  - destruct (char_eqb a c); destruct H as [<-|[]]; simpl; auto.
  - destruct (IH H); simpl; auto.
Qed.

Lemma colapsar_In (x : char) (s : str) :
  In x (colapsar_espacos s) -> In x s \/ x = 32%N.
Proof.
  unfold colapsar_espacos. intro H. apply strip_In, sub_ws1_In in H.
  destruct H as [H|H]; [|auto]. apply replace_one_In in H. tauto.
Qed.

(** X9: an identity made by [_make_id] from a code without a bar is taken
    apart again by [_split_id] into the collapsed code and bank, and
    [_make_id] of these is the identity. *)
Theorem split_id_inverts_make_id (codigo banco : str) :
  ~ In 124%N codigo ->
  _split_id (_make_id codigo banco) = (colapsar_espacos codigo, colapsar_espacos banco)
  /\ _make_id (colapsar_espacos codigo) (colapsar_espacos banco) = _make_id codigo banco.
Proof.
  intros Hbar.
  assert (Hc : ~ In 124%N (colapsar_espacos codigo)).
  { intro H. apply colapsar_In in H. destruct H as [H|H]; [auto | discriminate]. }
  pose proof (colapsar_single_spaced codigo) as Sc.
  pose proof (colapsar_single_spaced banco) as Sb.
  split.
  - unfold _split_id, _make_id.
    rewrite (colapsar_fixed _ (single_spaced_bar _ _ Sc Sb)).
    cbn [app]. rewrite contains_one. cbn [negb].
    rewrite (split1_first _ _ _ Hc).
    destruct Sc as (_ & _ & H1 & H2), Sb as (_ & _ & H3 & H4).
    now rewrite !strip_id.
  - unfold _make_id.
    now rewrite (colapsar_fixed _ Sc), (colapsar_fixed _ Sb).
Qed.

Lemma split_id_inverts_make_id_witness :
  _split_id (_make_id (lit " 88316 ") (lit "SINAPI"))
  = (colapsar_espacos (lit " 88316 "), colapsar_espacos (lit "SINAPI"))
  /\ _make_id (colapsar_espacos (lit " 88316 ")) (colapsar_espacos (lit "SINAPI"))
     = _make_id (lit " 88316 ") (lit "SINAPI").
Proof.
  apply (split_id_inverts_make_id (lit " 88316 ") (lit "SINAPI")).
  vm_compute. intros Hin.
  repeat (destruct Hin as [Hin|Hin]; [discriminate Hin|]). exact Hin.
Defined.

End HelperProps.

(** ** Prefix matching and the choice of a candidate *)

Module CandidateProps.
Import PyFacts Composicoes CandidateFacts.

Section WithUnicode.
Context `{Unicode}.

(** X10: [_prefix_match] does not depend on the order of its two codes; it
    holds only between codes that, normalised, are both at least
    [min_len] long and differ in length by at most [max_missing]; and a
    match stays one under a larger [max_missing] or a smaller [min_len]
    (a match for an alias, with 1, is one for a recovered code, with 4). *)
Theorem prefix_match_symmetric_and_monotone (a b : str) (max_missing min_len : Z) :
  _prefix_match a b max_missing min_len = _prefix_match b a max_missing min_len
  /\ (_prefix_match a b max_missing min_len = true ->
      (min_len <= Z.of_nat (length (_norm_code a)))%Z
      /\ (min_len <= Z.of_nat (length (_norm_code b)))%Z
      /\ (Z.abs (Z.of_nat (length (_norm_code a)) - Z.of_nat (length (_norm_code b)))
          <= max_missing)%Z
      /\ (startswith (_norm_code a) (_norm_code b) = true
          \/ startswith (_norm_code b) (_norm_code a) = true))
  /\ (forall max_missing' min_len',
        (max_missing <= max_missing')%Z -> (min_len' <= min_len)%Z ->
        _prefix_match a b max_missing min_len = true ->
        _prefix_match a b max_missing' min_len' = true).
Proof.
  unfold _prefix_match. cbv zeta.
  set (na := _norm_code a). set (nb := _norm_code b).
  set (la := Z.of_nat (length na)). set (lb := Z.of_nat (length nb)).
  split; [|split].
  - rewrite (orb_comm (negb (truthy na))), (Z.min_comm la lb).
    replace (Z.abs (lb - la)) with (Z.abs (la - lb)) by lia.
    now rewrite (orb_comm (startswith na nb)).
  - destruct (negb (truthy na) || negb (truthy nb)); [discriminate|].
    destruct (Z.ltb_spec (Z.min la lb) min_len); [discriminate|].
    destruct (Z.ltb_spec max_missing (Z.abs (la - lb))); [discriminate|].
    intro Hs. apply orb_true_iff in Hs. repeat split; try lia. exact Hs.
  - intros mm' ml' Hmm Hml.
    destruct (negb (truthy na) || negb (truthy nb)); [discriminate|].
    destruct (Z.ltb_spec (Z.min la lb) min_len); [discriminate|].
    destruct (Z.ltb_spec max_missing (Z.abs (la - lb))); [discriminate|].
    destruct (Z.ltb_spec (Z.min la lb) ml'); [lia|].
    destruct (Z.ltb_spec mm' (Z.abs (la - lb))); [lia|]. auto.
Qed.

Lemma str_leb_antisym (a b : str) :
  str_leb a b = true -> str_leb b a = true -> a = b.
Proof.
  revert b. induction a as [|x a IH]; intros [|y b]; simpl; try discriminate; auto.
  rewrite !orb_true_iff, !andb_true_iff, !N.ltb_lt, !N.eqb_eq.
  intros [H1|[H1 H2]] [H3|[H3 H4]]; try lia. subst. f_equal. now apply IH.
Qed.

Lemma le_s_antisym (a b : scored) : le_s a b -> le_s b a -> a = b.
Proof.
  unfold le_s. rewrite !scored_leb_iff.
  destruct a as [ka sa], b as [kb sb]. simpl.
  intros [H1|[H1 H2]] [H3|[H3 H4]].
  - exfalso. unfold key_lt in *. lia.
  - exfalso. subst. now apply (key_lt_irrefl ka).
  - exfalso. subst. now apply (key_lt_irrefl kb).
  - subst. f_equal. now apply str_leb_antisym.
Qed.

Lemma le_s_refl (a : scored) : le_s a a.
Proof. destruct (le_s_total a a); assumption. Qed.

Lemma sorted_head_least (x : scored) (l : list scored) (y : scored) :
  StronglySorted le_s (x :: l) -> In y (x :: l) -> le_s x y.
Proof.
  intros Hs [<-|Hy]; [apply le_s_refl|].
  inversion Hs as [|? ? _ Hall]; subst. rewrite Forall_forall in Hall. now apply Hall.
Qed.

Lemma sorted_perm_eq (l1 l2 : list scored) :
  StronglySorted le_s l1 -> StronglySorted le_s l2 -> Permutation l1 l2 -> l1 = l2.
Proof.
  revert l2. induction l1 as [|x l1 IH]; intros l2 H1 H2 Hp.
  - apply Permutation_nil in Hp. now subst.
  - destruct l2 as [|y l2]; [apply Permutation_sym, Permutation_nil in Hp; discriminate|].
    assert (x = y).
    { apply le_s_antisym.
      - apply (sorted_head_least x l1 y H1).
        apply (Permutation_in _ (Permutation_sym Hp)). now left.
      - apply (sorted_head_least y l2 x H2).
        apply (Permutation_in _ Hp). now left. }
    subst y. f_equal. apply IH.
    + now inversion H1.
    + now inversion H2.
    + now apply Permutation_cons_inv in Hp.
Qed.

Lemma choose_is_pick (expected_code : str) (candidates : list str) :
  _choose_best_prefix_candidate expected_code candidates
  = pick (sort_scored (map (score (_norm_code expected_code)) candidates)).
Proof. destruct candidates; reflexivity. Qed.

(** X11: the choice of [_choose_best_prefix_candidate] does not depend on
    the order in which the candidates are given, and what it returns is
    one of them. *)
Theorem choose_best_prefix_candidate_ignores_order
    (expected_code : str) (candidates candidates' : list str) :
  Permutation candidates candidates' ->
  _choose_best_prefix_candidate expected_code candidates
  = _choose_best_prefix_candidate expected_code candidates'
  /\ forall c, _choose_best_prefix_candidate expected_code candidates = Some c ->
               In c candidates.
Proof.
  intros Hp. rewrite !choose_is_pick. split.
  - f_equal. apply sorted_perm_eq; try apply sort_scored_sorted.
    rewrite <- !sort_scored_perm. now apply Permutation_map.
  - intros c Hc.
    pose proof (sort_scored_perm (map (score (_norm_code expected_code)) candidates)) as Hs.
    destruct (sort_scored _) as [|best rest]; [discriminate|].
    assert (Hb : In best (map (score (_norm_code expected_code)) candidates)).
    { apply (Permutation_in _ (Permutation_sym Hs)). now left. }
    apply in_map_iff in Hb. destruct Hb as (c0 & <- & Hin).
    simpl in Hc. destruct rest as [|second ?].
    + injection Hc as <-. exact Hin.
    + destruct (same_score _ _); [discriminate|]. injection Hc as <-. exact Hin.
Qed.

End WithUnicode.

Lemma choose_best_prefix_candidate_ignores_order_witness :
  @_choose_best_prefix_candidate Ascii7.db (lit "883164")
    [lit "88316"; lit "8831"; lit "8831649"]
  = @_choose_best_prefix_candidate Ascii7.db (lit "883164")
      [lit "8831"; lit "88316"; lit "8831649"].
Proof.
  apply (@choose_best_prefix_candidate_ignores_order Ascii7.db (lit "883164")
           [lit "88316"; lit "8831"; lit "8831649"]
           [lit "8831"; lit "88316"; lit "8831649"]).
  apply perm_swap.
Defined.

End CandidateProps.

(** ** The composition set *)

Module ExtractorProps.
Import PyFacts DictFacts Composicoes CandidateFacts ExtractorFacts.

Lemma dict_set_In {V : Type} (d : @dict V) (k : str) (v : V) (k' : str) (v' : V) :
  In (k', v') (dict_set d k v) -> (k' = k /\ v' = v) \/ In (k', v') d.
Proof.
  induction d as [|[k0 v0] d IH]; simpl.
  - intros [[= <- <-]|[]]. now left.
  - destruct (str_eqb k0 k) eqn:E; simpl.
    + apply str_eqb_eq in E. subst. intros [[= <- <-]|H]; auto.
    + intros [H|H]; [auto|]. destruct (IH H); auto.
Qed.

Lemma get_or_nil_setdefault {A : Type} (d : @dict (list A)) (k : str) (x : A) (k' : str) :
  get_or_nil (setdefault_append d k x) k'
  = if str_eqb k k' then get_or_nil d k ++ [x] else get_or_nil d k'.
Proof.
  unfold get_or_nil, setdefault_append.
  destruct (str_eqb k k') eqn:E.
  - apply str_eqb_eq in E. subst k'.
    destruct (dict_get d k); now rewrite dict_get_set_same.
  - apply str_eqb_neq in E.
    destruct (dict_get d k); now rewrite dict_get_set_other.
Qed.

Section WithUnicode.
Context `{Unicode}.

Definition id_of (l : LinhaComposicao) : str := _make_id (codigo l) (banco l).

Definition keyed (st : estado) : Prop :=
  (forall k b, In (k, b) (st_principais st) -> k = id_of (principal b))
  /\ (forall k a, In (k, a) (st_auxiliares_globais st) -> k = id_of a)
  /\ NoDup (dict_keys (st_principais st))
  /\ NoDup (dict_keys (st_auxiliares_globais st)).

Lemma store_current_keyed (st : estado) :
  keyed st ->
  (forall k b, In (k, b) (store_current st) -> k = id_of (principal b))
  /\ NoDup (dict_keys (store_current st)).
Proof.
  intros (H1 & _ & H3 & _). unfold store_current.
  destruct (st_current_bloco st) as [b0|]; [|now split]. split.
  - intros k b Hin. apply dict_set_In in Hin. destruct Hin as [[-> ->]|Hin]; [reflexivity|].
    now apply H1.
  - now apply dict_set_NoDup.
Qed.

Section Rows.
Variable expected_by_bank : @dict (list expected).
Variable id_to_item : @dict str.

Notation process_row := (process_row expected_by_bank id_to_item).
Notation process_rows := (process_rows expected_by_bank id_to_item).

Lemma process_row_keyed (st : estado) (raw_row : list cell) :
  keyed st -> keyed (process_row st raw_row).
Proof.
  intros Hk. pose proof (store_current_keyed st Hk) as [Hs1 Hs2].
  pose proof Hk as (H1 & H2 & H3 & H4).
  assert (Hstored : forall it cur rc av,
             keyed (mk_estado (store_current st) (st_auxiliares_globais st) it cur rc av)).
  { intros. split; [exact Hs1|]. split; [exact H2|]. split; [exact Hs2 | exact H4]. }
  unfold Composicoes.process_row.
  destruct raw_row as [|c0 rest]; [exact Hk|].
  destruct (all_blank (c0 :: rest)); [exact Hk|].
  destruct (is_item_header_row _); [apply Hstored|].
  destruct (is_column_header_only _); [exact Hk|].
  destruct (contains _ _); [exact Hk|].
  destruct (detect_row_type _) as [[| |]|]; [| |  |exact Hk].
  - unfold member_row. destruct (st_current_bloco st); exact Hk.
  - unfold composicao_row. apply Hstored.
  - unfold member_row. destruct (st_current_bloco st) as [b0|]; [|exact Hk].
    split; [exact H1|]. split; [|split; [exact H3|]]; simpl.
    + intros k a Hin. apply dict_set_In in Hin.
      destruct Hin as [[-> ->]|Hin]; [reflexivity | now apply H2].
    + now apply dict_set_NoDup.
Qed.

Lemma process_rows_keyed (rows : list (list cell)) (st : estado) :
  keyed st -> keyed (process_rows st rows).
Proof.
  revert st. induction rows as [|r rows IH]; intros st Hk; [exact Hk|].
  apply IH. now apply process_row_keyed.
Qed.

End Rows.

(** X12: in the composition set that the extractor returns, every block is
    stored under the identity [_make_id] gives its principal, every entry
    of [auxiliares_globais] under the identity of its own code and bank,
    and no key occurs twice. *)
Theorem composition_set_is_keyed_by_identity
    (pdf_pages : list page) (start_1based end_1based : Z) (page_indexing : str)
    (item_refs : list item_ref) :
  match parse_composicoes_sinapi pdf_pages start_1based end_1based page_indexing item_refs with
  | Returns (comp, _) =>
      (forall k b, In (k, b) (principais comp) ->
         k = _make_id (codigo (principal b)) (banco (principal b)))
      /\ (forall k a, In (k, a) (auxiliares_globais comp) ->
            k = _make_id (codigo a) (banco a))
      /\ NoDup (dict_keys (principais comp))
      /\ NoDup (dict_keys (auxiliares_globais comp))
  | Raises _ => pdf_pages = []
  end.
Proof.
  unfold parse_composicoes_sinapi.
  destruct (page_range _ _ _ _) as [[av0 start_idx] end_idx].
  destruct (Z.eqb_spec (Z.of_nat (length pdf_pages)) 0) as [E|E].
  { destruct pdf_pages; [reflexivity | discriminate]. }
  destruct (index_refs item_refs) as [expected_by_bank id_to_item].
  set (st := process_rows _ _ _ _).
  assert (Hk : keyed st).
  { apply process_rows_keyed. repeat split; simpl; try constructor; intros ? ? []. }
  destruct (store_current_keyed st Hk) as [Hs1 Hs2].
  destruct Hk as (_ & H2 & _ & H4). cbn [principais auxiliares_globais].
  repeat split; assumption.
Qed.

(** *** The aliases *)

Lemma by_bank_sound (keys : list str) (acc : @dict (list str)) (bn c : str) :
  In c (get_or_nil (fold_left by_bank_step keys acc) bn) ->
  In c (get_or_nil acc bn)
  \/ exists rid, In rid keys /\ fst (_split_id rid) = c
                 /\ _norm_bank (snd (_split_id rid)) = bn.
Proof.
  revert acc. induction keys as [|rid keys IH]; intros acc Hin; [now left|].
  simpl in Hin. destruct (IH _ Hin) as [Hacc|(rid' & H1 & H2 & H3)].
  - unfold by_bank_step in Hacc. destruct (_split_id rid) as [c0 b0] eqn:E.
    rewrite get_or_nil_setdefault in Hacc.
    destruct (str_eqb (_norm_bank b0) bn) eqn:Eb; [|now left].
    apply str_eqb_eq in Eb. subst bn. apply in_app_or in Hacc.
    destruct Hacc as [Hacc|[<-|[]]]; [now left|].
    right. exists rid. rewrite E. split; [now left|]. split; reflexivity.
  - right. exists rid'. split; [now right|]. split; assumption.
Qed.

Section Aliases.
Variable principais : @dict BlocoComposicao.
Variable by_bank : @dict (list str).

Lemma alias_loop_sound (l : list (str * LinhaComposicao)) (acc : @dict str)
    (k target : str) :
  dict_get (fold_left (alias_step principais by_bank) l acc) k = Some target ->
  dict_get acc k = Some target
  \/ exists aux best,
       In (k, aux) l /\ dict_mem principais k = false
       /\ _choose_best_prefix_candidate (codigo aux) (alias_candidates by_bank aux)
          = Some best
       /\ target = best ++ [124%N] ++ banco aux.
Proof.
  revert acc. induction l as [|[aux_id aux] l IH]; intros acc Hg; [now left|].
  simpl in Hg. destruct (IH _ Hg) as [Hacc|(aux' & best & H1 & H2 & H3 & H4)].
  - unfold alias_step in Hacc.
    destruct (dict_mem principais aux_id) eqn:Em; [now left|].
    destruct (_choose_best_prefix_candidate _ _) as [best|] eqn:Eb; [|now left].
    destruct (truthy best); [|now left].
    destruct (list_eq_dec N.eq_dec aux_id k) as [->|Hne].
    + rewrite dict_get_set_same in Hacc. injection Hacc as <-.
      right. exists aux, best. split; [now left|]. split; [assumption|]. split; [assumption | reflexivity].
    + rewrite dict_get_set_other in Hacc by exact Hne. now left.
  - right. exists aux', best. split; [now right|]. repeat split; assumption.
Qed.

End Aliases.

(** X13: an alias is only ever made for an entry of [auxiliares_globais]
    whose key is not a key of a principal, and it points to "{best}|{bank
    of the auxiliary}" where [best] is the code part of the key of a principal
    with the same normalised bank that matches the code of the auxiliary
    as a prefix with a difference of length of at most 1. *)
Theorem alias_points_to_a_close_principal
    (principais : @dict BlocoComposicao) (auxiliares_globais : @dict LinhaComposicao)
    (aux_id target : str) :
  dict_get (build_aliases principais auxiliares_globais) aux_id = Some target ->
  exists aux best rid,
    In (aux_id, aux) auxiliares_globais
    /\ dict_mem principais aux_id = false
    /\ target = best ++ [124%N] ++ banco aux
    /\ In rid (dict_keys principais)
    /\ fst (_split_id rid) = best
    /\ _norm_bank (snd (_split_id rid)) = _norm_bank (banco aux)
    /\ _prefix_match best (codigo aux) 1 5 = true.
Proof.
  unfold build_aliases. intro Hg.
  destruct (alias_loop_sound _ _ _ _ _ _ Hg) as [Hacc|(aux & best & H1 & H2 & H3 & H4)];
    [discriminate|].
  apply choose_best_In in H3. unfold alias_candidates in H3.
  apply filter_In in H3. destruct H3 as [Hin Hp].
  unfold principais_by_bank in Hin.
  destruct (by_bank_sound _ _ _ _ Hin) as [[]|(rid & G1 & G2 & G3)].
  exists aux, best, rid. repeat split; assumption.
Qed.

(** *** Rows before the first composition row *)

(** The rows that open a block: the composition rows, as [process_row]
    tells them apart. *)
Definition opens_block (raw_row : list cell) : bool :=
  match raw_row with
  | [] => false
  | _ =>
      if all_blank raw_row then false
      else
        let row := normalize_row raw_row in
        if is_item_header_row row then false
        else if is_column_header_only row then false
        else if contains (lit "ANEXO 3") (upper (colapsar_espacos (row_get row 0)))
        then false
        else match detect_row_type (row_get row 0) with
             | Some Composicao => true
             | _ => false
             end
  end.

(** The item header rows. *)
Definition is_header (raw_row : list cell) : bool :=
  match raw_row with
  | [] => false
  | _ => negb (all_blank raw_row) && is_item_header_row (normalize_row raw_row)
  end.

Section Rows2.
Variable expected_by_bank : @dict (list expected).
Variable id_to_item : @dict str.

Notation process_row := (process_row expected_by_bank id_to_item).
Notation process_rows := (process_rows expected_by_bank id_to_item).

Lemma process_row_idle (st : estado) (raw_row : list cell) :
  opens_block raw_row = false ->
  st_current_bloco st = None -> st_principais st = [] ->
  st_current_bloco (process_row st raw_row) = None
  /\ st_principais (process_row st raw_row) = []
  /\ st_auxiliares_globais (process_row st raw_row) = st_auxiliares_globais st
  /\ st_avisos (process_row st raw_row) = st_avisos st.
Proof.
  intros Ho Hb Hp. unfold opens_block in Ho. unfold Composicoes.process_row.
  destruct raw_row as [|c0 rest]; [now repeat split|].
  destruct (all_blank (c0 :: rest)); [now repeat split|].
  destruct (is_item_header_row _).
  { unfold store_current. rewrite Hb. now repeat split. }
  destruct (is_column_header_only _); [now repeat split|].
  destruct (contains _ _); [now repeat split|].
  destruct (detect_row_type _) as [[| |]|]; try discriminate; try (now repeat split);
    unfold member_row; rewrite Hb; now repeat split.
Qed.

Lemma process_rows_idle (rows : list (list cell)) (st : estado) :
  forallb (fun r => negb (opens_block r)) rows = true ->
  st_current_bloco st = None -> st_principais st = [] ->
  st_current_bloco (process_rows st rows) = None
  /\ st_principais (process_rows st rows) = []
  /\ st_auxiliares_globais (process_rows st rows) = st_auxiliares_globais st
  /\ st_avisos (process_rows st rows) = st_avisos st.
Proof.
  revert st. induction rows as [|r rows IH]; intros st Hall Hb Hp; [now repeat split|].
  simpl in Hall. apply andb_true_iff in Hall. destruct Hall as [Hr Hall].
  apply negb_true_iff in Hr.
  destruct (process_row_idle st r Hr Hb Hp) as (H1 & H2 & H3 & H4).
  destruct (IH _ Hall H1 H2) as (G1 & G2 & G3 & G4).
  simpl. repeat split; congruence.
Qed.

Lemma process_row_keeps_item (st : estado) (raw_row : list cell) :
  is_header raw_row = false ->
  st_current_item (process_row st raw_row) = st_current_item st.
Proof.
  intros Hh. unfold is_header in Hh. unfold Composicoes.process_row.
  destruct raw_row as [|c0 rest]; [reflexivity|].
  destruct (all_blank (c0 :: rest)); [reflexivity|]. cbn [negb andb] in Hh. rewrite Hh.
  destruct (is_column_header_only _); [reflexivity|].
  destruct (contains _ _); [reflexivity|].
  destruct (detect_row_type _) as [[| |]|]; try reflexivity;
    unfold member_row; destruct (st_current_bloco st); reflexivity.
Qed.

Lemma process_rows_keeps_item (rows : list (list cell)) (st : estado) :
  forallb (fun r => negb (is_header r)) rows = true ->
  st_current_item (process_rows st rows) = st_current_item st.
Proof.
  revert st. induction rows as [|r rows IH]; intros st Hall; [reflexivity|].
  simpl in Hall. apply andb_true_iff in Hall. destruct Hall as [Hr Hall].
  apply negb_true_iff in Hr. simpl. rewrite IH by exact Hall.
  now apply process_row_keeps_item.
Qed.

Lemma item_number_nonempty (s : str) : _RE_ITEM_match s = true -> s <> [].
Proof. intros Hm ->. discriminate. Qed.

(** X14: a block takes the item number of the last item header before its
    composition row: after a header row, whatever rows follow that are
    not headers, the next composition row opens a block whose [item] is
    the (collapsed) first cell of that header, which is not empty; the
    index of the budget is not consulted. *)
Theorem block_takes_item_of_last_header
    (st : estado) (header : list cell) (rows : list (list cell)) (row : list cell) :
  is_header header = true ->
  forallb (fun r => negb (is_header r)) rows = true ->
  opens_block row = true ->
  exists b,
    st_current_bloco (process_row (process_rows (process_row st header) rows) row) = Some b
    /\ item b = colapsar_espacos (row_get (normalize_row header) 0)
    /\ item b <> []
    /\ composicoes_auxiliares b = [] /\ insumos b = [].
Proof.
  intros Hh Hrows Ho.
  set (n := colapsar_espacos (row_get (normalize_row header) 0)).
  assert (H1 : st_current_item (process_row st header) = n /\ n <> []).
  { unfold is_header in Hh. unfold Composicoes.process_row.
    destruct header as [|c0 rest]; [discriminate|].
    apply andb_true_iff in Hh. destruct Hh as [Hb Hi].
    apply negb_true_iff in Hb. rewrite Hb, Hi. split; [reflexivity|].
    unfold is_item_header_row in Hi.
    destruct (normalize_row (c0 :: rest)) as [|r0 [|r1 more]] eqn:En; try discriminate.
    apply andb_true_iff in Hi. destruct Hi as [Hi _].
    apply item_number_nonempty in Hi. subst n. unfold row_get. exact Hi. }
  destruct H1 as [H1 Hn].
  pose proof (process_rows_keeps_item rows (process_row st header) Hrows) as H2.
  rewrite H1 in H2. set (st2 := process_rows (process_row st header) rows) in *.
  unfold opens_block in Ho. unfold Composicoes.process_row.
  destruct row as [|c0 rest]; [discriminate|].
  destruct (all_blank (c0 :: rest)); [discriminate|].
  destruct (is_item_header_row _); [discriminate|].
  destruct (is_column_header_only _); [discriminate|].
  destruct (contains _ _); [discriminate|].
  destruct (detect_row_type _) as [[| |]|]; try discriminate.
  unfold composicao_row. cbn [st_current_bloco]. eexists. split; [reflexivity|].
  cbn [item composicoes_auxiliares insumos]. rewrite H2.
  assert (Ht : truthy n = true) by (destruct n; [contradiction | reflexivity]).
  rewrite Ht. repeat split; assumption.
Qed.

End Rows2.

Lemma rows_of_selected (pdf_pages : list page) (idxs : list Z) (row : list cell) :
  In row (rows_of_pages (map (fun pi => nth (Z.to_nat pi) pdf_pages []) idxs)) ->
  In row (rows_of_pages pdf_pages).
Proof.
  unfold rows_of_pages. intro Hin.
  apply in_concat in Hin. destruct Hin as (tb & Htb & Hrow).
  apply in_concat in Htb. destruct Htb as (pg & Hpg & Htb).
  apply in_map_iff in Hpg. destruct Hpg as (pi & <- & _).
  destruct (nth_in_or_default (Z.to_nat pi) pdf_pages []) as [Hin|Hd].
  - apply in_concat. exists tb. split; [|exact Hrow].
    apply in_concat. eexists. split; [exact Hin | exact Htb].
  - rewrite Hd in Htb. destruct Htb.
Qed.

(** X15: when no row of the document is a composition row, the extractor
    keeps nothing: no block, no entry of [auxiliares_globais] and no
    alias, whatever auxiliary and input rows the range holds. *)
Theorem nothing_is_kept_without_a_composition_row
    (pdf_pages : list page) (start_1based end_1based : Z) (page_indexing : str)
    (item_refs : list item_ref) :
  forallb (fun r => negb (opens_block r)) (rows_of_pages pdf_pages) = true ->
  match parse_composicoes_sinapi pdf_pages start_1based end_1based page_indexing item_refs with
  | Returns (comp, _) => comp = mk_composicoes [] [] []
  | Raises _ => pdf_pages = []
  end.
Proof.
  intros Hall. unfold parse_composicoes_sinapi.
  destruct (page_range _ _ _ _) as [[av0 start_idx] end_idx].
  destruct (Z.eqb_spec (Z.of_nat (length pdf_pages)) 0) as [E|E].
  { destruct pdf_pages; [reflexivity | discriminate]. }
  destruct (index_refs item_refs) as [expected_by_bank id_to_item].
  set (rows := rows_of_pages _).
  assert (Hrows : forallb (fun r => negb (opens_block r)) rows = true).
  { apply forallb_forall. intros r Hr. apply rows_of_selected in Hr.
    rewrite forallb_forall in Hall. now apply Hall. }
  destruct (process_rows_idle expected_by_bank id_to_item rows
              (mk_estado [] [] [] None [] av0) Hrows eq_refl eq_refl)
    as (H1 & H2 & H3 & H4).
  unfold store_current. rewrite H1, H2, H3. reflexivity.
Qed.

End WithUnicode.

Import Exemplos.

Lemma alias_points_to_a_close_principal_witness :
  exists aux best rid,
    In (lit "883164|SINAPI", aux) (auxiliares_globais (fst ex_parsed))
    /\ dict_mem (principais (fst ex_parsed)) (lit "883164|SINAPI") = false
    /\ lit "88316|SINAPI" = best ++ [124%N] ++ banco aux
    /\ In rid (dict_keys (principais (fst ex_parsed)))
    /\ fst (@_split_id rid) = best
    /\ @_norm_bank Ascii7.db (snd (_split_id rid)) = @_norm_bank Ascii7.db (banco aux)
    /\ @_prefix_match Ascii7.db best (codigo aux) 1 5 = true.
Proof.
  apply (@alias_points_to_a_close_principal Ascii7.db
           (principais (fst ex_parsed)) (auxiliares_globais (fst ex_parsed))).
  vm_compute. reflexivity.
Defined.

Lemma block_takes_item_of_last_header_witness :
  exists b,
    st_current_bloco
      (@process_row Ascii7.db [] []
         (@process_rows Ascii7.db [] []
            (@process_row Ascii7.db [] [] (mk_estado [] [] [] None [] []) ex_header_row)
            [ex_aux_row])
         ex_comp_row) = Some b
    /\ item b = colapsar_espacos (row_get (@normalize_row Ascii7.db ex_header_row) 0)
    /\ item b <> []
    /\ composicoes_auxiliares b = [] /\ insumos b = [].
Proof.
  apply (@block_takes_item_of_last_header Ascii7.db [] []
           (mk_estado [] [] [] None [] []) ex_header_row [ex_aux_row] ex_comp_row);
    vm_compute; reflexivity.
Defined.

Lemma nothing_is_kept_without_a_composition_row_witness :
  match @parse_composicoes_sinapi Ascii7.db [[[ex_header_row; ex_aux_row; ex_insumo_row]]]
          1 1 (lit "1-based") [] with
  | Returns (comp, _) => comp = mk_composicoes [] [] []
  | Raises _ => [[[ex_header_row; ex_aux_row; ex_insumo_row]]] = []
  end.
Proof.
  apply (@nothing_is_kept_without_a_composition_row Ascii7.db
           [[[ex_header_row; ex_aux_row; ex_insumo_row]]] 1 1 (lit "1-based") []).
  vm_compute. reflexivity.
Defined.

End ExtractorProps.

(** ** Two composition rows with one identity *)

Module ExtractorCollision.
Import PyFacts DictFacts Composicoes CandidateFacts ExtractorFacts.

Section WithUnicode.
Context `{Unicode}.

(** The rows of the tables of the pages that are read, in order. *)
Definition rows_read (pdf_pages : list page) (start_1based end_1based : Z)
    (page_indexing : str) : list (list cell) :=
  let '(_, start_idx, end_idx) :=
    page_range page_indexing (Z.of_nat (length pdf_pages)) start_1based end_1based in
  rows_of_pages
    (map (fun pi => nth (Z.to_nat pi) pdf_pages []) (py_range start_idx (end_idx + 1))).

(** What a row is to the loop over the rows: skipped, an item header, a
    composition row, or an auxiliary or input row. *)
Inductive row_kind := Skipped | Header | Opening | Member (t : row_type).

Definition kind (raw_row : list cell) : row_kind :=
  match raw_row with
  | [] => Skipped
  | _ =>
      if all_blank raw_row then Skipped
      else
        let row := normalize_row raw_row in
        if is_item_header_row row then Header
        else if is_column_header_only row then Skipped
        else if contains (lit "ANEXO 3") (upper (colapsar_espacos (row_get row 0)))
        then Skipped
        else match detect_row_type (row_get row 0) with
             | None => Skipped
             | Some Composicao => Opening
             | Some t => Member t
             end
  end.

(** The rows up to the next row that ends a block. *)
Fixpoint until_close (rows : list (list cell)) : list (list cell) :=
  match rows with
  | [] => []
  | r :: rest =>
      match kind r with
      | Header | Opening => []
      | _ => r :: until_close rest
      end
  end.

(** The lines that the auxiliary rows and the input rows give. *)
Definition auxiliaries_of (rows : list (list cell)) : list LinhaComposicao :=
  flat_map (fun r => match kind r with
                     | Member ComposicaoAuxiliar =>
                         [build_entry_from_row (normalize_row r) ComposicaoAuxiliar]
                     | _ => []
                     end) rows.

Definition inputs_of (rows : list (list cell)) : list LinhaComposicao :=
  flat_map (fun r => match kind r with
                     | Member Insumo => [build_entry_from_row (normalize_row r) Insumo]
                     | _ => []
                     end) rows.

Definition recovered (a : aviso) : Prop := exists c f b, a = AvisoCodigoRecuperado c f b.

Section Rows.
Variable expected_by_bank : @dict (list expected).
Variable id_to_item : @dict str.

Notation process_row := (process_row expected_by_bank id_to_item).
Notation process_rows := (process_rows expected_by_bank id_to_item).

(** The principal that a composition row gives: the entry of the row,
    with a truncated code replaced by the code recovered from the
    budget; and the key under which its block is stored. *)
Definition principal_of (raw_row : list cell) : LinhaComposicao :=
  let entry := build_entry_from_row (normalize_row raw_row) Composicao in
  match recover_full_code expected_by_bank (codigo entry) (banco entry) with
  | Some full =>
      if truthy full && negb (str_eqb (_norm_code full) (_norm_code (codigo entry)))
      then set_codigo entry full
      else entry
  | None => entry
  end.

Definition key_of (raw_row : list cell) : str :=
  _make_id (codigo (principal_of raw_row)) (banco (principal_of raw_row)).

Definition key_of_block (b : BlocoComposicao) : str :=
  _make_id (codigo (principal b)) (banco (principal b)).

Lemma process_row_kind (st : estado) (raw_row : list cell) :
  process_row st raw_row
  = match kind raw_row with
    | Skipped => st
    | Header =>
        mk_estado (store_current st) (st_auxiliares_globais st)
          (colapsar_espacos (row_get (normalize_row raw_row) 0)) None
          (st_recovered_codes st) (st_avisos st)
    | Opening =>
        composicao_row expected_by_bank id_to_item
          (build_entry_from_row (normalize_row raw_row) Composicao) st
    | Member t => member_row t (build_entry_from_row (normalize_row raw_row) t) st
    end.
Proof.
  unfold Composicoes.process_row, kind.
  destruct raw_row as [|c0 rest]; [reflexivity|].
  destruct (all_blank (c0 :: rest)); [reflexivity|]. cbv zeta.
  destruct (is_item_header_row _); [reflexivity|].
  destruct (is_column_header_only _); [reflexivity|].
  destruct (contains _ _); [reflexivity|].
  destruct (detect_row_type _) as [[| |]|]; reflexivity.
Qed.

(** A composition row stores the open block and opens its own. *)
Lemma opening_row (st : estado) (raw_row : list cell) :
  kind raw_row = Opening ->
  st_principais (process_row st raw_row) = store_current st
  /\ exists it,
       st_current_bloco (process_row st raw_row)
       = Some (mk_bloco it (principal_of raw_row) [] []).
Proof.
  intros Hk. rewrite process_row_kind, Hk. unfold composicao_row, principal_of.
  cbn [st_principais st_current_bloco]. split; [reflexivity|].
  eexists. f_equal. f_equal.
  destruct (recover_full_code _ _ _) as [full|]; reflexivity.
Qed.

Lemma header_row (st : estado) (raw_row : list cell) :
  kind raw_row = Header ->
  st_principais (process_row st raw_row) = store_current st
  /\ st_current_bloco (process_row st raw_row) = None.
Proof. intros Hk. rewrite process_row_kind, Hk. now split. Qed.

(** A row that ends no block, while a block is open. *)
Lemma open_row (st : estado) (raw_row : list cell) (b : BlocoComposicao) :
  kind raw_row <> Header -> kind raw_row <> Opening ->
  st_current_bloco st = Some b ->
  st_principais (process_row st raw_row) = st_principais st
  /\ st_current_bloco (process_row st raw_row)
     = Some (mk_bloco (item b) (principal b)
               (composicoes_auxiliares b ++ auxiliaries_of [raw_row])
               (insumos b ++ inputs_of [raw_row])).
Proof.
  intros H1 H2 Hb. rewrite process_row_kind.
  unfold auxiliaries_of, inputs_of. cbn [flat_map].
  destruct (kind raw_row) as [| | |[| |]]; try contradiction;
    unfold member_row; rewrite ?Hb; cbn [st_principais st_current_bloco];
    rewrite ?app_nil_r; (split; [reflexivity|]); try (now destruct b).
Qed.

Lemma until_close_open (rows : list (list cell)) :
  Forall (fun r => kind r <> Header /\ kind r <> Opening) (until_close rows).
Proof.
  induction rows as [|r rows IH]; [constructor|]. cbn [until_close].
  destruct (kind r) eqn:E; constructor; try exact IH; rewrite E; split; discriminate.
Qed.

Lemma until_close_split (rows : list (list cell)) :
  exists rest,
    rows = until_close rows ++ rest
    /\ (rest = []
        \/ exists c rest', rest = c :: rest' /\ (kind c = Header \/ kind c = Opening)).
Proof.
  induction rows as [|r rows (rest & E & Hr)].
  - exists []. split; [reflexivity | now left].
  - cbn [until_close]. destruct (kind r) eqn:Ek.
    + exists rest. cbn [app]. split; [now rewrite <- E | exact Hr].
    + exists (r :: rows). split; [reflexivity|]. right. exists r, rows. auto.
    + exists (r :: rows). split; [reflexivity|]. right. exists r, rows. auto.
    + exists rest. cbn [app]. split; [now rewrite <- E | exact Hr].
Qed.

Lemma open_rows (rows : list (list cell)) :
  Forall (fun r => kind r <> Header /\ kind r <> Opening) rows ->
  forall st b,
  st_current_bloco st = Some b ->
  st_principais (process_rows st rows) = st_principais st
  /\ st_current_bloco (process_rows st rows)
     = Some (mk_bloco (item b) (principal b)
               (composicoes_auxiliares b ++ auxiliaries_of rows)
               (insumos b ++ inputs_of rows)).
Proof.
  induction 1 as [|r rows [H1 H2] Hall IH]; intros st b Hb.
  - unfold auxiliaries_of, inputs_of. cbn [flat_map Composicoes.process_rows fold_left].
    rewrite !app_nil_r. split; [reflexivity|]. rewrite Hb. now destruct b.
  - destruct (open_row st r b H1 H2 Hb) as [G1 G2].
    destruct (IH _ _ G2) as [G3 G4].
    change (process_rows st (r :: rows)) with (process_rows (process_row st r) rows).
    rewrite G3, G4, G1. split; [reflexivity|]. cbn [item principal composicoes_auxiliares insumos].
    unfold auxiliaries_of, inputs_of. cbn [flat_map].
    now rewrite !app_nil_r, <- !app_assoc.
Qed.

(** *** The key stays with the later block *)

(** The map holds [b] under [k], and no open block will be stored under
    [k]. *)
Definition settled (k : str) (b : BlocoComposicao) (st : estado) : Prop :=
  dict_get (st_principais st) k = Some b
  /\ forall b', st_current_bloco st = Some b' -> key_of_block b' <> k.

Lemma store_settled (k : str) (b : BlocoComposicao) (st : estado) :
  settled k b st -> dict_get (store_current st) k = Some b.
Proof.
  intros [Hg Hc]. unfold store_current.
  destruct (st_current_bloco st) as [b'|]; [|exact Hg].
  rewrite dict_get_set_other; [exact Hg|]. now apply Hc.
Qed.

Lemma settled_row (k : str) (b : BlocoComposicao) (st : estado) (raw_row : list cell) :
  (kind raw_row = Opening -> key_of raw_row <> k) ->
  settled k b st -> settled k b (process_row st raw_row).
Proof.
  intros Hk Hs. pose proof (store_settled k b st Hs) as Hstore.
  destruct (kind raw_row) as [| | |t] eqn:Ek.
  - rewrite process_row_kind, Ek. exact Hs.
  - destruct (header_row st raw_row Ek) as [G1 G2].
    split; [now rewrite G1 | rewrite G2; discriminate].
  - destruct (opening_row st raw_row Ek) as [G1 [it G2]]. split; [now rewrite G1|].
    rewrite G2. intros b' [= <-]. now apply Hk.
  - destruct (st_current_bloco st) as [b0|] eqn:Eb.
    + destruct (open_row st raw_row b0) as [G1 G2]; try (rewrite Ek; discriminate);
        [exact Eb|].
      destruct Hs as [Hg Hc]. split; [now rewrite G1|]. rewrite G2.
      intros b' [= <-]. exact (Hc b0 Eb).
    + rewrite process_row_kind, Ek. unfold member_row. rewrite Eb. exact Hs.
Qed.

Lemma settled_rows (k : str) (b : BlocoComposicao) (rows : list (list cell)) :
  (forall r, In r rows -> kind r = Opening -> key_of r <> k) ->
  forall st, settled k b st -> settled k b (process_rows st rows).
Proof.
  induction rows as [|r rows IH]; intros Hk st Hs; [exact Hs|].
  change (process_rows st (r :: rows)) with (process_rows (process_row st r) rows).
  apply IH; [intros; apply Hk; [now right | assumption]|].
  apply settled_row; [apply Hk; now left | exact Hs].
Qed.

(** After a composition row with the key [k], the rows that follow, none
    of them a composition row with this key, leave under [k] the block of
    that row with the lines of the rows up to the next row that ends a
    block. *)
Lemma later_block_stays (st : estado) (raw_row : list cell) (post : list (list cell)) :
  kind raw_row = Opening ->
  (forall r, In r post -> kind r = Opening -> key_of r <> key_of raw_row) ->
  exists it,
    dict_get (store_current (process_rows (process_row st raw_row) post)) (key_of raw_row)
    = Some (mk_bloco it (principal_of raw_row)
              (auxiliaries_of (until_close post)) (inputs_of (until_close post))).
Proof.
  intros Hk Hpost. destruct (opening_row st raw_row Hk) as [_ [it Hb]].
  exists it. set (st1 := process_row st raw_row) in *.
  destruct (until_close_split post) as (rest & E & Hrest).
  destruct (open_rows (until_close post) (until_close_open post) st1 _ Hb) as [G1 G2].
  cbn [item principal composicoes_auxiliares insumos app] in G2.
  set (b2 := mk_bloco it (principal_of raw_row) (auxiliaries_of (until_close post))
               (inputs_of (until_close post))) in *.
  set (st2 := process_rows st1 (until_close post)) in *.
  assert (Hst : process_rows st1 post = process_rows st2 rest).
  { rewrite E at 1. unfold Composicoes.process_rows. now rewrite fold_left_app. }
  rewrite Hst. destruct Hrest as [->|(c & rest' & -> & Hc)].
  - cbn [Composicoes.process_rows fold_left]. unfold store_current. rewrite G2.
    apply dict_get_set_same.
  - apply store_settled.
    change (process_rows st2 (c :: rest')) with (process_rows (process_row st2 c) rest').
    assert (Hin : forall r, In r (c :: rest') -> In r post).
    { intros r Hr. rewrite E. apply in_or_app. now right. }
    apply settled_rows; [intros r Hr; apply Hpost, Hin; now right|].
    assert (Hstore : dict_get (store_current st2) (key_of raw_row) = Some b2).
    { unfold store_current. rewrite G2. apply dict_get_set_same. }
    destruct Hc as [Hc|Hc].
    + destruct (header_row st2 c Hc) as [G3 G4]. split; [now rewrite G3|].
      rewrite G4. discriminate.
    + destruct (opening_row st2 c Hc) as [G3 [it' G4]]. split; [now rewrite G3|].
      rewrite G4. intros b' [= <-]. apply Hpost; [apply Hin; now left | exact Hc].
Qed.

(** *** An earlier block is in the map when the later row comes *)

Definition known (k : str) (st : estado) : Prop :=
  dict_mem (st_principais st) k = true
  \/ exists b, st_current_bloco st = Some b /\ key_of_block b = k.

Lemma dict_mem_set_other {V : Type} (d : @dict V) (k k' : str) (v : V) :
  dict_mem d k' = true -> dict_mem (dict_set d k v) k' = true.
Proof.
  unfold dict_mem. intros Hm. destruct (str_eqb k k') eqn:E.
  - apply str_eqb_eq in E. subst. now rewrite dict_get_set_same.
  - apply str_eqb_neq in E. now rewrite dict_get_set_other.
Qed.

Lemma known_stored (k : str) (st : estado) :
  known k st -> dict_mem (store_current st) k = true.
Proof.
  unfold store_current. intros [Hm|(b & Hb & Hk)].
  - destruct (st_current_bloco st); [now apply dict_mem_set_other | exact Hm].
  - rewrite Hb. unfold dict_mem. unfold key_of_block in Hk. rewrite Hk.
    now rewrite dict_get_set_same.
Qed.

Lemma known_row (k : str) (st : estado) (raw_row : list cell) :
  known k st -> known k (process_row st raw_row).
Proof.
  intros Hs. pose proof (known_stored k st Hs) as Hstore.
  destruct (kind raw_row) as [| | |t] eqn:Ek.
  - rewrite process_row_kind, Ek. exact Hs.
  - destruct (header_row st raw_row Ek) as [G _]. left. now rewrite G.
  - destruct (opening_row st raw_row Ek) as [G _]. left. now rewrite G.
  - destruct (st_current_bloco st) as [b0|] eqn:Eb.
    + destruct (open_row st raw_row b0) as [G1 G2]; try (rewrite Ek; discriminate);
        [exact Eb|].
      destruct Hs as [Hm|(b & Hb & Hk)]; [left; now rewrite G1|].
      right. eexists. split; [exact G2|]. unfold key_of_block. cbn [principal].
      rewrite Eb in Hb. injection Hb as <-. exact Hk.
    + rewrite process_row_kind, Ek. unfold member_row. rewrite Eb. exact Hs.
Qed.

Lemma known_rows (k : str) (rows : list (list cell)) (st : estado) :
  known k st -> known k (process_rows st rows).
Proof.
  revert st. induction rows as [|r rows IH]; intros st Hs; [exact Hs|].
  apply IH. now apply known_row.
Qed.

Lemma earlier_block_known (st : estado) (pre : list (list cell)) (row1 : list cell)
    (mid : list (list cell)) (row2 : list cell) :
  kind row1 = Opening -> kind row2 = Opening ->
  dict_mem (st_principais (process_rows st (pre ++ row1 :: mid ++ [row2]))) (key_of row1)
  = true.
Proof.
  intros H1 H2. unfold Composicoes.process_rows.
  rewrite fold_left_app. cbn [fold_left]. rewrite fold_left_app. cbn [fold_left].
  fold (process_rows (process_row (fold_left process_row pre st) row1) mid).
  set (s1 := process_rows _ mid).
  destruct (opening_row s1 row2 H2) as [-> _]. apply known_stored. subst s1.
  apply known_rows. right.
  destruct (opening_row (fold_left process_row pre st) row1 H1) as [_ [it Hb]].
  eexists. split; [exact Hb | reflexivity].
Qed.

(** *** The warnings *)

Lemma avisos_row (st : estado) (raw_row : list cell) :
  exists recs, st_avisos (process_row st raw_row) = st_avisos st ++ recs
               /\ Forall recovered recs.
Proof.
  rewrite process_row_kind. destruct (kind raw_row) as [| | |t].
  - exists []. now rewrite app_nil_r.
  - exists []. now rewrite app_nil_r.
  - unfold composicao_row. cbn [st_avisos].
    destruct (_ && negb (dict_mem _ _)).
    + eexists [_]. split; [reflexivity|]. constructor; [|constructor].
      unfold recovered. eauto.
    + exists []. now rewrite app_nil_r.
  - exists []. rewrite app_nil_r. unfold member_row.
    destruct (st_current_bloco st); [|now split]. now destruct t.
Qed.

Lemma avisos_rows (rows : list (list cell)) (st : estado) :
  exists recs, st_avisos (process_rows st rows) = st_avisos st ++ recs
               /\ Forall recovered recs.
Proof.
  revert st. induction rows as [|r rows IH]; intros st.
  - exists []. now rewrite app_nil_r.
  - destruct (avisos_row st r) as (r1 & E1 & F1).
    destruct (IH (process_row st r)) as (r2 & E2 & F2).
    exists (r1 ++ r2). split; [|now apply Forall_app].
    change (process_rows st (r :: rows)) with (process_rows (process_row st r) rows).
    now rewrite E2, E1, app_assoc.
Qed.

End Rows.


End WithUnicode.

Import Exemplos.


End ExtractorCollision.

(** ** The budget pass (app/bases/sinapi/parser.py) *)

Module BudgetProps.
Import PyFacts Sanitizer SanitizerFacts Parser TreeFacts.

Lemma chain_bottom (h : heap) (stk : list (Z * nat)) :
  chain h stk -> exists above, stk = above ++ [(0%Z, 0%nat)].
Proof.
  induction 1 as [|l id pl pid rest Hc [above IH] Hl Hin].
  - now exists [].
  - exists ((l, id) :: above). simpl. now rewrite IH.
Qed.

Section Loop.
Context `{Unicode} `{Patterns}.
Variable cfg : config.


Lemma main_loop_add (n m : nat) (lines : list str) (st : loop) :
  main_loop cfg (n + m) lines st
  = match main_loop cfg n lines st with
    | Returns st' => main_loop cfg m lines st'
    | Raises e => Raises e
    end.
Proof.
  revert st. induction n as [|n IH]; intros st; [reflexivity|].
  cbn [Nat.add main_loop]. destruct (l_i st <? length lines) eqn:E.
  - destruct (step cfg lines st); [apply IH | reflexivity].
  - symmetry. apply main_loop_done. now apply Nat.ltb_ge.
Qed.

(** X17: the main loop terminates: after at most [2 * len(lines) + 1] turns
    the index has reached the end of the lines, and further turns change
    nothing. *)
Theorem main_loop_terminates (lines : list str) :
  exists st,
    main_loop cfg (2 * length lines + 1) lines loop_init = Returns st
    /\ length lines <= l_i st
    /\ forall more, main_loop cfg (2 * length lines + 1 + more) lines loop_init = Returns st.
Proof.
  destruct (main_loop_completes cfg (2 * length lines + 1) lines loop_init inv_init)
    as (st & E & _ & Hle).
  { unfold weight. simpl. lia. }
  exists st. split; [exact E|]. split; [exact Hle|].
  intros more. rewrite main_loop_add, E. now apply main_loop_done.
Qed.

(** *** The lines that are read *)

Definition is_start (ln : str) : bool :=
  match RE_GROUP_WITH_TOTAL_match ln with
  | Some (_, desc, _) => _is_probable_group_heading desc
  | None => false
  end.

Definition is_total (ln : str) : bool :=
  contains (lit "TOTAL SEM BDI") ln || contains (lit "TOTAL COM BDI") ln.

Lemma select_started (raw_lines : list str) :
  exists post,
    raw_lines = select_lines true raw_lines ++ post
    /\ forallb (fun ln => negb (is_total ln)) (select_lines true raw_lines) = true
    /\ match post with [] => True | p :: _ => is_total p = true end.
Proof.
  induction raw_lines as [|ln rest (post & E & Hall & Hp)].
  - now exists [].
  - cbn [select_lines]. fold (is_total ln). destruct (is_total ln) eqn:Et.
    + exists (ln :: rest). repeat split. exact Et.
    + exists post. cbn [app forallb]. rewrite Et, Hall. repeat split; [congruence | exact Hp].
Qed.

Lemma select_first (ln : str) (rest : list str) :
  select_lines false (ln :: rest)
  = if is_start ln then ln :: select_lines true rest else select_lines false rest.
Proof.
  cbn [select_lines]. unfold is_start.
  destruct (RE_GROUP_WITH_TOTAL_match ln) as [[[? ?] ?]|]; reflexivity.
Qed.

(** X18: the lines of the budget are one block of the sanitized lines: it
    starts at the first line that reads as a group heading with a total
    and ends before the first later line that holds "TOTAL SEM BDI" or
    "TOTAL COM BDI"; without such a heading no line is read. *)
Theorem select_lines_is_one_block (raw_lines : list str) :
  exists pre post,
    raw_lines = pre ++ select_lines false raw_lines ++ post
    /\ forallb (fun ln => negb (is_start ln)) pre = true
    /\ match select_lines false raw_lines with
       | [] => post = []
       | first :: more =>
           is_start first = true
           /\ forallb (fun ln => negb (is_total ln)) more = true
           /\ match post with [] => True | p :: _ => is_total p = true end
       end.
Proof.
  induction raw_lines as [|ln rest (pre & post & E & Hpre & Hsel)].
  - now exists [], [].
  - rewrite select_first. destruct (is_start ln) eqn:Hs.
    + destruct (select_started rest) as (post' & E' & Hall & Hp).
      exists [], post'. cbn [app]. split; [now rewrite <- E'|]. split; [reflexivity|].
      repeat split; assumption.
    + exists (ln :: pre), post. cbn [app forallb]. rewrite Hs, Hpre.
      split; [now rewrite <- E|]. split; [reflexivity | exact Hsel].
Qed.

End Loop.

End BudgetProps.

(** ** [try_finalize_item] *)

Module ItemProps.
Import PyFacts Sanitizer SanitizerFacts Parser.

(** The second report holds the first and what was added to it. *)
Definition extends (r r' : relatorio) : Prop :=
  exists a e d,
    avisos r' = avisos r ++ a /\ erros r' = erros r ++ e
    /\ divergencias r' = divergencias r ++ d.

Lemma extends_refl (r : relatorio) : extends r r.
Proof. exists [], [], []. now rewrite !app_nil_r. Qed.

Lemma extends_aviso (r : relatorio) (a : aviso) : extends r (add_aviso r a).
Proof. exists [a], [], []. simpl. now rewrite !app_nil_r. Qed.

Section Items.
Context `{Unicode} `{Patterns}.
Variable cfg : config.

Lemma candidate_report (buffer_lines cur : list str) (r : relatorio) :
  erros (snd (candidate cfg buffer_lines cur r)) = erros r
  /\ divergencias (snd (candidate cfg buffer_lines cur r)) = divergencias r
  /\ extends r (snd (candidate cfg buffer_lines cur r)).
Proof.
  unfold candidate. destruct (_try_parse_item_row cfg _).
  - repeat split. apply extends_refl.
  - destruct (_try_parse_composicao_item_row cfg _).
    + repeat split. apply extends_aviso.
    + repeat split. apply extends_refl.
Qed.

(** What a run of the loop of [try_finalize_item] leaves. *)
Definition outcome_ok (lookahead_lines : list str) (extra_used left : nat) (r : relatorio)
    (res : option dados * nat * relatorio) : Prop :=
  let '(parsed, used, r') := res in
  extra_used <= used <= extra_used + left
  /\ (forall k, extra_used <= k < used ->
        _looks_like_new_row (nth k lookahead_lines []) = false)
  /\ (exists a d, avisos r' = avisos r ++ a /\ divergencias r' = divergencias r ++ d)
  /\ match parsed with
     | Some p =>
         (fst (validate_item cfg p) = true /\ erros r' = erros r)
         \/ (fst (validate_item cfg p) = false
             /\ erros r' = erros r ++ [ErroItem (item p) (snd (validate_item cfg p))]
             /\ exists d0,
                  divergencias r'
                  = d0 ++ [DivItem (item p) (quant p) (custo_unitario_com_bdi p)
                             (custo_parcial p) (snd (validate_item cfg p))])
     | None => erros r' = erros r
     end.

Lemma try_finalize_loop_ok (left extra_used : nat)
    (buffer_lines cur lookahead_lines : list str) (r : relatorio) :
  outcome_ok lookahead_lines extra_used left r
    (try_finalize_loop cfg left extra_used buffer_lines cur lookahead_lines r).
Proof.
  revert extra_used cur r.
  induction left as [|left IH]; intros extra_used cur r; cbn [try_finalize_loop];
    destruct (candidate_report buffer_lines cur r) as (He & Hd & (a0 & e0 & d0 & Ha0 & _ & _));
    destruct (candidate cfg buffer_lines cur r) as [[p|] r1]; cbn [snd] in He, Hd, Ha0.
  - destruct (validate_item cfg p) as [ok reason] eqn:Ev. destruct ok.
    + unfold outcome_ok. rewrite Ev. split; [lia|]. split; [intros; lia|].
      split; [exists a0, []; now rewrite app_nil_r|]. left. auto.
    + unfold outcome_ok. rewrite Ev. cbn [avisos erros divergencias add_erro add_divergencia fst snd].
      split; [lia|]. split; [intros; lia|].
      split; [exists a0; eexists; split; [exact Ha0 | now rewrite Hd]|].
      right. split; [reflexivity|]. split; [now rewrite He|]. eexists. reflexivity.
  - unfold outcome_ok. split; [lia|]. split; [intros; lia|].
    split; [exists a0, []; now rewrite app_nil_r | exact He].
  - destruct (validate_item cfg p) as [ok reason] eqn:Ev. destruct ok.
    + unfold outcome_ok. rewrite Ev. split; [lia|]. split; [intros; lia|].
      split; [exists a0, []; now rewrite app_nil_r|]. left. auto.
    + destruct (_looks_like_new_row (nth extra_used lookahead_lines [])) eqn:En;
        cbn [negb].
      * unfold outcome_ok. rewrite Ev.
        cbn [avisos erros divergencias add_erro add_divergencia fst snd].
        split; [lia|]. split; [intros; lia|].
        split; [exists a0; eexists; split; [exact Ha0 | now rewrite Hd]|].
        right. split; [reflexivity|]. split; [now rewrite He|]. eexists. reflexivity.
      * specialize (IH (S extra_used) (cur ++ [nth extra_used lookahead_lines []])
                      (add_divergencia r1
                         (DivItem (item p) (quant p) (custo_unitario_com_bdi p)
                            (custo_parcial p) reason))).
        destruct (try_finalize_loop cfg left (S extra_used) buffer_lines _ _ _)
          as [[parsed used] r'].
        unfold outcome_ok in *. cbn [avisos erros divergencias add_divergencia] in IH.
        destruct IH as (I1 & I2 & (a & d & I3 & I4) & I5).
        split; [lia|]. split.
        { intros k Hk. destruct (Nat.eq_dec k extra_used) as [->|Hne]; [exact En|].
          apply I2. lia. }
        split.
        { exists (a0 ++ a). eexists. split; [now rewrite I3, Ha0, app_assoc|].
          rewrite I4, Hd, <- app_assoc. reflexivity. }
        rewrite <- He. exact I5.
  - destruct (_looks_like_new_row (nth extra_used lookahead_lines [])) eqn:En;
      cbn [negb].
    + unfold outcome_ok. split; [lia|]. split; [intros; lia|].
      split; [exists a0, []; now rewrite app_nil_r | exact He].
    + specialize (IH (S extra_used) (cur ++ [nth extra_used lookahead_lines []]) r1).
      destruct (try_finalize_loop cfg left (S extra_used) buffer_lines _ _ _)
        as [[parsed used] r'].
      unfold outcome_ok in *.
      destruct IH as (I1 & I2 & (a & d & I3 & I4) & I5).
      split; [lia|]. split.
      { intros k Hk. destruct (Nat.eq_dec k extra_used) as [->|Hne]; [exact En|].
        apply I2. lia. }
      split.
      { exists (a0 ++ a), d. split; [now rewrite I3, Ha0, app_assoc | now rewrite I4, Hd]. }
      rewrite <- He. exact I5.
Qed.

(** X19: on a buffer that is not empty, [try_finalize_item] borrows at most
    two of the lines that follow
    and none that looks like a new row; it only adds to the report; an
    item it returns either passes the arithmetic check, and then no error
    is added, or fails it, and then exactly one error is added for it,
    with its divergence last; and when it returns no item it adds no
    error. *)
Theorem try_finalize_item_outcome
    (buffer_lines lookahead_lines : list str) (r : relatorio) :
  buffer_lines <> [] ->
  let '(parsed, used, r') := try_finalize_item cfg buffer_lines lookahead_lines r in
  used <= 2 /\ used <= length lookahead_lines
  /\ (forall k, k < used -> _looks_like_new_row (nth k lookahead_lines []) = false)
  /\ (exists a d, avisos r' = avisos r ++ a /\ divergencias r' = divergencias r ++ d)
  /\ match parsed with
     | Some p =>
         (fst (validate_item cfg p) = true /\ erros r' = erros r)
         \/ (fst (validate_item cfg p) = false
             /\ erros r' = erros r ++ [ErroItem (item p) (snd (validate_item cfg p))]
             /\ exists d0,
                  divergencias r'
                  = d0 ++ [DivItem (item p) (quant p) (custo_unitario_com_bdi p)
                             (custo_parcial p) (snd (validate_item cfg p))])
     | None => erros r' = erros r
     end.
Proof.
  intros _. unfold try_finalize_item.
  pose proof (try_finalize_loop_ok (Nat.min 2 (length lookahead_lines)) 0
                buffer_lines buffer_lines lookahead_lines r) as Hok.
  destruct (try_finalize_loop cfg _ 0 buffer_lines buffer_lines lookahead_lines r)
    as [[parsed used] r'].
  unfold outcome_ok in Hok. destruct Hok as (H1 & H2 & H3 & H4).
  split; [lia|]. split; [lia|]. split; [intros k Hk; apply H2; lia|].
  split; assumption.
Qed.

End Items.

Import Exemplos.

Lemma try_finalize_item_outcome_witness :
  let '(parsed, used, r') :=
    @try_finalize_item Ascii7.db (@Re.patterns Ascii7.db) ex_cfg [ex_line] [] no_report in
  used <= 2 /\ used <= length (@nil str)
  /\ (forall k, k < used -> @_looks_like_new_row (@Re.patterns Ascii7.db) (nth k [] []) = false)
  /\ (exists a d, avisos r' = avisos no_report ++ a
                  /\ divergencias r' = divergencias no_report ++ d)
  /\ match parsed with
     | Some p =>
         (fst (@validate_item Ascii7.db ex_cfg p) = true /\ erros r' = erros no_report)
         \/ (fst (@validate_item Ascii7.db ex_cfg p) = false
             /\ erros r' = erros no_report
                           ++ [ErroItem (item p) (snd (@validate_item Ascii7.db ex_cfg p))]
             /\ exists d0,
                  divergencias r'
                  = d0 ++ [DivItem (item p) (quant p) (custo_unitario_com_bdi p)
                             (custo_parcial p) (snd (@validate_item Ascii7.db ex_cfg p))])
     | None => erros r' = erros no_report
     end.
Proof.
  apply (@try_finalize_item_outcome Ascii7.db (@Re.patterns Ascii7.db) ex_cfg
           [ex_line] [] no_report).
  discriminate.
Defined.

End ItemProps.

(** ** [_validate_tree_math] and the report *)

Module GroupProps.
Import PyFacts Parser.

Section Groups.
Context `{Unicode}.
Variables tol_abs tol_rel : float.
Variable missing_total_value : str.
Variable report_all : bool.

Notation validate_node := (validate_node tol_abs tol_rel missing_total_value report_all).
Notation validate_loop := (validate_loop tol_abs tol_rel missing_total_value report_all).
Notation check_group := (check_group tol_abs tol_rel missing_total_value report_all).

(** What a check adds to any report: warnings, errors and divergences,
    with a divergence for every error. *)
Definition adds (f : relatorio -> relatorio) : Prop :=
  exists a e d,
    (forall r, f r = mk_relatorio (avisos r ++ a) (erros r ++ e) (divergencias r ++ d))
    /\ length e <= length d
    /\ (report_all = false -> length e = length d).

Lemma adds_id : adds (fun r => r).
Proof.
  exists [], [], []. split; [|split; auto].
  intros [a e d]. simpl. now rewrite !app_nil_r.
Qed.

Lemma adds_comp (f g : relatorio -> relatorio) :
  adds f -> adds g -> adds (fun r => g (f r)).
Proof.
  intros (a & e & d & Hf & Hl & Hr) (a' & e' & d' & Hg & Hl' & Hr').
  exists (a ++ a'), (e ++ e'), (d ++ d'). split; [|split].
  - intros r. rewrite Hg, Hf. simpl. now rewrite !app_assoc.
  - rewrite !length_app. lia.
  - intros Hra. rewrite !length_app, Hr, Hr' by exact Hra. reflexivity.
Qed.

Lemma adds_ext (f g : relatorio -> relatorio) :
  (forall r, f r = g r) -> adds f -> adds g.
Proof.
  intros E (a & e & d & Hf & Hl). exists a, e, d. split; [|exact Hl].
  intros r. rewrite <- E. apply Hf.
Qed.

Lemma check_group_adds (d : dados) (child_sum : float) :
  adds (check_group d child_sum).
Proof.
  unfold Parser.check_group.
  destruct (negb (truthy (strip (custo_total d))) || _); [apply adds_id|].
  destruct (Money.parse_ptbr_number _) as [ct|].
  - cbv zeta. destruct (_ <? _)%float eqn:E.
    + rewrite orb_true_r.
      eexists [], [_], [_]. split; [|split; auto].
      intros [a e dv]. simpl. now rewrite app_nil_r.
    + rewrite orb_false_r. destruct report_all eqn:Er.
      * eexists [], [], [_]. split; [|split; [simpl; lia | congruence]].
        intros [a e dv]. simpl. now rewrite !app_nil_r.
      * apply adds_id.
  - eexists [_], [], []. split; [|split; auto].
    intros [a e dv]. simpl. now rewrite !app_nil_r.
Qed.

Lemma validate_node_unfold (d : dados) (fs : list arvore) (r : relatorio) :
  validate_node (Arvore d fs) r =
  if str_eqb (tipo d) (lit "item") then (parcial_or_zero (custo_parcial d), r)
  else let '(child_sum, r1) := validate_loop fs 0%float r in
       (child_sum, check_group d child_sum r1).
Proof.
  cbn [Parser.validate_node]. destruct (str_eqb (tipo d) (lit "item")); [reflexivity|].
  generalize 0%float as acc. revert r.
  induction fs as [|x fs IH]; intros r acc; [reflexivity|].
  cbn [Parser.validate_loop]. destruct (validate_node x r) as [v r'].
  apply IH.
Qed.

Lemma validate_loop_value (fs : list arvore) :
  Forall (fun n => forall r r', fst (validate_node n r) = fst (validate_node n r')) fs ->
  forall acc r r', fst (validate_loop fs acc r) = fst (validate_loop fs acc r').
Proof.
  induction 1 as [|x fs Hx Hfs IH]; intros acc r r'; [reflexivity|].
  cbn [Parser.validate_loop]. specialize (Hx r r').
  destruct (validate_node x r) as [v0 r0], (validate_node x r') as [v1 r1].
  simpl in Hx. subst v1. apply IH.
Qed.

(** The sum does not depend on the report. *)
Lemma validate_node_value (n : arvore) :
  forall r r', fst (validate_node n r) = fst (validate_node n r').
Proof.
  induction n as [d fs IH] using GroupClaims.arvore_induction. intros r r'.
  rewrite !validate_node_unfold.
  destruct (str_eqb (tipo d) (lit "item")); [reflexivity|].
  pose proof (validate_loop_value fs IH 0%float r r') as E.
  destruct (validate_loop fs 0 r) as [cs r1], (validate_loop fs 0 r') as [cs' r1'].
  simpl in *. now subst.
Qed.

Lemma validate_loop_adds (fs : list arvore) :
  Forall (fun n => adds (fun r => snd (validate_node n r))) fs ->
  forall acc, adds (fun r => snd (validate_loop fs acc r)).
Proof.
  induction 1 as [|x fs Hx Hfs IH]; intros acc; [apply adds_id|].
  cbn [Parser.validate_loop].
  apply adds_ext with
    (f := fun r => snd (validate_loop fs (acc + fst (validate_node x (mk_relatorio [] [] [])))%float
                          (snd (validate_node x r)))).
  - intros r. pose proof (validate_node_value x r (mk_relatorio [] [] [])) as Ev.
    destruct (validate_node x r) as [v r']. simpl in *. now subst.
  - apply (adds_comp (fun r => snd (validate_node x r))
             (fun r => snd (validate_loop fs
                              (acc + fst (validate_node x (mk_relatorio [] [] [])))%float r)));
      [exact Hx | apply IH].
Qed.

Lemma validate_node_adds (n : arvore) : adds (fun r => snd (validate_node n r)).
Proof.
  induction n as [d fs IH] using GroupClaims.arvore_induction.
  apply adds_ext with
    (f := fun r =>
            if str_eqb (tipo d) (lit "item") then r
            else check_group d (fst (validate_loop fs 0%float (mk_relatorio [] [] [])))
                   (snd (validate_loop fs 0%float r))).
  - intros r. rewrite validate_node_unfold.
    destruct (str_eqb (tipo d) (lit "item")); [reflexivity|].
    assert (E : fst (validate_loop fs 0%float r)
                = fst (validate_loop fs 0%float (mk_relatorio [] [] []))).
    { apply validate_loop_value. apply Forall_forall. intros n _.
      apply validate_node_value. }
    destruct (validate_loop fs 0 r) as [cs r1]. simpl in *. now subst.
  - destruct (str_eqb (tipo d) (lit "item")); [apply adds_id|].
    apply (adds_comp (fun r => snd (validate_loop fs 0%float r))
             (check_group d (fst (validate_loop fs 0%float (mk_relatorio [] [] []))))).
    + now apply validate_loop_adds.
    + apply check_group_adds.
Qed.

(** X20: [_validate_tree_math] only adds to the report, and what it adds
    does not depend on what the report held: every error it adds comes
    with a divergence, and unless every check is to be reported there are
    as many errors as divergences. *)
Theorem validate_tree_math_only_adds (nodes : list arvore) :
  exists a e d,
    (forall r,
        snd (_validate_tree_math tol_abs tol_rel missing_total_value report_all nodes r)
        = mk_relatorio (avisos r ++ a) (erros r ++ e) (divergencias r ++ d))
    /\ length e <= length d
    /\ (report_all = false -> length e = length d).
Proof.
  unfold _validate_tree_math.
  apply (validate_loop_adds nodes).
  apply Forall_forall. intros n _. apply validate_node_adds.
Qed.

End Groups.

End GroupProps.

(** ** The groups that the validator checks *)

Module GroupCoverage.
Import PyFacts Parser Exemplos.

(** The second report is the first with entries added at the ends. *)
Definition grows (r r' : relatorio) : Prop :=
  exists a e d,
    r' = mk_relatorio (avisos r ++ a) (erros r ++ e) (divergencias r ++ d).

Lemma grows_refl (r : relatorio) : grows r r.
Proof. exists [], [], []. destruct r. simpl. now rewrite !app_nil_r. Qed.

Lemma grows_trans (r1 r2 r3 : relatorio) : grows r1 r2 -> grows r2 r3 -> grows r1 r3.
Proof.
  intros (a & e & d & ->) (a' & e' & d' & ->). exists (a ++ a'), (e ++ e'), (d ++ d').
  simpl. now rewrite !app_assoc.
Qed.

Section Groups.
Context `{Unicode}.
Variables tol_abs tol_rel : float.
Variable missing_total_value : str.
Variable report_all : bool.

Notation validate_node := (validate_node tol_abs tol_rel missing_total_value report_all).
Notation validate_loop := (validate_loop tol_abs tol_rel missing_total_value report_all).
Notation check_group := (check_group tol_abs tol_rel missing_total_value report_all).
Notation _validate_tree_math :=
  (_validate_tree_math tol_abs tol_rel missing_total_value report_all).

(** The contributions, in the words of the claim: an item contributes its
    parsed partial cost, which is 0.0 when the text is no number (and for
    a zero of either sign); a group contributes the sum of the
    contributions of its children, added from the left to 0.0. *)
Definition parsed_partial_cost (d : dados) : float :=
  match Money.parse_ptbr_number (custo_parcial d) with
  | Some v => if (v =? 0)%float then 0%float else v
  | None => 0%float
  end.

Fixpoint contribution (n : arvore) : float :=
  match n with
  | Arvore d fs =>
      if str_eqb (tipo d) (lit "item") then parsed_partial_cost d
      else fold_left (fun acc c => (acc + contribution c)%float) fs 0%float
  end.

Definition children_sum (fs : list arvore) : float :=
  fold_left (fun acc c => (acc + contribution c)%float) fs 0%float.

(** The nodes that the validator visits: the nodes it is given and the
    children of a visited group.  The children of an item are not
    visited. *)
Inductive visited (nodes : list arvore) : arvore -> Prop :=
| visited_given n : In n nodes -> visited nodes n
| visited_child d fs n :
    visited nodes (Arvore d fs) -> str_eqb (tipo d) (lit "item") = false ->
    In n fs -> visited nodes n.

Lemma contribution_subtotal (n : arvore) : contribution n = subtotal n.
Proof.
  induction n as [d fs IH] using GroupClaims.arvore_induction.
  rewrite GroupClaims.subtotal_eq. cbn [contribution].
  destruct (str_eqb (tipo d) (lit "item")); [reflexivity|].
  unfold soma_filhos. generalize 0%float as acc.
  induction IH as [|x fs Hx Hfs IHfs]; intros acc; [reflexivity|].
  cbn [fold_left]. rewrite Hx. apply IHfs.
Qed.

Lemma children_sum_soma (fs : list arvore) : children_sum fs = soma_filhos fs.
Proof.
  unfold children_sum, soma_filhos. generalize 0%float as acc.
  induction fs as [|x fs IH]; intros acc; [reflexivity|].
  cbn [fold_left]. rewrite contribution_subtotal. apply IH.
Qed.

Lemma validate_node_grows (n : arvore) (r : relatorio) :
  grows r (snd (validate_node n r)).
Proof.
  destruct (GroupProps.validate_node_adds tol_abs tol_rel missing_total_value report_all n)
    as (a & e & d & Hf & _).
  exists a, e, d. apply Hf.
Qed.

Lemma validate_loop_grows (fs : list arvore) (acc : float) (r : relatorio) :
  grows r (snd (validate_loop fs acc r)).
Proof.
  destruct (GroupProps.validate_loop_adds tol_abs tol_rel missing_total_value report_all fs
              (proj2 (Forall_forall _ _)
                 (fun n _ => GroupProps.validate_node_adds tol_abs tol_rel
                               missing_total_value report_all n)) acc)
    as (a & e & d & Hf & _).
  exists a, e, d. apply Hf.
Qed.

(** The loop comes to each of its nodes. *)
Lemma loop_visits (nodes : list arvore) (n : arvore) :
  In n nodes ->
  forall acc r,
  exists r0,
    grows r r0
    /\ grows (snd (validate_node n r0)) (snd (validate_loop nodes acc r)).
Proof.
  induction nodes as [|x nodes IH]; intros Hin acc r; [destruct Hin|].
  cbn [Parser.validate_loop].
  pose proof (validate_node_grows x r) as Hx.
  destruct (validate_node x r) as [v r'] eqn:Ex. cbn [snd] in Hx.
  destruct Hin as [->|Hin].
  - exists r. split; [apply grows_refl|]. rewrite Ex. cbn [snd].
    apply validate_loop_grows.
  - destruct (IH Hin (acc + v)%float r') as (r0 & G1 & G2).
    exists r0. split; [exact (grows_trans _ _ _ Hx G1) | exact G2].
Qed.

(** The validator comes to every node it visits. *)
Lemma validator_visits (nodes : list arvore) (r : relatorio) (n : arvore) :
  visited nodes n ->
  exists r0,
    grows r r0
    /\ grows (snd (validate_node n r0)) (snd (_validate_tree_math nodes r)).
Proof.
  induction 1 as [n Hin | d fs n Hv (r1 & G1 & G2) Ht Hin].
  - apply (loop_visits nodes n Hin).
  - destruct (loop_visits fs n Hin 0%float r1) as (r0 & G3 & G4).
    exists r0. split; [exact (grows_trans _ _ _ G1 G3)|].
    apply (grows_trans _ (snd (validate_node (Arvore d fs) r1))); [|exact G2].
    rewrite GroupClaims.validate_node_eq, Ht.
    destruct (validate_loop fs 0 r1) as [cs rr]. cbn [snd] in *.
    apply (grows_trans _ rr); [exact G4|].
    destruct (GroupProps.check_group_adds tol_abs tol_rel missing_total_value report_all d cs)
      as (a & e & dv & Hf & _).
    exists a, e, dv. apply Hf.
Qed.

(** C8, as the code has it.  An item contributes its parsed partial cost
    and its children are not looked at.  Every group that the validator
    visits (a node it is given, or a child of a visited group) is
    checked: the validator comes to it with a report that holds what it
    was given, and what the group leaves is part of the report at the
    end.  The group contributes the sum of the contributions of its
    children, and that sum is compared with its declared total under
    max(tol_abs, |total| * tol_rel): with an absent total (empty, or the
    configured sentinel) the group leaves the report as its children left
    it; with a numeric total and a difference beyond the tolerance it adds
    one divergence and one error, which are in the report at the end;
    within the tolerance it adds no error (and a divergence only when
    every check is to be reported). *)
Theorem validator_checks_the_groups_it_visits (nodes : list arvore) (r : relatorio) :
  (forall d fs r0,
      str_eqb (tipo d) (lit "item") = true ->
      validate_node (Arvore d fs) r0 = (parsed_partial_cost d, r0))
  /\ forall d fs,
       visited nodes (Arvore d fs) ->
       str_eqb (tipo d) (lit "item") = false ->
       exists r0,
         let final := snd (_validate_tree_math nodes r) in
         let ct_raw := strip (custo_total d) in
         let child_sum := children_sum fs in
         let r1 := snd (_validate_tree_math fs r0) in
         let r' := snd (validate_node (Arvore d fs) r0) in
         grows r r0 /\ grows r0 r1 /\ grows r' final
         /\ fst (validate_node (Arvore d fs) r0) = child_sum
         /\ (ct_raw = [] \/ ct_raw = missing_total_value -> r' = r1)
         /\ (forall ct,
               ct_raw <> [] -> ct_raw <> missing_total_value ->
               Money.parse_ptbr_number ct_raw = Some ct ->
               let tol := fmax tol_abs (abs ct * tol_rel)%float in
               let diff := (child_sum - ct)%float in
               avisos r' = avisos r1
               /\ ((tol <? abs diff)%float = true ->
                   divergencias r'
                   = divergencias r1 ++ [DivGrupo (item d) ct_raw child_sum diff tol]
                   /\ erros r' = erros r1 ++ [ErroGrupo (item d) child_sum ct tol]
                   /\ In (DivGrupo (item d) ct_raw child_sum diff tol) (divergencias final)
                   /\ In (ErroGrupo (item d) child_sum ct tol) (erros final))
               /\ ((tol <? abs diff)%float = false ->
                   erros r' = erros r1
                   /\ divergencias r' =
                      if report_all
                      then divergencias r1 ++ [DivGrupo (item d) ct_raw child_sum diff tol]
                      else divergencias r1)).
Proof.
  split.
  - intros d fs r0 Ht. cbn [Parser.validate_node]. now rewrite Ht.
  - intros d fs Hv Ht.
    destruct (validator_visits nodes r (Arvore d fs) Hv) as (r0 & G1 & G2).
    exists r0. cbv zeta.
    destruct (GroupClaims.group_check_after_children tol_abs tol_rel missing_total_value
                report_all d fs r0 Ht) as (H1 & _ & H3 & H4).
    rewrite <- children_sum_soma in H1, H4.
    split; [exact G1|]. split; [apply validate_loop_grows|]. split; [exact G2|].
    split; [exact H1|]. split; [exact H3|].
    intros ct Hne Hnm Hp. destruct (H4 ct Hne Hnm Hp) as (Ha & Hbig & Hsmall).
    split; [exact Ha|]. split; [|exact Hsmall].
    intros Hgt. destruct (Hbig Hgt) as [Hd He]. split; [exact Hd|]. split; [exact He|].
    destruct G2 as (a & e & dv & ->). cbn [divergencias erros].
    rewrite Hd, He. split; apply in_or_app; left; apply in_or_app; right; now left.
Qed.

End Groups.

(** The group of the specification, given to the validator. *)
Lemma validator_checks_the_groups_it_visits_witness :
  exists r0,
    grows no_report r0
    /\ fst (@validate_node Ascii7.db 0.05 0.0001 [] false (Arvore ex_group ex_children) r0)
       = @children_sum Ascii7.db ex_children
    /\ @children_sum Ascii7.db ex_children = 12000%float.
Proof.
  destruct (proj2 (@validator_checks_the_groups_it_visits Ascii7.db 0.05%float 0.0001%float
                     [] false [Arvore ex_group ex_children] no_report)
              ex_group ex_children)
    as (r0 & G1 & _ & _ & H1 & _).
  - apply visited_given. left. reflexivity.
  - reflexivity.
  - exists r0. split; [exact G1|]. split; [exact H1|]. vm_compute. reflexivity.
Defined.

(** C8 does not hold of every group of the tree.  On the page of
    [ex_page_nested] the budget pass returns a tree in which the group
    9.4.1 hangs below the item 9.4; the validator does not visit it, and
    the report is empty, although the group declares 999,00, its children
    add up to 0.0 and the difference is beyond the tolerance: given the
    group itself, the validator reports the divergence and the error. *)
Lemma group_below_item_is_not_checked :
  @_parse_orcamento_sintetico Ascii7.db (@Re.patterns Ascii7.db) ex_runtime ex_cfg
    [ex_page_nested]
  = Returns (ex_nested_tree, [lit "9.4"], no_report)
  /\ ~ visited ex_nested_tree ex_hidden_group
  /\ @children_sum Ascii7.db [] = 0%float
  /\ @Money.parse_ptbr_number Ascii7.db (lit "999,00") = Some 999%float
  /\ (fmax 0.05 (abs 999 * 0.0001) <? abs (0 - 999))%float = true
  /\ @_validate_tree_math Ascii7.db 0.05 0.0001 [] false ex_nested_tree no_report
     = (550%float, no_report)
  /\ @_validate_tree_math Ascii7.db 0.05 0.0001 [] false [ex_hidden_group] no_report
     = (0%float,
        mk_relatorio []
          [ErroGrupo (lit "9.4.1") 0 999 (fmax 0.05 (abs 999 * 0.0001))]
          [DivGrupo (lit "9.4.1") (lit "999,00") 0 (0 - 999)
             (fmax 0.05 (abs 999 * 0.0001))]).
Proof.
  split; [vm_compute; reflexivity|]. split.
  - assert (Hv : forall n, visited ex_nested_tree n ->
                           n = hd ex_hidden_group ex_nested_tree
                           \/ n = Arvore ex_item [ex_hidden_group]).
    { induction 1 as [n Hin | d fs n Hv IH Ht Hin].
      - destruct Hin as [<-|[]]. now left.
      - destruct IH as [E|E]; injection E as -> ->.
        + destruct Hin as [<-|[]]. now right.
        + vm_compute in Ht. discriminate. }
    intros Hh. destruct (Hv _ Hh) as [E|E]; vm_compute in E; discriminate.
  - repeat split; vm_compute; reflexivity.
Qed.

End GroupCoverage.

(** ** The order of the nodes of the budget tree *)

Module OrderProps.
Import PyFacts Sanitizer Parser TreeFacts.

(** The nodes of a tree in pre-order. *)
Fixpoint preorder (n : arvore) : list dados :=
  match n with Arvore d fs => d :: flat_map preorder fs end.

(** The shape of a part of the heap: the identities, as a tree. *)
Inductive itree := INode (id : nat) (cs : list itree).

Definition iroot (t : itree) : nat := match t with INode id _ => id end.

Fixpoint ipre (t : itree) : list nat :=
  match t with INode id cs => id :: flat_map ipre cs end.

Fixpoint height (t : itree) : nat :=
  match t with
  | INode _ cs => fold_right (fun c acc => Nat.max (S (height c)) acc) 0 cs
  end.

Lemma itree_ind' (P : itree -> Prop) :
  (forall id cs, Forall P cs -> P (INode id cs)) -> forall t, P t.
Proof.
  intros Hstep. fix IH 1. intros [id cs]. apply Hstep.
  induction cs as [|x cs IHcs]; constructor; [apply IH | exact IHcs].
Qed.

(** The heap holds the tree [t]: every node of [t] has the children [t]
    gives it, in that order. *)
Inductive shape (h : heap) : itree -> Prop :=
| shape_node id cs :
    filhos_of h id = map iroot cs -> Forall (shape h) cs -> shape h (INode id cs).

Lemma shape_ext (h h' : heap) (t : itree) :
  (forall id, In id (ipre t) -> filhos_of h' id = filhos_of h id) ->
  shape h t -> shape h' t.
Proof.
  induction t as [id cs IH] using itree_ind'. intros Hsame Hs.
  inversion Hs as [? ? Hf Hcs]; subst. constructor.
  - rewrite Hsame by now left. exact Hf.
  - rewrite Forall_forall in IH, Hcs |- *. intros c Hc. apply IH; [exact Hc| |now apply Hcs].
    intros i Hi. apply Hsame. right. cbn [ipre]. apply in_flat_map. now exists c.
Qed.

Lemma height_lt_size (t : itree) : height t < length (ipre t).
Proof.
  induction t as [id cs IH] using itree_ind'. cbn [height ipre length].
  apply Nat.lt_succ_r. induction IH as [|c cs Hc Hcs IHcs]; [simpl; lia|].
  cbn [fold_right flat_map]. rewrite length_app. lia.
Qed.

Lemma height_child (id : nat) (cs : list itree) (c : itree) :
  In c cs -> S (height c) <= height (INode id cs).
Proof.
  cbn [height]. induction cs as [|x cs IH]; intros Hin; [destruct Hin|].
  cbn [fold_right]. destruct Hin as [->|Hin]; [lia|]. specialize (IH Hin). lia.
Qed.

(** Reading the tree from the heap gives, in pre-order, the nodes that
    the shape lists. *)
Lemma reify_shape (t : itree) :
  forall fuel h, shape h t -> height t <= fuel ->
  preorder (reify fuel h (iroot t)) = map (fun i => dados_de (nth i h root)) (ipre t).
Proof.
  induction t as [id cs IH] using itree_ind'. intros fuel h Hs Hh.
  inversion Hs as [? ? Hf Hcs]; subst. cbn [iroot ipre map].
  destruct fuel as [|f].
  - destruct cs as [|c cs]; [reflexivity|]. cbn [height fold_right] in Hh. lia.
  - cbn [reify preorder]. f_equal. rewrite Hf.
    assert (Hall : forall c, In c cs -> height c <= f).
    { intros c Hc. pose proof (height_child id cs c Hc). lia. }
    clear Hf Hs Hh. induction cs as [|c cs IHcs]; [reflexivity|].
    cbn [map flat_map]. rewrite map_app.
    inversion IH as [|? ? Hc IH']; subst. inversion Hcs as [|? ? Hsc Hcs']; subst.
    rewrite (Hc f h Hsc) by (apply Hall; now left). f_equal.
    apply IHcs; [exact IH' | exact Hcs' | intros x Hx; apply Hall; now right].
Qed.

(** *** The build stack as a path of open nodes *)

(** An open node: its level, its identity and its finished children. *)
Definition frame := (Z * nat * list itree)%type.

Definition stack_of (z : list frame) : list (Z * nat) :=
  map (fun f => (fst (fst f), snd (fst f))) z.

(** The head of [z] is the top of the stack; [open] is the child of the
    head that is still open (none for the top itself). *)
Fixpoint frames (h : heap) (open : list nat) (z : list frame) : Prop :=
  match z with
  | [] => False
  | (l, id, cs) :: below =>
      filhos_of h id = map iroot cs ++ open
      /\ Forall (shape h) cs
      /\ match below with
         | [] => l = 0%Z /\ id = 0
         | _ => frames h [id] below
         end
  end.

(** The nodes in the order of a pre-order walk from the root. *)
Fixpoint listing (z : list frame) : list nat :=
  match z with
  | [] => []
  | (l, id, cs) :: below => listing below ++ id :: flat_map ipre cs
  end.

Lemma frames_ext (h h' : heap) (z : list frame) :
  (forall id, In id (listing z) -> filhos_of h' id = filhos_of h id) ->
  forall open, frames h open z -> frames h' open z.
Proof.
  induction z as [|[[l id] cs] below IH]; intros Hsame open Hf; [exact Hf|].
  cbn [frames listing] in *. destruct Hf as (H1 & H2 & H3).
  split; [|split].
  - rewrite Hsame; [exact H1|]. apply in_or_app. right. now left.
  - rewrite Forall_forall in H2 |- *. intros c Hc. apply (shape_ext h); [|now apply H2].
    intros i Hi. apply Hsame. apply in_or_app. right. right.
    apply in_flat_map. now exists c.
  - destruct below as [|f below']; [exact H3|]. apply IH; [|exact H3].
    intros i Hi. apply Hsame. apply in_or_app. now left.
Qed.

Lemma frames_nonempty (h : heap) (open : list nat) (z : list frame) :
  frames h open z -> z <> [].
Proof. destruct z; [intros [] | discriminate]. Qed.

(** Popping folds the finished nodes into their parents. *)
Lemma pop_frames (h : heap) (level : Z) :
  (1 <= level)%Z ->
  forall n z, length z = n -> frames h [] z ->
  exists z', pop_to level (stack_of z) = stack_of z'
             /\ frames h [] z' /\ listing z' = listing z.
Proof.
  intros Hlevel. induction n as [|n IH]; intros z Hn Hf.
  - destruct z; [destruct Hf | discriminate].
  - destruct z as [|[[l id] cs] below]; [discriminate|].
    cbn [stack_of map fst snd pop_to].
    destruct (Z.leb_spec level l) as [Hle|Hgt].
    + cbn [frames] in Hf. destruct Hf as (H1 & H2 & H3).
      destruct below as [|[[l' id'] cs'] below'].
      { destruct H3 as [-> _]. lia. }
      cbn [frames] in H3. destruct H3 as (G1 & G2 & G3).
      destruct (IH ((l', id', cs' ++ [INode id cs]) :: below')) as (z' & E1 & E2 & E3).
      * simpl in Hn. simpl. lia.
      * cbn [frames]. split; [|split].
        -- rewrite G1, map_app, app_nil_r. reflexivity.
        -- apply Forall_app. split; [exact G2|]. constructor; [|constructor].
           constructor; [now rewrite app_nil_r in H1 | exact H2].
        -- exact G3.
      * exists z'. split; [exact E1|]. split; [exact E2|].
        rewrite E3. cbn [listing]. rewrite flat_map_app. cbn [flat_map ipre].
        rewrite app_nil_r, <- !app_assoc. reflexivity.
    + exists ((l, id, cs) :: below). split; [reflexivity|]. split; [exact Hf | reflexivity].
Qed.

(** The state of the tree and the path of open nodes that describes it. *)
Record rep (t : build) (z : list frame) : Prop := {
  rep_stack : stack t = stack_of z;
  rep_frames : frames (objs t) [] z;
  rep_listing : listing z = seq 0 (length (objs t))
}.

Lemma rep_init : rep build_init [(0%Z, 0, [])].
Proof. constructor; simpl; auto. Qed.

Lemma filhos_pushed_new (h : heap) (parent : nat) (node : dados) :
  filhos_of (pushed h parent node) (length h) = [].
Proof. unfold filhos_of. now rewrite nth_error_pushed_new. Qed.

Lemma push_node_pushed (node : dados) (t : build) :
  push_node node t =
  match pop_to (level_of node) (stack t) with
  | [] => None
  | (pl, parent) :: rest =>
      Some (mk_build (pushed (objs t) parent node)
              ((level_of node, length (objs t)) :: (pl, parent) :: rest)
              (if str_eqb (tipo node) (lit "item") then Some (length (objs t))
               else last_item_node t))
  end.
Proof. reflexivity. Qed.

Lemma rep_push (node : dados) (t t' : build) (z : list frame) :
  rep t z -> push_node node t = Some t' -> exists z', rep t' z'.
Proof.
  intros [Hs Hf Hl] Hp.
  destruct (pop_frames (objs t) (level_of node) (level_of_pos node) (length z) z eq_refl Hf)
    as (z1 & E1 & E2 & E3).
  rewrite push_node_pushed, Hs, E1 in Hp.
  rewrite <- E3 in Hl. clear E3 Hs Hf E1.
  pose proof (seq_NoDup (length (objs t)) 0) as Hnd. rewrite <- Hl in Hnd.
  assert (Hlt : forall i, In i (listing z1) -> i < length (objs t)).
  { intros i Hi. rewrite Hl in Hi. apply in_seq in Hi. lia. }
  destruct z1 as [|[[pl parent] cs] below]; [destruct E2|].
  cbn [stack_of map fst snd] in Hp. injection Hp as <-.
  fold (stack_of below).
  cbn [listing] in Hnd, Hlt, Hl.
  set (h := objs t) in *. set (n := length h) in *.
  assert (Hpar : parent < n).
  { apply Hlt. apply in_or_app. right. now left. }
  assert (Hother : forall i, In i (listing below ++ flat_map ipre cs) ->
                             filhos_of (pushed h parent node) i = filhos_of h i).
  { intros i Hi. rewrite filhos_pushed by exact Hpar.
    destruct (Nat.eqb_spec i parent) as [->|Hne]; [|reflexivity].
    exfalso. apply NoDup_remove_2 in Hnd. contradiction. }
  cbn [frames] in E2. destruct E2 as (G1 & G2 & G3).
  exists ((level_of node, n, []) :: (pl, parent, cs) :: below).
  constructor.
  - reflexivity.
  - cbn [objs frames map app]. split; [apply filhos_pushed_new|]. split; [constructor|].
    split; [|split].
    + rewrite filhos_pushed, Nat.eqb_refl by exact Hpar. rewrite G1, app_nil_r. reflexivity.
    + rewrite Forall_forall in G2 |- *. intros c Hc. apply (shape_ext h); [|now apply G2].
      intros i Hi. apply Hother. apply in_or_app. right. apply in_flat_map. now exists c.
    + destruct below as [|f below']; [exact G3|]. apply (frames_ext h); [|exact G3].
      intros i Hi. apply Hother. apply in_or_app. now left.
  - cbn [objs listing flat_map]. rewrite length_pushed, Hl, seq_S. reflexivity.
Qed.

Lemma rep_continuation (ln : str) (sif dyn : list str) (t : build) (z : list frame) :
  rep t z -> rep (append_continuation ln sif dyn t) z.
Proof.
  intros [Hs Hf Hl]. unfold append_continuation.
  destruct (last_item_node t) as [id|]; [|now constructor].
  constructor; cbn [stack objs].
  - exact Hs.
  - apply (frames_ext (objs t)); [|exact Hf].
    intros i _. apply (filhos_continuation (objs t) id
      (fun d => set_especificacao d
                  (strip (especificacao d ++ [32%N] ++ Sanitizer.clean_inline ln sif dyn)))).
  - now rewrite length_update_nth.
Qed.

(** Closing every open node gives the whole tree. *)
Lemma close_frames (h : heap) :
  forall n z, length z = n -> frames h [] z ->
  exists cs, shape h (INode 0 cs) /\ 0 :: flat_map ipre cs = listing z.
Proof.
  induction n as [|n IH]; intros z Hn Hf.
  - destruct z; [destruct Hf | discriminate].
  - destruct z as [|[[l id] cs] below]; [discriminate|].
    cbn [frames] in Hf. destruct Hf as (H1 & H2 & H3).
    destruct below as [|[[l' id'] cs'] below'].
    + destruct H3 as [_ ->]. exists cs. split.
      * constructor; [now rewrite app_nil_r in H1 | exact H2].
      * reflexivity.
    + cbn [frames] in H3. destruct H3 as (G1 & G2 & G3).
      destruct (IH ((l', id', cs' ++ [INode id cs]) :: below')) as (cs0 & E1 & E2).
      * simpl in Hn. simpl. lia.
      * cbn [frames]. split; [|split].
        -- rewrite G1, map_app, app_nil_r. reflexivity.
        -- apply Forall_app. split; [exact G2|]. constructor; [|constructor].
           constructor; [now rewrite app_nil_r in H1 | exact H2].
        -- exact G3.
      * exists cs0. split; [exact E1|]. rewrite E2. cbn [listing].
        rewrite flat_map_app. cbn [flat_map ipre]. rewrite app_nil_r, <- !app_assoc.
        reflexivity.
Qed.

Lemma map_nth_tail {A B : Type} (f : A -> B) (d : A) (l : list A) :
  map (fun i => f (nth i l d)) (seq 1 (length l - 1)) = map f (tl l).
Proof.
  destruct l as [|x l]; [reflexivity|]. cbn [length tl].
  replace (S (length l) - 1) with (length l) by lia.
  rewrite <- seq_shift, map_map. cbn [nth].
  induction l as [|y l IH] using rev_ind; [reflexivity|].
  rewrite length_app, Nat.add_1_r, seq_S, !map_app. cbn [map Nat.add].
  rewrite app_nth2, Nat.sub_diag by lia. cbn [nth]. f_equal.
  rewrite <- IH. apply map_ext_in. intros i Hi. apply in_seq in Hi.
  now rewrite app_nth1 by lia.
Qed.

(** From a state that a path of open nodes describes, the tree read from
    the root lists the nodes of the heap in the order of their creation. *)
Lemma rep_preorder (t : build) (z : list frame) :
  rep t z ->
  flat_map preorder (map (reify (length (objs t)) (objs t)) (filhos_of (objs t) 0))
  = map dados_de (tl (objs t)).
Proof.
  intros [Hs Hf Hl]. set (h := objs t) in *.
  destruct (close_frames h (length z) z eq_refl Hf) as (cs & Hsh & Hpre).
  rewrite Hl in Hpre.
  inversion Hsh as [? ? Hfil Hcs]; subst. rewrite Hfil.
  assert (Hlen : length (flat_map ipre cs) = length h - 1).
  { apply (f_equal (@length _)) in Hpre. rewrite length_seq in Hpre. simpl in Hpre. lia. }
  assert (Hflat : flat_map ipre cs = seq 1 (length h - 1)).
  { destruct (length h) as [|m] eqn:Em; [discriminate|].
    cbn [seq] in Hpre. injection Hpre as Hpre. now rewrite Nat.sub_succ, Nat.sub_0_r. }
  rewrite <- (map_nth_tail dados_de root h), <- Hflat.
  assert (Hall : forall c, In c cs -> height c <= length h).
  { intros c Hc. pose proof (height_lt_size c).
    assert (length (ipre c) <= length (flat_map ipre cs)).
    { clear - Hc. induction cs as [|x cs IH]; [destruct Hc|].
      cbn [flat_map]. rewrite length_app. destruct Hc as [->|Hc]; [lia|].
      specialize (IH Hc). lia. }
    lia. }
  clear Hpre Hflat Hlen Hfil Hsh. induction cs as [|c cs IH]; [reflexivity|].
  cbn [map flat_map]. rewrite map_app. inversion Hcs as [|? ? Hc Hcs']; subst.
  rewrite (reify_shape c (length h) h Hc) by (apply Hall; now left). f_equal.
  apply IH; [exact Hcs' | intros x Hx; apply Hall; now right].
Qed.

(** *** [itens_plano] and the item nodes *)

Definition is_item_node (d : dados) : bool := str_eqb (tipo d) (lit "item").

(** The nodes of the heap in the order of their creation, the root apart. *)
Definition nodes (h : heap) : list dados := map dados_de (tl h).

(** An item carries a trimmed item number; a group carries no code. *)
Definition node_ok (d : dados) : Prop :=
  (tipo d = lit "item" /\ strip (item d) = item d)
  \/ (is_item_node d = false /\ codigo d = []).

Definition same_key (f : objeto -> objeto) : Prop :=
  forall o, tipo (dados_de (f o)) = tipo (dados_de o)
            /\ item (dados_de (f o)) = item (dados_de o)
            /\ codigo (dados_de (f o)) = codigo (dados_de o).

Definition plano_all (l : list dados) : list str := map item (filter is_item_node l).

Lemma plano_all_update (k : nat) (f : objeto -> objeto) (l : list objeto) :
  same_key f ->
  plano_all (map dados_de (update_nth k f l)) = plano_all (map dados_de l).
Proof.
  intros Hf. revert k. induction l as [|x l IH]; intros k; [now destruct k|].
  destruct k as [|k]; cbn [update_nth].
  - unfold plano_all, is_item_node. cbn [map filter].
    destruct (Hf x) as (-> & Hi & _). destruct (str_eqb _ _); cbn [map]; now rewrite ?Hi.
  - unfold plano_all in *. cbn [map filter]. destruct (is_item_node _); cbn [map];
      now rewrite IH.
Qed.

Lemma node_ok_update (k : nat) (f : objeto -> objeto) (l : list objeto) :
  same_key f ->
  Forall node_ok (map dados_de l) -> Forall node_ok (map dados_de (update_nth k f l)).
Proof.
  intros Hf. revert k. induction l as [|x l IH]; intros k Hl; [now destruct k|].
  inversion Hl as [|? ? Hx Hl']; subst.
  destruct k as [|k]; cbn [update_nth map]; constructor; auto.
  destruct (Hf x) as (Et & Ei & Ec). unfold node_ok, is_item_node in *.
  now rewrite Et, Ei, Ec.
Qed.

Lemma nodes_update (k : nat) (f : objeto -> objeto) (h : heap) :
  same_key f ->
  plano_all (nodes (update_nth k f h)) = plano_all (nodes h)
  /\ (Forall node_ok (nodes h) -> Forall node_ok (nodes (update_nth k f h))).
Proof.
  intros Hf. unfold nodes. destruct h as [|x l]; [now destruct k|].
  destruct k as [|k]; cbn [update_nth tl]; [now split|].
  split; [now apply plano_all_update | now apply node_ok_update].
Qed.

Lemma map_dados_add_child (k n : nat) (l : list objeto) :
  map dados_de (update_nth k (add_child n) l) = map dados_de l.
Proof.
  revert k. induction l as [|x l IH]; intros k; [now destruct k|].
  destruct k as [|k]; cbn [update_nth map]; [reflexivity | now rewrite IH].
Qed.

Lemma nodes_pushed (h : heap) (parent : nat) (node : dados) :
  h <> [] -> nodes (pushed h parent node) = nodes h ++ [node].
Proof.
  intros Hne. unfold nodes, pushed. destruct h as [|x l]; [contradiction|].
  destruct parent as [|k]; cbn [update_nth app tl]; rewrite map_app; [reflexivity|].
  now rewrite map_dados_add_child.
Qed.

Lemma rep_nonempty (t : build) (z : list frame) : rep t z -> objs t <> [].
Proof.
  intros [_ Hf Hl] E. rewrite E in Hl. cbn [length seq] in Hl.
  destruct z as [|[[l id] cs] below]; [destruct Hf|].
  cbn [listing] in Hl. now destruct (listing below).
Qed.

Lemma strip_strip (s : str) : strip (strip s) = strip s.
Proof. apply strip_id; [apply strip_hd | apply strip_last]. Qed.

(** *** What a turn of the main loop keeps *)

Section Kept.
Context `{Unicode} `{Patterns}.
Variable cfg : config.

Lemma candidate_item (buffer_lines cur : list str) (r : relatorio) (p : dados) (r' : relatorio) :
  candidate cfg buffer_lines cur r = (Some p, r') ->
  tipo p = lit "item" /\ strip (item p) = item p.
Proof.
  unfold candidate, _try_parse_item_row, _try_parse_composicao_item_row.
  destruct (RE_ITEM_START_match _) as [[[[? ?] ?] ?]|];
    [destruct (RE_ITEM_TAIL_search _) as [[[[[? ?] ?] ?] ?]|]|].
  - intros [= <- _]. split; [reflexivity | apply strip_strip].
  - destruct (RE_ITEM_COMPOSICAO_START_match _) as [[[? ?] ?]|];
      [destruct (RE_ITEM_TAIL_search _) as [[[[[? ?] ?] ?] ?]|]|];
      try discriminate.
    intros [= <- _]. split; [reflexivity | apply strip_strip].
  - destruct (RE_ITEM_COMPOSICAO_START_match _) as [[[? ?] ?]|];
      [destruct (RE_ITEM_TAIL_search _) as [[[[[? ?] ?] ?] ?]|]|];
      try discriminate.
    intros [= <- _]. split; [reflexivity | apply strip_strip].
Qed.

Lemma try_finalize_loop_item (left extra_used : nat)
    (buffer_lines cur lookahead_lines : list str) (r : relatorio)
    (p : dados) (used : nat) (r' : relatorio) :
  try_finalize_loop cfg left extra_used buffer_lines cur lookahead_lines r = (Some p, used, r') ->
  tipo p = lit "item" /\ strip (item p) = item p.
Proof.
  revert extra_used cur r.
  induction left as [|left IH]; intros extra_used cur r; cbn [try_finalize_loop];
    destruct (candidate cfg buffer_lines cur r) as [[q|] r1] eqn:Ec.
  - apply candidate_item in Ec. destruct (validate_item cfg q) as [[|] reason];
      intros [= <- _ _]; exact Ec.
  - discriminate.
  - apply candidate_item in Ec. destruct (validate_item cfg q) as [[|] reason].
    + intros [= <- _ _]; exact Ec.
    + destruct (negb _); [apply IH|]. intros [= <- _ _]; exact Ec.
  - destruct (negb _); [apply IH | discriminate].
Qed.

(** A property of the tree and of [itens_plano] that the three changes
    of the loop keep: an item is pushed and its number appended, a group
    is pushed, text is appended to the last item. *)
Variable Q : build -> list str -> Prop.
Hypothesis Q_item : forall t plano p t',
  Q t plano -> tipo p = lit "item" -> strip (item p) = item p ->
  push_node p t = Some t' -> Q t' (plano ++ [item p]).
Hypothesis Q_group : forall t plano it desc total t',
  Q t plano -> push_node (grupo (tipo_of it) it desc total) t = Some t' -> Q t' plano.
Hypothesis Q_continuation : forall t plano ln,
  Q t plano ->
  Q (append_continuation ln (strip_inline_from cfg) (dynamic_markers cfg) t) plano.

Definition kept_by (o : outcome loop) : Prop :=
  forall st', o = Returns st' -> Q (l_tree st') (l_plano st').

Lemma kept_returns (st : loop) : Q (l_tree st) (l_plano st) -> kept_by (Returns st).
Proof. intros Ht st' [= <-]. exact Ht. Qed.

Lemma kept_then_advance (o : outcome loop) : kept_by o -> kept_by (then_advance o).
Proof.
  intros Ho st'. destruct o as [st0|e]; [|discriminate].
  intros [= <-]. exact (Ho st0 eq_refl).
Qed.

Lemma kept_finalize_buf (buf lookahead : list str) (st : loop) :
  Q (l_tree st) (l_plano st) -> kept_by (finalize_buf cfg buf lookahead st).
Proof.
  intros Ht st'. unfold finalize_buf, try_finalize_item.
  destruct (try_finalize_loop cfg _ 0 buf buf lookahead (l_rel st)) as [[[p|] used] r] eqn:Ef.
  - apply try_finalize_loop_item in Ef. destruct Ef as [Et Ei].
    destruct (push_node p (l_tree st)) as [t|] eqn:Ep; [|discriminate].
    intros [= <-]. cbn [l_tree l_plano]. now apply (Q_item (l_tree st)).
  - intros [= <-]. exact Ht.
Qed.

Lemma kept_push_group (item desc total : str) (st : loop) :
  Q (l_tree st) (l_plano st) -> kept_by (push_group item desc total st).
Proof.
  intros Ht st'. unfold push_group.
  destruct (push_node _ (l_tree st)) as [t|] eqn:Ep; [|discriminate].
  intros [= <-]. cbn [l_tree l_plano]. exact (Q_group _ _ _ _ _ _ Ht Ep).
Qed.

Lemma kept_continue_item (ln : str) (st : loop) :
  Q (l_tree st) (l_plano st) ->
  Q (l_tree (continue_item cfg ln st)) (l_plano (continue_item cfg ln st)).
Proof. intros Ht. now apply Q_continuation. Qed.

Lemma kept_continuation_or_noise (ln : str) (st : loop) :
  Q (l_tree st) (l_plano st) -> kept_by (continuation_or_noise cfg ln st).
Proof.
  intros Ht. unfold continuation_or_noise. destruct (can_continue cfg ln st).
  - apply kept_returns. now apply kept_continue_item.
  - now apply kept_returns.
Qed.

Lemma kept_group_no_total (lines : list str) (item desc : str) (st : loop) :
  Q (l_tree st) (l_plano st) -> kept_by (group_no_total cfg lines item desc st).
Proof.
  intros Ht. unfold group_no_total.
  destruct (S (l_i st) <? length lines)%nat;
    [destruct (RE_ONLY_NUMBER_match _) as [num|]|];
    cbv zeta; repeat match goal with
                     | |- context [if ?b then _ else _] => destruct b
                     end;
    apply kept_then_advance, kept_push_group; exact Ht.
Qed.

Lemma kept_step (lines : list str) (st : loop) :
  Q (l_tree st) (l_plano st) -> kept_by (step cfg lines st).
Proof.
  intros Ht. unfold step. destruct (l_buf st) as [|b buf].
  - destruct (_ || _).
    + destruct (RE_ITEM_TAIL_search _).
      * now apply kept_then_advance, kept_finalize_buf.
      * now apply kept_returns.
    + destruct (RE_GROUP_WITH_TOTAL_match _) as [[[item desc] total]|].
      * destruct (negb _).
        -- destruct (can_continue _ _ _).
           ++ apply kept_returns. now apply kept_continue_item.
           ++ now apply kept_then_advance, kept_push_group.
        -- now apply kept_then_advance, kept_push_group.
      * destruct (RE_GROUP_NO_TOTAL_match _) as [[item desc]|].
        -- destruct (_is_probable_group_heading _).
           ++ now apply kept_group_no_total.
           ++ now apply kept_continuation_or_noise.
        -- now apply kept_continuation_or_noise.
  - destruct (_looks_like_new_row _).
    + now apply kept_finalize_buf.
    + destruct (RE_ITEM_TAIL_search _).
      * now apply kept_then_advance, kept_finalize_buf.
      * now apply kept_returns.
Qed.

Lemma kept_main_loop (turns : nat) (lines : list str) (st : loop) :
  Q (l_tree st) (l_plano st) -> kept_by (main_loop cfg turns lines st).
Proof.
  revert st. induction turns as [|n IH]; intros st Ht; cbn [main_loop].
  - now apply kept_returns.
  - destruct (l_i st <? length lines)%nat; [|now apply kept_returns].
    pose proof (kept_step lines st Ht) as Hs.
    destruct (step cfg lines st) as [st1|e]; [|discriminate].
    apply IH. now apply Hs.
Qed.

Lemma kept_flush (st : loop) : Q (l_tree st) (l_plano st) -> kept_by (flush cfg st).
Proof.
  intros Ht. unfold flush. destruct (l_buf st) as [|b buf].
  - now apply kept_returns.
  - pose proof (kept_finalize_buf (b :: buf) [] st Ht) as Hf.
    destruct (finalize_buf cfg (b :: buf) [] st) as [st1|e]; [|discriminate].
    intros st' [= <-]. exact (Hf st1 eq_refl).
Qed.

End Kept.

(** The tree is described by a path of open nodes, [itens_plano] holds
    the item numbers of its item nodes in the order of creation, and
    every node is an item or a group. *)
Definition tracked (t : build) (plano : list str) : Prop :=
  (exists z, rep t z)
  /\ plano = plano_all (nodes (objs t))
  /\ Forall node_ok (nodes (objs t)).

Lemma tracked_init : tracked build_init [].
Proof.
  split; [exists [(0%Z, 0, [])]; apply rep_init|]. split; [reflexivity | constructor].
Qed.

Lemma tracked_push (node : dados) (t t' : build) (plano : list str) :
  tracked t plano -> node_ok node -> push_node node t = Some t' ->
  tracked t' (plano ++ (if is_item_node node then [item node] else [])).
Proof.
  intros ([z Hr] & Hp & Hok) Hn E. split; [exact (rep_push node _ _ z Hr E)|].
  pose proof (rep_nonempty _ _ Hr) as Hne.
  rewrite push_node_pushed in E. destruct (pop_to _ _) as [|[pl parent] rest]; [discriminate|].
  injection E as <-. cbn [objs]. rewrite nodes_pushed by exact Hne. split.
  - unfold plano_all. rewrite filter_app, map_app, Hp. cbn [filter].
    now destruct (is_item_node node).
  - apply Forall_app. split; [exact Hok | now constructor].
Qed.

Lemma tipo_of_not_item (item : str) : str_eqb (tipo_of item) (lit "item") = false.
Proof. unfold tipo_of. now destruct (contains _ _). Qed.

Section Loop.
Context `{Unicode} `{Patterns}.
Variable cfg : config.

Lemma tracked_item (t : build) (plano : list str) (p : dados) (t' : build) :
  tracked t plano -> tipo p = lit "item" -> strip (item p) = item p ->
  push_node p t = Some t' -> tracked t' (plano ++ [item p]).
Proof.
  intros Ht Et Ei E.
  pose proof (tracked_push p t t' plano Ht (or_introl (conj Et Ei)) E) as Hp.
  unfold is_item_node in Hp. now rewrite Et, str_eqb_refl in Hp.
Qed.

Lemma tracked_group (t : build) (plano : list str) (it desc total : str) (t' : build) :
  tracked t plano -> push_node (grupo (tipo_of it) it desc total) t = Some t' ->
  tracked t' plano.
Proof.
  intros Ht E.
  assert (Hg : is_item_node (grupo (tipo_of it) it desc total) = false)
    by apply tipo_of_not_item.
  pose proof (tracked_push _ t t' plano Ht (or_intror (conj Hg eq_refl)) E) as Hp.
  now rewrite Hg, app_nil_r in Hp.
Qed.

Lemma tracked_continuation (t : build) (plano : list str) (ln : str) :
  tracked t plano ->
  tracked (append_continuation ln (strip_inline_from cfg) (dynamic_markers cfg) t) plano.
Proof.
  intros ([z Hr] & Hp & Hok). split; [exists z; now apply rep_continuation|].
  unfold append_continuation. destruct (last_item_node t) as [id|]; [|now split].
  cbn [objs].
  destruct (nodes_update id
              (fun o => mk_objeto
                 (set_especificacao (dados_de o)
                    (strip (especificacao (dados_de o) ++ [32%N]
                            ++ Sanitizer.clean_inline ln (strip_inline_from cfg)
                                 (dynamic_markers cfg))))
                 (filhos o)) (objs t)) as [E1 E2].
  { intros o. now repeat split. }
  split; [now rewrite E1 | now apply E2].
Qed.

(** The tree that goes to the validation and the response model is that
    of a final state of the loop that is tracked. *)
Lemma parse_orcamento_tracked `{Runtime} (pages_text : list str) :
  _parse_orcamento_sintetico cfg pages_text
  = Returns ([], [], mk_relatorio [] [ErroNenhumaLinha] [])
  \/ exists st,
       tracked (l_tree st) (l_plano st)
       /\ _parse_orcamento_sintetico cfg pages_text
          = validate_and_build cfg (roots_of st) (l_plano st) (l_rel st).
Proof.
  destruct (parse_orcamento_reaches_end cfg pages_text)
    as [E|(lines & st0 & st & _ & E0 & E1 & _ & E)]; [now left|].
  right. exists st. split; [|exact E].
  pose proof (kept_main_loop cfg tracked tracked_item tracked_group tracked_continuation
                _ _ loop_init tracked_init st0 E0) as Ht.
  exact (kept_flush cfg tracked tracked_item st0 Ht st E1).
Qed.

(** X21: in every state the main loop reaches, a walk of the tree from the
    root, each node before its children and the children in their order,
    meets the nodes in the order [push_node] created them, each once. *)
Theorem tree_keeps_creation_order (turns : nat) (lines : list str) :
  exists st,
    main_loop cfg turns lines loop_init = Returns st
    /\ let h := objs (l_tree st) in
       flat_map preorder (map (reify (length h) h) (filhos_of h 0))
       = map dados_de (tl h).
Proof.
  destruct (sound_main_loop cfg turns lines loop_init inv_init) as (st & E & _).
  exists st. split; [exact E|].
  destruct (kept_main_loop cfg tracked tracked_item tracked_group tracked_continuation
              turns lines loop_init tracked_init st E) as ([z Hr] & _).
  exact (rep_preorder _ z Hr).
Qed.


End Loop.

End OrderProps.

(** ** The references of the budget and the comparison *)

Module ConferenciaProps.
Import PyFacts DictFacts Composicoes Conferencia.

(** [l] is [m] with some elements left out. *)
Inductive subseq {A : Type} : list A -> list A -> Prop :=
| subseq_nil : subseq [] []
| subseq_skip x l m : subseq l m -> subseq l (x :: m)
| subseq_keep x l m : subseq l m -> subseq (x :: l) (x :: m).

Lemma filter_map_comm {A B : Type} (f : B -> bool) (g : A -> B) (l : list A) :
  filter f (map g l) = map g (filter (fun x => f (g x)) l).
Proof.
  induction l as [|x l IH]; [reflexivity|]. cbn [map filter].
  destruct (f (g x)); cbn [map]; now rewrite IH.
Qed.

Section Refs.
Context `{Unicode} `{Digits}.

Lemma collect_preorder (roots : list Parser.arvore) :
  _collect_item_refs roots = flat_map ref_of (flat_map OrderProps.preorder roots).
Proof.
  unfold _collect_item_refs.
  assert (Hw : forall n, walk n = flat_map ref_of (OrderProps.preorder n)).
  { induction n as [d fs IH] using GroupClaims.arvore_induction.
    cbn [walk OrderProps.preorder flat_map]. f_equal.
    induction IH as [|x fs Hx Hfs IHfs]; [reflexivity|].
    cbn [flat_map]. now rewrite flat_map_app, Hx, IHfs. }
  induction roots as [|n roots IH]; [reflexivity|].
  cbn [flat_map]. now rewrite flat_map_app, Hw, IH.
Qed.

Lemma ref_of_item (d : Parser.dados) :
  OrderProps.node_ok d ->
  map ref_item (ref_of d) = []
  \/ (OrderProps.is_item_node d = true /\ map ref_item (ref_of d) = [Parser.item d]).
Proof.
  intros [[Et Ei]|[Eg Ec]]; unfold ref_of.
  - destruct (str_eqb (lower _) _); [|now left].
    destruct (truthy _ && _ && _); [|now left].
    destruct (negb _ && _); [|now left].
    right. split; [unfold OrderProps.is_item_node; now rewrite Et, str_eqb_refl|].
    cbn [map ref_item]. now rewrite Ei.
  - left. rewrite Ec. destruct (str_eqb (lower _) _); [|reflexivity].
    cbn [strip lstrip rstrip rev truthy]. now rewrite andb_false_r.
Qed.

Lemma refs_subseq (l : list Parser.dados) :
  Forall OrderProps.node_ok l ->
  subseq (map ref_item (flat_map ref_of l))
         (map Parser.item (filter OrderProps.is_item_node l)).
Proof.
  induction 1 as [|d l Hd Hl IH]; [constructor|].
  cbn [flat_map filter]. rewrite map_app.
  destruct (ref_of_item d Hd) as [->|[-> ->]].
  - cbn [app]. destruct (OrderProps.is_item_node d); [|exact IH].
    cbn [map]. now constructor.
  - cbn [app map]. now constructor.
Qed.

End Refs.

Section Budget.
Context `{Unicode} `{Patterns} `{Parser.Runtime} `{Digits}.
Variable cfg : Parser.config.


End Budget.

Section Conferir.
Context `{Unicode} `{Digits}.

(** The normalised identity of a reference or of a key. *)
Definition norm_id (rid : str) : str :=
  let '(c, b) := _split_id rid in _make_id_norm c b.

(** The reference enters [expected_norm]. *)
Definition counted (r : item_ref) : bool :=
  let rid := strip (ref_id r) in
  truthy rid && contains [124%N] rid
  && negb (str_eqb (_norm_code (fst (_split_id rid))) (lit "COMPOSICAO"))
  && negb (str_eqb (strip (upper (snd (_split_id rid)))) (lit "SINAPI")
           && isdigit (fst (_split_id rid))
           && startswith (fst (_split_id rid)) (lit "0000")).

Definition entry_of (r : item_ref) : esperado :=
  let rid := strip (ref_id r) in
  mk_esperado rid (fst (_split_id rid)) (snd (_split_id rid)).

Lemma expected_step_eq (d : @dict esperado) (r : item_ref) :
  expected_step d r
  = if counted r then dict_set d (norm_id (strip (ref_id r))) (entry_of r) else d.
Proof.
  unfold expected_step, counted, entry_of, norm_id.
  destruct (truthy (strip (ref_id r))); [|reflexivity].
  destruct (contains _ _); [|reflexivity]. cbn [negb orb andb].
  destruct (_split_id (strip (ref_id r))) as [c b]. cbn [fst snd].
  destruct (str_eqb (_norm_code c) _); [reflexivity|]. cbn [negb andb].
  now destruct (str_eqb (strip (upper b)) _ && isdigit c && startswith c _).
Qed.

(** Every entry of [expected_norm] comes from a counted reference and
    sits under its normalised identity. *)
Lemma expected_entries (item_refs : list item_ref) (d : @dict esperado) :
  (forall k e, In (k, e) d ->
     exists r, In r item_refs /\ counted r = true
               /\ e = entry_of r /\ k = norm_id (strip (ref_id r))) ->
  forall refs, incl refs item_refs ->
  forall k e, In (k, e) (fold_left expected_step refs d) ->
    exists r, In r item_refs /\ counted r = true
              /\ e = entry_of r /\ k = norm_id (strip (ref_id r)).
Proof.
  intros Hd refs. revert d Hd. induction refs as [|r refs IH]; intros d Hd Hincl; [exact Hd|].
  cbn [fold_left]. apply IH; [|intros x Hx; apply Hincl; now right].
  intros k e. rewrite expected_step_eq. destruct (counted r) eqn:Ec; [|apply Hd].
  intros Hin. apply ExtractorProps.dict_set_In in Hin. destruct Hin as [[-> ->]|Hin]; [|now apply Hd].
  exists r. split; [apply Hincl; now left|]. now repeat split.
Qed.


Lemma dict_mem_set {V : Type} (d : @dict V) (k k' : str) (v : V) :
  dict_mem (dict_set d k v) k' = (str_eqb k k' || dict_mem d k').
Proof.
  unfold dict_mem. destruct (str_eqb k k') eqn:E.
  - apply str_eqb_eq in E. subst. now rewrite dict_get_set_same.
  - apply str_eqb_neq in E. now rewrite dict_get_set_other.
Qed.

Lemma expected_mem_mono (refs : list item_ref) (d : @dict esperado) (k : str) :
  dict_mem d k = true -> dict_mem (fold_left expected_step refs d) k = true.
Proof.
  revert d. induction refs as [|r refs IH]; intros d Hd; [exact Hd|].
  cbn [fold_left]. apply IH. rewrite expected_step_eq.
  destruct (counted r); [|exact Hd]. rewrite dict_mem_set, Hd. apply orb_true_r.
Qed.

(** A counted reference has its normalised identity among the keys. *)
Lemma expected_mem (refs : list item_ref) (d : @dict esperado) (r : item_ref) :
  In r refs -> counted r = true ->
  dict_mem (fold_left expected_step refs d) (norm_id (strip (ref_id r))) = true.
Proof.
  revert d. induction refs as [|r0 refs IH]; intros d Hin Hc; [destruct Hin|].
  cbn [fold_left]. destruct Hin as [->|Hin]; [|now apply IH].
  apply expected_mem_mono. rewrite expected_step_eq, Hc, dict_mem_set.
  now rewrite str_eqb_refl.
Qed.

Section Matching.
Variable detected_norm_set : list str.
Variable by_bank : @dict (list (str * BlocoComposicao)).

Notation match_loop := (fold_left (match_step detected_norm_set by_bank)).

Lemma matched_mono (l : list (str * esperado)) (acc : list str * list aviso_validacao)
    (k : str) :
  In k (fst acc) -> In k (fst (match_loop l acc)).
Proof.
  revert acc. induction l as [|[k0 e0] l IH]; intros [m a] Hin; [exact Hin|].
  cbn [fold_left]. apply IH. unfold match_step.
  destruct (existsb _ _); [apply in_or_app; now left|].
  destruct (best_detected by_bank e0) as [best|]; [|exact Hin].
  destruct (truthy best); [apply in_or_app; now left | exact Hin].
Qed.

(** An entry whose key was detected is matched. *)
Lemma matched_detected (l : list (str * esperado)) (acc : list str * list aviso_validacao)
    (k : str) (e : esperado) :
  In (k, e) l -> In k detected_norm_set -> In k (fst (match_loop l acc)).
Proof.
  revert acc. induction l as [|[k0 e0] l IH]; intros [m a] Hin Hd; [destruct Hin|].
  cbn [fold_left]. destruct Hin as [[= -> ->]|Hin]; [|now apply IH].
  apply matched_mono. unfold match_step.
  apply SanitizerProps.existsb_str_eqb in Hd. rewrite Hd.
  apply in_or_app. right. now left.
Qed.

End Matching.

Lemma detected_rid (rid : str) : snd (fst (detected_pair rid)) = rid.
Proof. unfold detected_pair. now destruct (_split_id rid). Qed.

Lemma detected_norm (rid : str) : snd (detected_pair rid) = norm_id rid.
Proof. unfold detected_pair, norm_id. now destruct (_split_id rid). Qed.

Lemma entry_rid (r : item_ref) : x_rid (entry_of r) = strip (ref_id r).
Proof. reflexivity. Qed.

(** X24: what [itens_faltando] and [itens_extras] hold comes from the
    input: a missing item is the trimmed [ref_id] of a reference that
    counts (it holds a bar, it is no COMPOSICAO placeholder and no SINAPI
    code of digits that starts with 0000), and the extra items are keys of
    [principais], in the order of the dictionary and none twice. *)
Theorem flagged_items_come_from_the_inputs
    (principais : @dict BlocoComposicao) (item_refs : list item_ref) :
  let '(_, itens_faltando, itens_extras) := conferir principais item_refs in
  (forall rid, In rid itens_faltando ->
     exists r, In r item_refs /\ counted r = true /\ strip (ref_id r) = rid)
  /\ exists keep, itens_extras = filter keep (dict_keys principais).
Proof.
  unfold conferir. destruct item_refs as [|r0 refs].
  { split; [intros rid []|]. exists (fun _ => false).
    induction (dict_keys principais); [reflexivity | assumption]. }
  set (item_refs := r0 :: refs). cbv zeta.
  destruct (fold_left _ (expected_norm_of item_refs) _) as [matched avisos].
  split.
  - intros rid Hin. apply in_map_iff in Hin. destruct Hin as ([k e] & <- & Hin).
    apply filter_In in Hin. destruct Hin as [Hin _].
    destruct (expected_entries item_refs [] (fun k e (F : In (k, e) []) => match F with end)
                item_refs (incl_refl _) k e Hin) as (r & Hr & Hc & -> & _).
    now exists r.
  - exists (fun rid => is_extra (expected_norm_of item_refs)
                         (fold_left simple_step (expected_norm_of item_refs) [])
                         (detected_pair rid)).
    unfold detected_pairs. rewrite filter_map_comm, map_map.
    erewrite map_ext; [apply map_id|]. intros rid. apply detected_rid.
Qed.

(** X25: an exact match is never flagged: when a reference that counts and
    a key of [principais] have the same normalised identity, the
    reference is not in [itens_faltando] and the key is not in
    [itens_extras]. *)
Theorem exact_matches_are_not_flagged
    (principais : @dict BlocoComposicao) (item_refs : list item_ref)
    (r : item_ref) (rid : str) :
  In r item_refs -> counted r = true -> In rid (dict_keys principais) ->
  norm_id (strip (ref_id r)) = norm_id rid ->
  let '(_, itens_faltando, itens_extras) := conferir principais item_refs in
  ~ In (strip (ref_id r)) itens_faltando /\ ~ In rid itens_extras.
Proof.
  intros Hr Hc Hk En. unfold conferir. destruct item_refs as [|r0 refs]; [destruct Hr|].
  set (item_refs := r0 :: refs) in *. cbv zeta.
  destruct (fold_left _ (expected_norm_of item_refs) _) as [matched avisos] eqn:Em.
  split.
  - intros Hin. apply in_map_iff in Hin. destruct Hin as ([k e] & Erid & Hin).
    apply filter_In in Hin. destruct Hin as [Hin Hnot]. cbn [fst snd] in *.
    destruct (expected_entries item_refs [] (fun k e (F : In (k, e) []) => match F with end)
                item_refs (incl_refl _) k e Hin) as (r' & _ & _ & -> & ->).
    rewrite entry_rid in Erid. rewrite Erid, En in Hnot, Hin.
    assert (Hm : In (norm_id rid) matched).
    { change matched with (fst (matched, avisos)). rewrite <- Em.
      apply (matched_detected _ _ _ _ _ _ Hin).
      unfold detected_pairs. rewrite map_map. apply in_map_iff.
      exists rid. split; [apply detected_norm | exact Hk]. }
    apply SanitizerProps.existsb_str_eqb in Hm. rewrite Hm in Hnot. discriminate.
  - intros Hin. apply in_map_iff in Hin. destruct Hin as (p & Erid & Hin).
    apply filter_In in Hin. destruct Hin as [Hin Hex].
    unfold detected_pairs in Hin. apply in_map_iff in Hin. destruct Hin as (rid' & <- & _).
    rewrite detected_rid in Erid. subst rid'.
    unfold is_extra, detected_pair in Hex. fold (norm_id rid) in Hex.
    pose proof (expected_mem item_refs [] r Hr Hc) as Hmem. rewrite En in Hmem.
    unfold norm_id in Hmem. destruct (_split_id rid) as [c b].
    unfold expected_norm_of in Hex. rewrite Hmem in Hex. discriminate.
Qed.

End Conferir.

Import Exemplos.

(** The ASCII digits, for the examples. *)
Definition ascii_digits : Digits :=
  {| isdigit_char := fun c => ((48 <=? c) && (c <=? 57))%N |}.

(** The budget refers to 88316 (written another way) and to 12345; the
    compositions hold 88316 and 99999. *)
Definition ex_refs : list item_ref :=
  [mk_ref (lit "1.1") (lit " 88316 | sinapi"); mk_ref (lit "1.2") (lit "12345|SINAPI")].

Lemma exact_matches_are_not_flagged_witness :
  let '(_, itens_faltando, itens_extras) :=
    @conferir Ascii7.db ascii_digits (principais (fst ex_parsed)) ex_refs in
  ~ In (strip (ref_id (mk_ref (lit "1.1") (lit " 88316 | sinapi")))) itens_faltando
  /\ ~ In (lit "88316|SINAPI") itens_extras.
Proof.
  apply (@exact_matches_are_not_flagged Ascii7.db ascii_digits
           (principais (fst ex_parsed)) ex_refs
           (mk_ref (lit "1.1") (lit " 88316 | sinapi")) (lit "88316|SINAPI")).
  - left. reflexivity.
  - vm_compute. reflexivity.
  - vm_compute. left. reflexivity.
  - vm_compute. reflexivity.
Defined.

Example conferir_ex :
  @conferir Ascii7.db ascii_digits (principais (fst ex_parsed)) ex_refs
  = ([], [lit "12345|SINAPI"], [lit "99999|SINAPI"]).
Proof. vm_compute. reflexivity. Qed.

(** A truncated code is matched with a warning: 8831 is not long enough,
    883160 is one character away from 88316. *)
Example conferir_truncated_ex :
  @conferir Ascii7.db ascii_digits (principais (fst ex_parsed))
    [mk_ref (lit "1.1") (lit "883160|SINAPI")]
  = ([MatchPorTruncamento (lit "883160|SINAPI") (lit "88316") (lit "SINAPI")],
     [], [lit "99999|SINAPI"]).
Proof. vm_compute. reflexivity. Qed.

Example collect_item_refs_ex :
  @_collect_item_refs Ascii7.db ascii_digits
    [Parser.Arvore ex_group
       [Parser.Arvore ex_item [];
        Parser.Arvore (Parser.mk_dados (lit "item") (lit "9.5") [] [] (lit "88316") (lit "SINAPI")
                         [] [] [] [] [] []) []]]
  = [mk_ref (lit "9.5") (lit "88316|SINAPI")].
Proof. vm_compute. reflexivity. Qed.

End ConferenciaProps.
